(** * react-exe: the dynamic module execution pipeline

    A shallow embedding of [src/utils/cdn-resolver.ts], [src/utils/index.ts]
    and [src/index.tsx]: the CDN resolver with its two cache scopes, the
    two-pass source transformer with its import rewriter, the generated
    factory with its module registry, and [executeCode] with the effects of
    the [CodeExecutor] component that drive it.

    JavaScript data is modelled as follows.  Strings are [string] (the
    sources handled here are ASCII).  A [Map] or a plain object used as a
    record of bindings keeps insertion order, so it is an association list
    with the update-in-place discipline of [Map.prototype.set]; the two CDN
    caches, where order is never observed, are [gmap]s.  Exceptions are an
    explicit [completion] type.  Objects whose identity matters (promises,
    windows) live in an explicit store and are named by their address.
    Regular expressions are run by a matcher written out below; Babel's
    parser and the network are parameters.  Time is the order of the
    turns: a call of the resolver that is awaited at once runs to its end,
    and the resolutions a run of the component starts together have their
    first halves in one turn and resume as the network answers.  Of the
    console, only the warnings of the import rewriter are kept. *)

From Stdlib Require Import ZArith Lia Ascii.
From Stdlib Require String.
From stdpp Require Import gmap strings list pretty.

Set Default Proof Using "Type".

(** ** JavaScript values *)

#[local] Unset Elimination Schemes.
Inductive value : Type :=
| VUndefined
| VNull
| VBool (b : bool)
| VNum (n : Z)
| VStr (s : string)
| VObject (props : list (string * value))
| VFunction (label : string) (props : list (string * value))
| VError (message : string)
| VForeignError (message : string)
| VErrorComponent (err : value).
#[local] Set Elimination Schemes.

(** [VError m] is an instance of the host's [Error] with message [m].
    [VForeignError m] is an error object made in the realm of a sandbox
    window, by its [Function] constructor or by code that constructor
    compiled: it has the message [m], and [instanceof Error], which looks
    for the host's [Error.prototype], is false for it.  The class of an
    error ([TypeError], [SyntaxError], ...) is not kept.  [VErrorComponent e]
    is the closure [function ErrorComponent() {...}] that the generated
    factory returns from its [catch] block, closed over the caught [err]. *)

Inductive completion (A : Type) : Type :=
| Normal (a : A)
| Throw (e : value).
Arguments Normal {A} a.
Arguments Throw {A} e.

Definition bindC {A B} (c : completion A) (k : A → completion B) : completion B :=
  match c with
  | Normal a => k a
  | Throw e => Throw e
  end.

Notation "x ← c ;;; k" := (bindC c (λ x, k))
  (at level 20, c at level 100, k at level 200, right associativity, only parsing).

Inductive jstype := TUndefined | TObject | TBoolean | TNumber | TString | TFunction.

Definition typeof (v : value) : jstype :=
  match v with
  | VUndefined => TUndefined
  | VNull => TObject
  | VBool _ => TBoolean
  | VNum _ => TNumber
  | VStr _ => TString
  | VObject _ => TObject
  | VFunction _ _ => TFunction
  | VError _ | VForeignError _ => TObject
  | VErrorComponent _ => TFunction
  end.

Definition jstype_name (t : jstype) : string :=
  match t with
  | TUndefined => "undefined"
  | TObject => "object"
  | TBoolean => "boolean"
  | TNumber => "number"
  | TString => "string"
  | TFunction => "function"
  end.

Definition is_function (v : value) : bool :=
  match typeof v with TFunction => true | _ => false end.

(** ToBoolean. *)
Definition truthy (v : value) : bool :=
  match v with
  | VUndefined | VNull => false
  | VBool b => b
  | VNum n => negb (n =? 0)%Z
  | VStr s => negb (String.eqb s "")
  | _ => true
  end.

(** [a || b] on values. *)
Definition js_or (a b : value) : value := if truthy a then a else b.

(** [v instanceof Error], evaluated by host code. *)
Definition instanceofError (v : value) : bool :=
  match v with VError _ => true | _ => false end.

(** The error [e] as an object of a sandbox window: the [Function]
    constructor of such a window, and the functions it compiles, make their
    errors from the classes of that window. *)
Definition foreignError (e : value) : value :=
  match e with
  | VError message => VForeignError message
  | _ => e
  end.

Fixpoint assoc {A} (k : string) (l : list (string * A)) : option A :=
  match l with
  | [] => None
  | (k', a) :: l' => if String.eqb k k' then Some a else assoc k l'
  end.

(** [Map.prototype.set] and property assignment: an existing key keeps its
    position, a new key goes last. *)
Fixpoint assoc_set {A} (k : string) (a : A) (l : list (string * A)) : list (string * A) :=
  match l with
  | [] => [(k, a)]
  | (k', a') :: l' =>
      if String.eqb k k' then (k, a) :: l' else (k', a') :: assoc_set k a l'
  end.

(** Property read [v.p] / [v['p']].  Own data properties only: accessors and
    the prototype chain are not modelled, except [message] of an [Error]. *)
Definition get_prop (v : value) (p : string) : completion value :=
  match v with
  | VUndefined =>
      Throw (VError ("Cannot read properties of undefined (reading '" +:+ p +:+ "')"))
  | VNull =>
      Throw (VError ("Cannot read properties of null (reading '" +:+ p +:+ "')"))
  | VObject props | VFunction _ props => Normal (default VUndefined (assoc p props))
  | VError m | VForeignError m =>
      Normal (if String.eqb p "message" then VStr m else VUndefined)
  | _ => Normal VUndefined
  end.

(** [String(v)]. *)
Definition js_String (v : value) : string :=
  match v with
  | VUndefined => "undefined"
  | VNull => "null"
  | VBool true => "true"
  | VBool false => "false"
  | VNum n => pretty n
  | VStr s => s
  | VObject _ => "[object Object]"
  | VFunction l _ => "function " +:+ l +:+ "() { [code] }"
  | VError m | VForeignError m => "Error: " +:+ m
  | VErrorComponent _ => "function ErrorComponent() { [code] }"
  end.

(** [err instanceof Error ? err.message : String(err)] *)
Definition error_text (e : value) : string :=
  match e with
  | VError m => m
  | _ => js_String e
  end.

(** ** Strings *)

Fixpoint prefixb (p s : string) : bool :=
  match p, s with
  | EmptyString, _ => true
  | String a p', String b s' => if Ascii.eqb a b then prefixb p' s' else false
  | String _ _, EmptyString => false
  end.

(** [s.includes(sub)] *)
Fixpoint includes (s sub : string) : bool :=
  prefixb sub s ||
  match s with
  | EmptyString => false
  | String _ s' => includes s' sub
  end.

(** [s.startsWith(p)] *)
Definition startsWith (s p : string) : bool := prefixb p s.

Fixpoint drop_str (n : nat) (s : string) : string :=
  match n, s with
  | O, _ => s
  | S n', String _ s' => drop_str n' s'
  | S _, EmptyString => EmptyString
  end.

Fixpoint take_str (n : nat) (s : string) : string :=
  match n, s with
  | O, _ => EmptyString
  | S n', String c s' => String c (take_str n' s')
  | S _, EmptyString => EmptyString
  end.

Definition is_ws (c : ascii) : bool :=
  let n := nat_of_ascii c in
  (n =? 32) || ((9 <=? n) && (n <=? 13)).

Fixpoint trim_start (s : string) : string :=
  match s with
  | String c s' => if is_ws c then trim_start s' else s
  | EmptyString => EmptyString
  end.

Definition trim_end (s : string) : string :=
  String.rev (trim_start (String.rev s)).

(** [s.trim()] *)
Definition trim (s : string) : string := trim_end (trim_start s).

(** [l.join(sep)] *)
Fixpoint join (sep : string) (l : list string) : string :=
  match l with
  | [] => ""
  | [x] => x
  | x :: l' => x +:+ sep +:+ join sep l'
  end.

(** [s.split(c)] for a one-character separator. *)
Fixpoint split_char (c : ascii) (s : string) : list string :=
  match s with
  | EmptyString => [EmptyString]
  | String a s' =>
      if Ascii.eqb a c then EmptyString :: split_char c s'
      else match split_char c s' with
           | [] => [String a EmptyString]
           | x :: l => String a x :: l
           end
  end.

(** ** Regular expressions

    The regular-expression literals of the sources are kept as syntax trees
    and run by a backtracking matcher with the priorities of the ECMAScript
    one: alternatives left to right, greedy repetition longest first, lazy
    repetition shortest first, an iteration of a repetition that consumes
    nothing rejected.  Positions count characters from the start of the
    subject string. *)

Inductive regex : Type :=
| Eps
| Chr (c : ascii)
| Dot
| Cls (negated : bool) (ranges : list (ascii * ascii))
| Seq (r1 r2 : regex)
| Alt (r1 r2 : regex)
| Star (greedy : bool) (r : regex)
| Cap (i : nat) (r : regex)
| Bol
| Eol.

Definition captures := list (nat * string).

Definition lower (c : ascii) : ascii :=
  let n := nat_of_ascii c in
  if (65 <=? n) && (n <=? 90) then ascii_of_nat (n + 32) else c.

Definition chr_eq (ci : bool) (a c : ascii) : bool :=
  if ci then Ascii.eqb (lower a) (lower c) else Ascii.eqb a c.

Definition in_range (a : ascii) (r : ascii * ascii) : bool :=
  (nat_of_ascii r.1 <=? nat_of_ascii a) && (nat_of_ascii a <=? nat_of_ascii r.2).

Definition upper (c : ascii) : ascii :=
  let n := nat_of_ascii c in
  if (97 <=? n) && (n <=? 122) then ascii_of_nat (n - 32) else c.

Definition in_ranges (ci : bool) (a : ascii) (rs : list (ascii * ascii)) : bool :=
  if ci then existsb (in_range (lower a)) rs || existsb (in_range (upper a)) rs
  else existsb (in_range a) rs.

Definition is_line_terminator (c : ascii) : bool :=
  let n := nat_of_ascii c in (n =? 10) || (n =? 13).

Fixpoint rmatch (ci : bool) (r : regex) (pos : nat) (s : string) (caps : captures)
    (k : nat → string → captures → option (nat * captures)) {struct r}
    : option (nat * captures) :=
  match r with
  | Eps => k pos s caps
  | Chr c =>
      match s with
      | String a s' => if chr_eq ci a c then k (S pos) s' caps else None
      | EmptyString => None
      end
  | Dot =>
      match s with
      | String a s' => if is_line_terminator a then None else k (S pos) s' caps
      | EmptyString => None
      end
  | Cls neg rs =>
      match s with
      | String a s' => if xorb neg (in_ranges ci a rs) then k (S pos) s' caps else None
      | EmptyString => None
      end
  | Seq r1 r2 =>
      rmatch ci r1 pos s caps (λ pos' s' caps', rmatch ci r2 pos' s' caps' k)
  | Alt r1 r2 =>
      match rmatch ci r1 pos s caps k with
      | Some x => Some x
      | None => rmatch ci r2 pos s caps k
      end
  | Star g r1 =>
      (fix loop (n : nat) (pos : nat) (s : string) (caps : captures) {struct n} :=
         match n with
         | O => k pos s caps
         | S n' =>
             let again pos' s' caps' :=
               if pos <? pos' then loop n' pos' s' caps' else None in
             if g then
               match rmatch ci r1 pos s caps again with
               | Some x => Some x
               | None => k pos s caps
               end
             else
               match k pos s caps with
               | Some x => Some x
               | None => rmatch ci r1 pos s caps again
               end
         end) (String.length s) pos s caps
  | Cap i r1 =>
      rmatch ci r1 pos s caps
        (λ pos' s' caps', k pos' s' ((i, take_str (pos' - pos) s) :: caps'))
  | Bol => if pos =? 0 then k pos s caps else None
  | Eol => match s with EmptyString => k pos s caps | _ => None end
  end.

Record found := { m_start : nat; m_end : nat; m_caps : captures }.

Fixpoint group (i : nat) (c : captures) : option string :=
  match c with
  | [] => None
  | (j, t) :: c' => if i =? j then Some t else group i c'
  end.

(** The leftmost match at or after position [pos]; [s] is the subject from
    [pos] on. *)
Fixpoint search (ci : bool) (r : regex) (pos : nat) (s : string) : option found :=
  match rmatch ci r pos s [] (λ e _ c, Some (e, c)) with
  | Some (e, c) => Some {| m_start := pos; m_end := e; m_caps := c |}
  | None =>
      match s with
      | String _ s' => search ci r (S pos) s'
      | EmptyString => None
      end
  end.

(** [s.match(re)] for a literal without the [g] flag. *)
Definition match_first (r : regex) (s : string) : option found := search false r 0 s.

(** The loop [while ((m = re.exec(s)) !== null)] over a fresh [g] literal. *)
Fixpoint exec_all_from (fuel : nat) (r : regex) (pos : nat) (s : string) : list found :=
  match fuel with
  | O => []
  | S fuel' =>
      match search false r pos s with
      | None => []
      | Some m =>
          if m_end m <=? pos then [m]
          else m :: exec_all_from fuel' r (m_end m) (drop_str (m_end m - pos) s)
      end
  end.

Definition exec_all (r : regex) (s : string) : list found :=
  exec_all_from (S (String.length s)) r 0 s.

Inductive piece := Lit (s : string) | Grp (i : nat).

Definition expand (t : list piece) (m : found) : string :=
  fold_right (λ p acc,
    match p with
    | Lit s => s +:+ acc
    | Grp i => default "" (group i (m_caps m)) +:+ acc
    end) "" t.

(** [s.replace(re, t)] for a literal with the [g] flag. *)
Fixpoint replace_from (fuel : nat) (r : regex) (t : list piece) (pos : nat) (s : string)
    : string :=
  match fuel with
  | O => s
  | S fuel' =>
      match search false r pos s with
      | None => s
      | Some m =>
          let before := take_str (m_start m - pos) s in
          let rest := drop_str (m_end m - pos) s in
          if m_end m <=? m_start m then
            match rest with
            | String c rest' =>
                before +:+ expand t m +:+ String c (replace_from fuel' r t (S (m_end m)) rest')
            | EmptyString => before +:+ expand t m
            end
          else before +:+ expand t m +:+ replace_from fuel' r t (m_end m) rest
      end
  end.

Definition replace_all (r : regex) (t : list piece) (s : string) : string :=
  replace_from (S (String.length s)) r t 0 s.

(** [s.replace(re, t)] for a literal without the [g] flag. *)
Definition replace_first (r : regex) (t : list piece) (s : string) : string :=
  match search false r 0 s with
  | None => s
  | Some m => take_str (m_start m) s +:+ expand t m +:+ drop_str (m_end m) s
  end.

(** [s.split(re)] for a literal without capture groups that matches no empty
    string. *)
Fixpoint split_from (fuel : nat) (r : regex) (pos : nat) (s : string) : list string :=
  match fuel with
  | O => [s]
  | S fuel' =>
      match search false r pos s with
      | None => [s]
      | Some m =>
          if m_end m <=? m_start m then [s]
          else take_str (m_start m - pos) s
               :: split_from fuel' r (m_end m) (drop_str (m_end m - pos) s)
      end
  end.

Definition split_re (r : regex) (s : string) : list string :=
  split_from (S (String.length s)) r 0 s.

(** A [RegExp] object: the syntax tree, its printed form (what a template
    literal shows), the [i], [g] and [y] flags, and the mutable [lastIndex].
    The flags that change what the pattern matches ([m], [s], [u]) are part
    of the tree. *)
Record RegExp := {
  re_text : string;
  re_ast : regex;
  re_ignoreCase : bool;
  re_global : bool;
  re_sticky : bool;
  lastIndex : nat;
}.

Definition set_lastIndex (n : nat) (p : RegExp) : RegExp :=
  {| re_text := re_text p; re_ast := re_ast p; re_ignoreCase := re_ignoreCase p;
     re_global := re_global p; re_sticky := re_sticky p; lastIndex := n |}.

(** A match that starts at position [pos] itself, as the [y] flag asks. *)
Definition match_at (ci : bool) (r : regex) (pos : nat) (s : string) : option found :=
  match rmatch ci r pos s [] (λ e _ c, Some (e, c)) with
  | Some (e, c) => Some {| m_start := pos; m_end := e; m_caps := c |}
  | None => None
  end.

(** [p.test(s)]: a [g] or [y] expression starts at its [lastIndex] and leaves
    the end of the match there, or 0 after a failure; a [y] expression
    matches at that index only.  Without [g] and [y] the search starts at 0
    and [lastIndex] is left alone. *)
Definition RegExp_test (p : RegExp) (s : string) : bool * RegExp :=
  if re_global p || re_sticky p then
    if String.length s <? lastIndex p then (false, set_lastIndex 0 p)
    else
      let rest := drop_str (lastIndex p) s in
      match (if re_sticky p
             then match_at (re_ignoreCase p) (re_ast p) (lastIndex p) rest
             else search (re_ignoreCase p) (re_ast p) (lastIndex p) rest) with
      | Some m => (true, set_lastIndex (m_end m) p)
      | None => (false, set_lastIndex 0 p)
      end
  else
    match search (re_ignoreCase p) (re_ast p) 0 s with
    | Some _ => (true, p)
    | None => (false, p)
    end.

(** Builders for the literals. *)
Fixpoint lit (s : string) : regex :=
  match s with
  | EmptyString => Eps
  | String c EmptyString => Chr c
  | String c s' => Seq (Chr c) (lit s')
  end.

Definition plus (r : regex) : regex := Seq r (Star true r).
Definition star (r : regex) : regex := Star true r.
Definition opt (r : regex) : regex := Alt r Eps.
Definition seqs (l : list regex) : regex := fold_right Seq Eps l.
Definition alts (l : list string) : regex :=
  match l with
  | [] => Eps
  | x :: l' => fold_left (λ acc y, Alt acc (lit y)) l' (lit x)
  end.
Definition sp : regex := Cls false [(" ", " "); ("009", "013")]%char.
Definition none_of (s : string) : regex :=
  Cls true (map (λ c, (c, c)) (String.list_ascii_of_string s)).
Definition one_of (s : string) : regex :=
  Cls false (map (λ c, (c, c)) (String.list_ascii_of_string s)).
Definition alnum_ : list (ascii * ascii) :=
  [("a", "z"); ("A", "Z"); ("0", "9"); ("_", "_")]%char.

(** ** [src/utils/index.ts]: the literals *)

Definition dquote : ascii := ascii_of_nat 34.
Definition quote : regex := Cls false [("'", "'")%char; (dquote, dquote)].
Definition not_quote : regex := Cls true [("'", "'")%char; (dquote, dquote)].

(** [/export\s+(const|let|var|function|class)\s+([A-Za-z0-9_$]+)/g] *)
Definition exportRegex : regex :=
  seqs [lit "export"; plus sp;
        Cap 1 (alts ["const"; "let"; "var"; "function"; "class"]); plus sp;
        Cap 2 (plus (Cls false (alnum_ ++ [("$", "$")%char])))].

(** [/export\s+{([^}]+)}/g] *)
Definition exportBraceRegex : regex :=
  seqs [lit "export"; plus sp; Chr "{"; Cap 1 (plus (none_of "}")); Chr "}"].

(** [/\s+as\s+/] *)
Definition asRegex : regex := seqs [plus sp; lit "as"; plus sp].

(** [/export\s+{[^}]+};?/g] *)
Definition exportBraceStatementRegex : regex :=
  seqs [lit "export"; plus sp; Chr "{"; plus (none_of "}"); Chr "}"; opt (Chr ";")].

(** [/export\s+type\s+[^;]+;/g] *)
Definition typeExportRegex : regex :=
  seqs [lit "export"; plus sp; lit "type"; plus sp; plus (none_of ";"); Chr ";"].

(** [/export\s+interface\s+[^{]+{[^}]+}/g] *)
Definition interfaceExportRegex : regex :=
  seqs [lit "export"; plus sp; lit "interface"; plus sp; plus (none_of "{"); Chr "{";
        plus (none_of "}"); Chr "}"].

(** The literal [/import\s+(\*\s+as\s+)?React\s+from\s+QreactQ;?/g], where [Q]
    stands for the class of the two quote characters. *)
Definition reactImportRegex : regex :=
  seqs [lit "import"; plus sp;
        opt (Cap 1 (seqs [Chr "*"; plus sp; lit "as"; plus sp]));
        lit "React"; plus sp; lit "from"; plus sp; quote; lit "react"; quote;
        opt (Chr ";")].

(** [/[^a-zA-Z0-9_]/g] *)
Definition unsafeCharRegex : regex := Cls true alnum_.

(** [/\.(js|jsx|ts|tsx)$/] *)
Definition extensionRegex : regex :=
  seqs [Chr "."; Cap 1 (alts ["js"; "jsx"; "ts"; "tsx"]); Eol].

(** [/^\.\//] *)
Definition dotSlashRegex : regex := seqs [Bol; lit "./"].

(** The literal of [defaultExportWithDeclarationRegex], in parts:
    [export\s+default\s+], optional [async\s+], [function\s+], the captured
    name [A-Za-z0-9_]+, [\s*], an optional [<...>] without [>] inside, [\s*],
    a parenthesised parameter list without a closing parenthesis inside,
    [\s*], an optional return annotation (a colon, [\s*], characters other
    than an opening brace, [\s*]), [\s*], and a braced body without a closing
    brace inside. *)
Definition defaultExportWithDeclarationRegex : regex :=
  seqs [lit "export"; plus sp; lit "default"; plus sp;
        opt (seqs [lit "async"; plus sp]); lit "function"; plus sp;
        Cap 1 (plus (Cls false alnum_)); star sp;
        opt (seqs [Chr "<"; star (none_of ">"); Chr ">"]); star sp;
        Chr "("; star (none_of ")"); Chr ")"; star sp;
        opt (seqs [Chr ":"; star sp; star (none_of "{"); star sp]); star sp;
        Chr "{"; star (none_of "}"); Chr "}"].

(** [/export\s+default\s+([A-Za-z0-9_]+)(?:<[^>]*>)?;?/] *)
Definition defaultExportRegex : regex :=
  seqs [lit "export"; plus sp; lit "default"; plus sp;
        Cap 1 (plus (Cls false alnum_));
        opt (seqs [Chr "<"; star (none_of ">"); Chr ">"]); opt (Chr ";")].

(** [/export\s+default\s+(?:async\s+)?function/] *)
Definition defaultFunctionRegex : regex :=
  seqs [lit "export"; plus sp; lit "default"; plus sp;
        opt (seqs [lit "async"; plus sp]); lit "function"].

(** ** [src/utils/index.ts]: names *)

(** [filename.replace(/\.(js|jsx|ts|tsx)$/, "").replace(/^\.\//, "")] *)
Definition normalizeFilename (filename : string) : string :=
  replace_first dotSlashRegex [] (replace_first extensionRegex [] filename).

(** [dep.replace(/[^a-zA-Z0-9_]/g, "_")].  A string is a sequence of bytes
    here and of UTF-16 units in the code: on keys made of ASCII characters,
    as package names are, the two agree; a character outside ASCII gives one
    underscore per byte here. *)
Definition safeName (dep : string) : string :=
  replace_all unsafeCharRegex [Lit "_"] dep.

(** ** [removeDefaultExport] *)

Record Stripped := { modifiedInput : string; exportedName : option string }.

Definition removeDefaultExport (input : string) : Stripped :=
  let modified :=
    replace_all interfaceExportRegex [] (replace_all typeExportRegex [] input) in
  match match_first defaultExportWithDeclarationRegex input with
  | Some m =>
      {| exportedName := group 1 (m_caps m);
         modifiedInput := trim (replace_first defaultFunctionRegex [Lit "function"] modified) |}
  | None =>
      match match_first defaultExportRegex input with
      | Some m =>
          {| exportedName := group 1 (m_caps m);
             modifiedInput := trim (replace_first defaultExportRegex [] modified) |}
      | None => {| exportedName := None; modifiedInput := modified |}
      end
  end.

(** ** [src/utils/cdn-resolver.ts]

    A realm is a window object.  [HostWindow] is the global [window] the
    resolver module runs in; [Frame n] is the content window of a sandbox
    iframe.  An absent [targetWindow] ([null] or [undefined]) is [None]. *)

Inductive Window := HostWindow | Frame (id : nat).

#[global] Instance Window_eq_dec : EqDecision Window.
Proof. solve_decision. Defined.

#[global] Instance Window_countable : Countable Window :=
  inj_countable'
    (λ w, match w with HostWindow => None | Frame n => Some n end)
    (λ o, match o with None => HostWindow | Some n => Frame n end)
    (λ w, match w with HostWindow => eq_refl | Frame _ => eq_refl end).

(** The realm a request is made against: [!targetWindow || targetWindow === window]
    selects the host. *)
Definition realmOf (targetWindow : option Window) : Window :=
  default HostWindow targetWindow.

Definition PromiseId := nat.

(** A promise object.  [Resolution] is the promise of the async closure
    that fetches [packageName] for [targetWindow]; [outcome] is how it
    settles.  [Adopted p] is the promise an [async] function hands to its
    caller when its body returned promise [p]: a new object every call,
    settling as [p] does.  [Pending] is the promise of a closure that waits
    for its import from esm.sh; [primary] is how that import ends. *)
Inductive Promise :=
| Resolution (packageName : string) (targetWindow : option Window) (outcome : completion value)
| Adopted (inner : PromiseId)
| Pending (packageName : string) (targetWindow : option Window) (primary : completion value).

(** An entry of the import log: [importModuleFromUrl] was called for
    [req_url] in [req_realm].  The log counts the imports the resolver asks
    for; a call for a sandbox window without a document is rejected before
    a script is injected, so the log is an upper bound of the fetches. *)
Record Request := { req_realm : Window; req_url : string }.

#[global] Instance Request_eq_dec : EqDecision Request.
Proof. solve_decision. Defined.

Record CdnState := {
  GLOBAL_CDN_CACHE : gmap string PromiseId;
  SANDBOX_CDN_CACHE : gmap Window (gmap string PromiseId);
  promises : list Promise;
  requests : list Request;
}.

Definition emptyCdn : CdnState :=
  {| GLOBAL_CDN_CACHE := ∅; SANDBOX_CDN_CACHE := ∅; promises := []; requests := [] |}.

(** What the network does with the [n]-th request: a dynamic [import(url)] in
    the host, or a module script injected into a sandbox document; and when
    it answers it.  Of two requests that wait at the same time, the one
    with the smaller [answerTime] is answered first, the earlier one when
    the times are equal. *)
Inductive ScriptOutcome :=
| NoDocument
| Loaded (captured : value)
| LoadError (message : string)
| Raised (error : value).

Record Network := {
  dynamicImport : nat → string → completion value;
  scriptImport : nat → Window → string → ScriptOutcome;
  answerTime : nat → nat;
}.

Definition importInsideWindow (net : Network) (n : nat) (url : string) (targetWindow : Window)
    : completion value :=
  match scriptImport net n targetWindow url with
  | NoDocument => Throw (VError "Sandbox document is not accessible")
  | Loaded moduleExports =>
      if truthy moduleExports then Normal moduleExports
      else Throw (VError ("Module " +:+ url +:+ " was loaded but no exports were captured"))
  | LoadError message =>
      Throw (VError ("Failed to load " +:+ url +:+ " inside sandbox: " +:+
                     (if String.eqb message "" then "unknown error" else message)))
  | Raised error =>
      Throw (if instanceofError error then error
             else VError ("Failed to import " +:+ url +:+ " inside sandbox"))
  end.

Definition log_request (r : Request) (st : CdnState) : CdnState :=
  {| GLOBAL_CDN_CACHE := GLOBAL_CDN_CACHE st; SANDBOX_CDN_CACHE := SANDBOX_CDN_CACHE st;
     promises := promises st; requests := requests st ++ [r] |}.

(** How the [n]-th request, for [url] in the realm of [targetWindow], ends. *)
Definition importOutcome (net : Network) (n : nat) (url : string)
    (targetWindow : option Window) : completion value :=
  match targetWindow with
  | None | Some HostWindow => dynamicImport net n url
  | Some w => importInsideWindow net n url w
  end.

Definition importModuleFromUrl (net : Network) (url : string) (targetWindow : option Window)
    (st : CdnState) : completion value * CdnState :=
  (importOutcome net (length (requests st)) url targetWindow,
   log_request {| req_realm := realmOf targetWindow; req_url := url |} st).

Inductive CacheRef := GlobalCache | SandboxCache (w : Window).

Definition getCache (targetWindow : option Window) (st : CdnState) : CacheRef * CdnState :=
  match targetWindow with
  | None | Some HostWindow => (GlobalCache, st)
  | Some w =>
      (SandboxCache w,
       match SANDBOX_CDN_CACHE st !! w with
       | Some _ => st
       | None =>
           {| GLOBAL_CDN_CACHE := GLOBAL_CDN_CACHE st;
              SANDBOX_CDN_CACHE := <[w := ∅]> (SANDBOX_CDN_CACHE st);
              promises := promises st; requests := requests st |}
       end)
  end.

Definition cache_get (c : CacheRef) (k : string) (st : CdnState) : option PromiseId :=
  match c with
  | GlobalCache => GLOBAL_CDN_CACHE st !! k
  | SandboxCache w => SANDBOX_CDN_CACHE st !! w ≫= (.!! k)
  end.

Definition cache_set (c : CacheRef) (k : string) (p : PromiseId) (st : CdnState) : CdnState :=
  match c with
  | GlobalCache =>
      {| GLOBAL_CDN_CACHE := <[k := p]> (GLOBAL_CDN_CACHE st);
         SANDBOX_CDN_CACHE := SANDBOX_CDN_CACHE st;
         promises := promises st; requests := requests st |}
  | SandboxCache w =>
      {| GLOBAL_CDN_CACHE := GLOBAL_CDN_CACHE st;
         SANDBOX_CDN_CACHE :=
           <[w := <[k := p]> (default ∅ (SANDBOX_CDN_CACHE st !! w))]> (SANDBOX_CDN_CACHE st);
         promises := promises st; requests := requests st |}
  end.

Definition new_promise (p : Promise) (st : CdnState) : PromiseId * CdnState :=
  (length (promises st),
   {| GLOBAL_CDN_CACHE := GLOBAL_CDN_CACHE st; SANDBOX_CDN_CACHE := SANDBOX_CDN_CACHE st;
      promises := promises st ++ [p]; requests := requests st |}).

Definition cdnUrl (packageName : string) : string :=
  "https://esm.sh/" +:+ packageName +:+ "?external=react,react-dom&target=es2022&dev".

Definition fallbackUrl (packageName : string) : string :=
  "https://cdn.jsdelivr.net/npm/" +:+ packageName +:+ "/+esm".

Definition compositeError (packageName : string) (error fallbackError : value) : value :=
  VError ("Failed to resolve " +:+ packageName +:+ " from CDN. " +:+
          "Primary error: " +:+ error_text error +:+ ". " +:+
          "Fallback error: " +:+ error_text fallbackError).

(** The async closure of [resolvePackageFromCDN], run to its end without
    anything else running in between, as when the caller awaits the
    returned promise before it does anything else: the import from esm.sh,
    and after its failure the one from jsDelivr. *)
Definition resolveClosure (net : Network) (packageName : string)
    (targetWindow : option Window) (st : CdnState) : completion value * CdnState :=
  match importModuleFromUrl net (cdnUrl packageName) targetWindow st with
  | (Normal module, st1) => (Normal module, st1)
  | (Throw error, st1) =>
      match importModuleFromUrl net (fallbackUrl packageName) targetWindow st1 with
      | (Normal module, st2) => (Normal module, st2)
      | (Throw fallbackError, st2) =>
          (Throw (compositeError packageName error fallbackError), st2)
      end
  end.

(** [resolvePackageFromCDN] is an [async] function without an [await] of
    its own: the cache lookup, the start of the closure and [cache.set] run
    in one turn, and the caller gets a fresh promise that adopts the cached
    one.  Here the closure runs to its end at once; [startResolution] and
    [resumeResolution] below are the two halves of the same call for
    callers that start several resolutions in one turn. *)
Definition resolvePackageFromCDN (net : Network) (packageName : string)
    (targetWindow : option Window) (st : CdnState) : PromiseId * CdnState :=
  let '(cache, st) := getCache targetWindow st in
  match cache_get cache packageName st with
  | Some cached => new_promise (Adopted cached) st
  | None =>
      let '(outcome, st) := resolveClosure net packageName targetWindow st in
      let '(resolvePromise, st) :=
        new_promise (Resolution packageName targetWindow outcome) st in
      let st := cache_set cache packageName resolvePromise st in
      new_promise (Adopted resolvePromise) st
  end.

Definition clearCDNCache (st : CdnState) : CdnState :=
  {| GLOBAL_CDN_CACHE := ∅; SANDBOX_CDN_CACHE := ∅;
     promises := promises st; requests := requests st |}.

(** How promise [p] settles; [None] while it has not. *)
Definition settled (st : CdnState) (p : PromiseId) : option (completion value) :=
  match promises st !! p with
  | Some (Resolution _ _ outcome) => Some outcome
  | Some (Adopted q) =>
      match promises st !! q with
      | Some (Resolution _ _ outcome) => Some outcome
      | _ => None
      end
  | _ => None
  end.

(** The first half of [resolvePackageFromCDN], the turn in which it is
    called: the cache lookup, and on a miss the closure up to its first
    [await] (the import from esm.sh is asked for), [cache.set] and the
    promise for the caller. *)
Definition startResolution (net : Network) (packageName : string)
    (targetWindow : option Window) (st : CdnState) : PromiseId * CdnState :=
  let '(cache, st) := getCache targetWindow st in
  match cache_get cache packageName st with
  | Some cached => new_promise (Adopted cached) st
  | None =>
      let '(primary, st) := importModuleFromUrl net (cdnUrl packageName) targetWindow st in
      let '(resolvePromise, st) :=
        new_promise (Pending packageName targetWindow primary) st in
      let st := cache_set cache packageName resolvePromise st in
      new_promise (Adopted resolvePromise) st
  end.

Definition set_promise (p : PromiseId) (x : Promise) (st : CdnState) : CdnState :=
  {| GLOBAL_CDN_CACHE := GLOBAL_CDN_CACHE st; SANDBOX_CDN_CACHE := SANDBOX_CDN_CACHE st;
     promises := <[p := x]> (promises st); requests := requests st |}.

(** The second half: the closure of promise [p] resumes when its import
    from esm.sh has been answered.  After a failure it asks for the import
    from jsDelivr, and the promise settles as that one ends. *)
Definition resumeResolution (net : Network) (p : PromiseId) (st : CdnState) : CdnState :=
  match promises st !! p with
  | Some (Pending packageName targetWindow (Normal module)) =>
      set_promise p (Resolution packageName targetWindow (Normal module)) st
  | Some (Pending packageName targetWindow (Throw error)) =>
      let '(fallback, st) :=
        importModuleFromUrl net (fallbackUrl packageName) targetWindow st in
      set_promise p
        (Resolution packageName targetWindow
           match fallback with
           | Normal module => Normal module
           | Throw fallbackError => Throw (compositeError packageName error fallbackError)
           end) st
  | _ => st
  end.

(** The closures that wait for an answer, each with the number of its
    request, in the order the network answers them. *)
Fixpoint insert_answer (net : Network) (x : nat * PromiseId) (l : list (nat * PromiseId))
    : list (nat * PromiseId) :=
  match l with
  | [] => [x]
  | y :: l' =>
      if answerTime net x.1 <=? answerTime net y.1 then x :: l
      else y :: insert_answer net x l'
  end.

Definition answerOrder (net : Network) (waiting : list (nat * PromiseId))
    : list (nat * PromiseId) :=
  fold_right (insert_answer net) [] waiting.

(** What happens to the resolver module, turn by turn: a call of
    [resolvePackageFromCDN] runs its first half, the closure of a promise
    resumes, or the caches are cleared. *)
Inductive CdnEvent :=
| Called (packageName : string) (targetWindow : option Window)
| Answered (p : PromiseId)
| Cleared.

Definition cdn_react (net : Network) (st : CdnState) (ev : CdnEvent) : CdnState :=
  match ev with
  | Called packageName targetWindow => (startResolution net packageName targetWindow st).2
  | Answered p => resumeResolution net p st
  | Cleared => clearCDNCache st
  end.

Definition cdn_trace (net : Network) (events : list CdnEvent) : CdnState :=
  fold_left (cdn_react net) events emptyCdn.

(** The cache a realm reads, without creating it. *)
Definition cacheOf (st : CdnState) (realm : Window) : gmap string PromiseId :=
  match realm with
  | HostWindow => GLOBAL_CDN_CACHE st
  | w => default ∅ (SANDBOX_CDN_CACHE st !! w)
  end.

(** The calls a client can make on the resolver module, each awaited before
    the next. *)
Inductive CdnCall :=
| CallResolve (packageName : string) (targetWindow : option Window)
| CallClear.

Definition cdn_step (net : Network) (st : CdnState) (c : CdnCall) : CdnState :=
  match c with
  | CallResolve packageName targetWindow =>
      (resolvePackageFromCDN net packageName targetWindow st).2
  | CallClear => clearCDNCache st
  end.

Definition cdn_run (net : Network) (calls : list CdnCall) : CdnState :=
  fold_left (cdn_step net) calls emptyCdn.

Definition count_in (realm : Window) (url : string) (l : list Request) : nat :=
  length (filter (λ r, r = {| req_realm := realm; req_url := url |}) l).



(** The requests one run of the closure issues, and how it ends: the
    esm.sh import, then the jsDelivr one if the first failed. *)
Definition fetchSequence (net : Network) (n : nat) (pkg : string) (tw : option Window)
    : completion value * list Request :=
  let primary := {| req_realm := realmOf tw; req_url := cdnUrl pkg |} in
  let fallback := {| req_realm := realmOf tw; req_url := fallbackUrl pkg |} in
  match importOutcome net n (cdnUrl pkg) tw with
  | Normal m => (Normal m, [primary])
  | Throw e1 =>
      match importOutcome net (S n) (fallbackUrl pkg) tw with
      | Normal m => (Normal m, [primary; fallback])
      | Throw e2 => (Throw (compositeError pkg e1 e2), [primary; fallback])
      end
  end.

(** Invariant of the caches: every cached promise is the resolution promise
    of its own key, made for its own realm. *)
Definition cache_sound (st : CdnState) : Prop :=
  ∀ r k p, cacheOf st r !! k = Some p →
    ∃ tw o, promises st !! p = Some (Resolution k tw o) ∧ realmOf tw = r.


(** ** Module code and what it does when it runs

    A module body runs inside the generated factory.  From there it can call
    [getModule], read the variables of the factory's scope (the dependency
    bindings, [React], [dependencies]), keep bindings of its own, assign to
    [exports] and replace [module.exports], and throw.  [prog] is the tree of
    such a run: the two requests to the enclosing scope with the continuation
    for either completion, and the two ways to end. *)

Inductive prog (A : Type) : Type :=
| Ret (a : A)
| Raise (e : value)
| GetModule (name : string) (k : completion value → prog A)
| Outer (x : string) (k : completion value → prog A).
Arguments Ret {A} a.
Arguments Raise {A} e.
Arguments GetModule {A} name k.
Arguments Outer {A} x k.

Fixpoint bindP {A B} (p : prog A) (f : A → prog B) : prog B :=
  match p with
  | Ret a => f a
  | Raise e => Raise e
  | GetModule n k => GetModule n (λ r, bindP (k r) f)
  | Outer x k => Outer x (λ r, bindP (k r) f)
  end.

Definition liftC {A} (c : completion A) : prog A :=
  match c with
  | Normal a => Ret a
  | Throw e => Raise e
  end.

(** The bindings of one module body, the object [exports] was bound to at
    entry, and the value assigned to [module.exports] if it was replaced. *)
Record ModuleScope := {
  bindings : list (string * value);
  exportsObject : list (string * value);
  reassigned : option value;
}.

Definition emptyScope : ModuleScope :=
  {| bindings := []; exportsObject := []; reassigned := None |}.

(** [module.exports] *)
Definition module_exports (sc : ModuleScope) : value :=
  default (VObject (exportsObject sc)) (reassigned sc).

Definition declare (x : string) (v : value) (sc : ModuleScope) : ModuleScope :=
  {| bindings := assoc_set x v (bindings sc); exportsObject := exportsObject sc;
     reassigned := reassigned sc |}.

(** [exports.x = v] *)
Definition assign_export (x : string) (v : value) (sc : ModuleScope) : ModuleScope :=
  {| bindings := bindings sc; exportsObject := assoc_set x v (exportsObject sc);
     reassigned := reassigned sc |}.

(** [module.exports = v] *)
Definition assign_module_exports (v : value) (sc : ModuleScope) : ModuleScope :=
  {| bindings := bindings sc; exportsObject := exportsObject sc; reassigned := Some v |}.

(** ** The syntax the import rewriter works on *)

Inductive Specifier :=
| ImportDefaultSpecifier (local : string)
| ImportSpecifier (imported : string) (local : string)
| ImportNamespaceSpecifier (local : string).

Inductive Expr :=
| Identifier (x : string)
| MemberExpression (object : Expr) (property : string)
| CallGetModule (arg : string).

(** A top-level statement of a parsed file.  The rewriter looks at import
    declarations and produces [const] declarations; every other statement
    is user code, kept as what it does to the module's scope.  Export
    declarations that the textual preprocessing leaves in a text, and
    declarations of TypeScript types, are not part of this syntax: the
    visitors of the plugin for them are outside the model. *)
Inductive Statement :=
| ImportDeclaration (source : string) (specifiers : list Specifier)
| VariableDeclaration (local : string) (init : Expr)
| UserStatement (run : ModuleScope → prog ModuleScope).

(** What Babel has of a text when the plugins start: the statements, and
    from its scope the imported names that are referenced as a value
    somewhere in the text, that is outside a type; the name [React] counts
    as referenced in a text with JSX. *)
Record Parsed := {
  body : list Statement;
  valueReferences : list string;
}.

Definition local_name (specifier : Specifier) : string :=
  match specifier with
  | ImportDefaultSpecifier local
  | ImportSpecifier _ local
  | ImportNamespaceSpecifier local => local
  end.

Definition referenced (parsed : Parsed) (specifier : Specifier) : bool :=
  existsb (String.eqb (local_name specifier)) (valueReferences parsed).

(** The TypeScript preset, which sees the program before the import
    rewriter sees its declarations: of an import declaration with
    specifiers it removes those whose name is not referenced as a value,
    and the declaration when none is left.  A declaration without
    specifiers stays. *)
Definition elideImports (parsed : Parsed) : list Statement :=
  flat_map (λ s,
    match s with
    | ImportDeclaration source specifiers =>
        match specifiers, List.filter (referenced parsed) specifiers with
        | [], _ => [s]
        | _, [] => []
        | _, kept => [ImportDeclaration source kept]
        end
    | _ => [s]
    end) (body parsed).

Record CodeFile := { name : string; content : string; isEntry : option bool }.

Record ExportInfo := {
  hasDefaultExport : bool;
  namedExports : list string;
  info_exportedName : option string;
}.

(** [Set.prototype.add] on an insertion-ordered set. *)
Definition set_add (x : string) (s : list string) : list string :=
  if existsb (String.eqb x) s then s else s ++ [x].

(** The first loop of pass 1: [namedExports.add(match[2])]. *)
Definition declaredExports (code : string) (acc : list string) : list string :=
  fold_left (λ acc m, match group 2 (m_caps m) with
                      | Some x => set_add x acc
                      | None => acc
                      end) (exec_all exportRegex code) acc.

Definition exportItemName (exportItem : string) : string :=
  let nameParts := split_re asRegex (trim exportItem) in
  if 1 <? length nameParts then trim (nth 1 nameParts "") else trim (nth 0 nameParts "").

(** The second loop of pass 1, over [export { x, y as z }] lists. *)
Definition listedExports (code : string) (acc : list string) : list string :=
  fold_left (λ acc m,
    fold_left (λ acc exportItem,
      let exportName := exportItemName exportItem in
      if String.eqb exportName "" then acc else set_add exportName acc)
      (split_char "," (default "" (group 1 (m_caps m)))) acc)
    (exec_all exportBraceRegex code) acc.

Definition is_some {A} (o : option A) : bool :=
  match o with Some _ => true | None => false end.

Definition scanExports (file : CodeFile) : ExportInfo :=
  let r := removeDefaultExport (content file) in
  {| hasDefaultExport := is_some (exportedName r);
     namedExports := listedExports (modifiedInput r) (declaredExports (modifiedInput r) []);
     info_exportedName := exportedName r |}.

(** Pass 1: [exportInfo.set(file.name, ...)] for every file, in order. *)
Definition firstPass (files : list CodeFile) : list (string * ExportInfo) :=
  fold_left (λ acc file, assoc_set (name file) (scanExports file) acc) files [].

(** The textual preprocessing of pass 2. *)
Definition preprocess (modified : string) : string :=
  let p := replace_all exportRegex [Grp 1; Lit " "; Grp 2] modified in
  let p := replace_all exportBraceStatementRegex [] p in
  let p := replace_all typeExportRegex [] p in
  let p := replace_all interfaceExportRegex [] p in
  if includes p "import React from" || includes p "import * as React from"
  then replace_all reactImportRegex [] p
  else p.

(** The text of a file as it is handed to Babel. *)
Definition processedInput (file : CodeFile) : string :=
  preprocess (modifiedInput (removeDefaultExport (content file))).

(** ** [createImportTransformerPlugin] *)

Definition normalizedModulePaths (localModules : list CodeFile) : list (string * string) :=
  fold_left (λ acc module, assoc_set (normalizeFilename (name module)) (name module) acc)
    localModules [].

Definition const_member (local : string) (object : Expr) (property : string) : Statement :=
  VariableDeclaration local (MemberExpression object property).

Definition moduleNotFound (source : string) : value :=
  VError ("Module not found: " +:+ source +:+
          ". To enable automatic CDN resolution, set autoResolvePackage to true.").

(** The message of that error as [transformMultipleFiles] throws it. *)
Definition unresolvedDependency (source : string) : value :=
  VError ("unknown file: Module not found: " +:+ source +:+
          ". To enable automatic CDN resolution, set autoResolvePackage to true.").

Definition mayNotBeExported (importedName source : string) : string :=
  "Warning: Importing '" +:+ importedName +:+ "' from '" +:+ source +:+
  "' but it may not be exported".

Definition willResolveFromCDN (source : string) : string :=
  "Module " +:+ source +:+ " not found in dependencies. Will attempt to resolve from CDN.".

(** What one visit returns: the statements that replace the declaration,
    the (mutated) [dependencyVarMap], and the warnings it printed. *)
Record Visit := {
  newNodes : list Statement;
  varMap : list (string * string);
  warnings : list string;
}.

Definition reactBindings (specifiers : list Specifier) : list Statement :=
  flat_map (λ specifier,
    match specifier with
    | ImportSpecifier importedName local => [const_member local (Identifier "React") importedName]
    | _ => []
    end) specifiers.

Definition localBindings (normalizedSource : string) (specifiers : list Specifier)
    : list Statement :=
  flat_map (λ specifier,
    match specifier with
    | ImportDefaultSpecifier local =>
        [const_member local (CallGetModule normalizedSource) "default"]
    | ImportSpecifier importedName local =>
        [const_member local (CallGetModule normalizedSource) importedName]
    | ImportNamespaceSpecifier _ => []
    end) specifiers.

Definition localWarnings (moduleExportInfo : option ExportInfo) (source : string)
    (specifiers : list Specifier) : list string :=
  flat_map (λ specifier,
    match specifier with
    | ImportSpecifier importedName _ =>
        let isNamedExport :=
          match moduleExportInfo with
          | Some info => existsb (String.eqb importedName) (namedExports info)
          | None => false
          end in
        if isNamedExport then [] else [mayNotBeExported importedName source]
    | _ => []
    end) specifiers.

Definition externalBindings (sourceVarName : string) (specifiers : list Specifier)
    : list Statement :=
  flat_map (λ specifier,
    match specifier with
    | ImportDefaultSpecifier local => [VariableDeclaration local (Identifier sourceVarName)]
    | ImportSpecifier importedName local =>
        [const_member local (Identifier sourceVarName) importedName]
    | ImportNamespaceSpecifier _ => []
    end) specifiers.

(** The [ImportDeclaration] visitor. *)
Definition visitImportDeclaration
    (allowedDependencies : list string) (localModules : list CodeFile)
    (exportInfo : list (string * ExportInfo)) (autoResolvePackage : bool)
    (source : string) (specifiers : list Specifier)
    (dependencyVarMap : list (string * string)) : completion Visit :=
  match specifiers with
  | [] => Normal {| newNodes := [ImportDeclaration source []];
                    varMap := dependencyVarMap; warnings := [] |}
  | _ =>
    if String.eqb source "react" then
      Normal {| newNodes := reactBindings specifiers;
                varMap := dependencyVarMap; warnings := [] |}
    else
      let paths := normalizedModulePaths localModules in
      let normalizedSource := normalizeFilename source in
      let isLocalModule := is_some (assoc normalizedSource paths) in
      let isProvidedDependency := existsb (String.eqb source) allowedDependencies in
      let isExternalDependency := negb isLocalModule && negb (String.eqb source "react") in
      let unresolved := isExternalDependency && negb isProvidedDependency in
      if unresolved && negb autoResolvePackage then Throw (moduleNotFound source)
      else
        let dependencyVarMap :=
          if unresolved then assoc_set source (safeName source) dependencyVarMap
          else dependencyVarMap in
        let warned := if unresolved then [willResolveFromCDN source] else [] in
        if isLocalModule then
          let originalModuleName := default "" (assoc normalizedSource paths) in
          let moduleExportInfo := assoc originalModuleName exportInfo in
          Normal {| newNodes := localBindings normalizedSource specifiers;
                    varMap := dependencyVarMap;
                    warnings := warned ++ localWarnings moduleExportInfo source specifiers |}
        else
          let sourceVarName :=
            match assoc source dependencyVarMap with
            | Some v => if String.eqb v "" then source else v
            | None => source
            end in
          Normal {| newNodes := externalBindings sourceVarName specifiers;
                    varMap := dependencyVarMap; warnings := warned |}
  end.

(** A map built by one [set] per element of a list, as the two passes and
    the generated code build theirs. *)
Definition build_from {X A} (key : X → string) (val : X → A) (l : list X)
    (acc : list (string * A)) : list (string * A) :=
  fold_left (λ acc x, assoc_set (key x) (val x) acc) l acc.

(** ** [transformMultipleFiles] *)

Definition Dependencies := list (string * value).

(** [Object.keys(dependencies)] (package names are not array indices, so the
    keys come in insertion order). *)
Definition keys (dependencies : Dependencies) : list string := map fst dependencies.

(** An import the rewriter cannot place: not the framework, not a file of
    the set, not a key of the dependency map. *)
Definition unresolvedImport (files : list CodeFile) (deps : Dependencies)
    (source : string) : Prop :=
  source ≠ "react" ∧
  assoc (normalizeFilename source) (normalizedModulePaths files) = None ∧
  source ∉ keys deps.

Record ModuleRecord := {
  code : list Statement;
  mod_exportedName : option string;
  mod_exportInfo : option ExportInfo;
}.

(** The epilogue of a module definition.  [ExportDefault X] is the pair
    [exports.default = X; module.exports = Object.assign({}, module.exports,
    typeof X === 'function' ? { default: X } : X);] and [ExportNamed X] is
    [if (typeof X !== 'undefined') { exports.X = X; }]. *)
Inductive SetupStatement :=
| ExportDefault (x : string)
| ExportNamed (x : string).

Record ModuleDefinition := {
  normalizedName : string;
  def_code : list Statement;
  exportsSetup : list SetupStatement;
}.

(** The text [transformMultipleFiles] returns, by the holes of its
    template: the [const safeName = dependencies['dep'];] lines, the
    [moduleDefinitions.set(...)] blocks and the name given to
    [getModule] in the [try] block. *)
Record FactorySource := {
  dependencyVars : list (string * string);
  moduleDefinitions : list ModuleDefinition;
  entryModuleName : string;
}.

(** The state of the module [utils/index.ts]: the module-level [moduleCache]
    and what the import rewriter printed with [console.warn]. *)
Record UtilsState := {
  moduleCache : list (string * ModuleRecord);
  console : list string;
}.

(** The [const safeName = dependencies['dep'];] lines, as pairs. *)
Definition dependencyVarsOf (dependencies : Dependencies) : list (string * string) :=
  map (λ dep, (safeName dep, dep)) (keys dependencies).

Definition initialDependencyVarMap (dependencies : Dependencies) : list (string * string) :=
  fold_left (λ acc dep, assoc_set dep (safeName dep) acc) (keys dependencies) [].

Definition truthy_name (o : option string) : bool :=
  match o with
  | Some s => negb (String.eqb s "")
  | None => false
  end.

Definition findEntry (files : list CodeFile) : option CodeFile :=
  match find (λ f, match isEntry f with Some true => true | _ => false end) files with
  | Some f => Some f
  | None => head files
  end.

Definition moduleDefinitionOf (files : list CodeFile) (entry : string * ModuleRecord)
    : ModuleDefinition :=
  let '(name0, module) := entry in
  let info :=
    default {| hasDefaultExport := is_some (mod_exportedName module);
               namedExports := [];
               info_exportedName := mod_exportedName module |}
            (mod_exportInfo module) in
  let originalCode :=
    match find (λ f, String.eqb (name f) name0) files with
    | Some f => content f
    | None => ""
    end in
  let found := exec_all exportRegex originalCode in
  let named := declaredExports originalCode [] in
  let hookName :=
    if includes name0 "use" then last found ≫= (λ m, group 2 (m_caps m)) else None in
  let defaultPart :=
    match info_exportedName info with
    | Some x => if hasDefaultExport info && truthy_name (Some x) then [ExportDefault x] else []
    | None => []
    end in
  let hookPart :=
    match hookName with
    | Some h => if truthy_name (Some h) && includes name0 h then [ExportNamed h] else []
    | None => []
    end in
  {| normalizedName := normalizeFilename name0;
     def_code := code module;
     exportsSetup := defaultPart ++ map ExportNamed named ++ hookPart |}.

(** [e.message = `${opts.filename ?? "unknown file"}: ${e.message}`] *)
Definition inFile (e : value) : value :=
  match e with
  | VError message => VError ("unknown file: " +:+ message)
  | VForeignError message => VForeignError ("unknown file: " +:+ message)
  | _ => e
  end.

Section Transformer.

(** Babel's parser, with what each user statement does when it runs; a
    syntax error is a thrown [Error]. *)
Variable parse : string → completion Parsed.

(** The traversal: import declarations are visited in source order and
    replaced by what the visitor returns; the first exception ends it. *)
Fixpoint traverse (visit : string → list Specifier → list (string * string) → completion Visit)
    (program : list Statement) (dependencyVarMap : list (string * string))
    : completion (list Statement * list string) :=
  match program with
  | [] => Normal ([], [])
  | ImportDeclaration source specifiers :: rest =>
      v ← visit source specifiers dependencyVarMap;;;
      r ← traverse visit rest (varMap v);;;
      Normal (newNodes v ++ r.1, warnings v ++ r.2)
  | statement :: rest =>
      r ← traverse visit rest dependencyVarMap;;;
      Normal (statement :: r.1, r.2)
  end.

(** [transform(processedInput, { presets, plugins: [plugin] }).code].  Babel
    hands on an exception of a plugin with the name of the file, of which
    it was given none, put before the message. *)
Definition transform (processedInput : string)
    (visit : string → list Specifier → list (string * string) → completion Visit)
    (dependencyVarMap : list (string * string))
    : completion (list Statement * list string) :=
  parsed ← parse processedInput;;;
  match traverse visit (elideImports parsed) dependencyVarMap with
  | Normal r => Normal r
  | Throw e => Throw (inFile e)
  end.

(** The body of the second [files.forEach], for one file. *)
Definition transformFile (files : list CodeFile) (dependencies : Dependencies)
    (exportInfo : list (string * ExportInfo)) (autoResolvePackage : bool)
    (file : CodeFile) : completion (ModuleRecord * list string) :=
  let fileExportInfo := assoc (name file) exportInfo in
  let r := removeDefaultExport (content file) in
  let dependencyVarMap := initialDependencyVarMap dependencies in
  t ← transform (processedInput file)
        (visitImportDeclaration (keys dependencies) files exportInfo autoResolvePackage)
        dependencyVarMap;;;
  Normal ({| code := t.1; mod_exportedName := exportedName r;
             mod_exportInfo := fileExportInfo |}, t.2).

(** Pass 2 over the files still to do; an exception leaves the module-level
    cache as far as it was filled. *)
Fixpoint secondPass (files : list CodeFile) (dependencies : Dependencies)
    (exportInfo : list (string * ExportInfo)) (autoResolvePackage : bool)
    (todo : list CodeFile) (st : UtilsState) : completion unit * UtilsState :=
  match todo with
  | [] => (Normal tt, st)
  | file :: todo' =>
      match transformFile files dependencies exportInfo autoResolvePackage file with
      | Throw e => (Throw e, st)
      | Normal (module, warned) =>
          secondPass files dependencies exportInfo autoResolvePackage todo'
            {| moduleCache := assoc_set (name file) module (moduleCache st);
               console := console st ++ warned |}
      end
  end.

Definition transformMultipleFiles (files : list CodeFile) (dependencies : Dependencies)
    (autoResolvePackage : bool) (st : UtilsState) : completion FactorySource * UtilsState :=
  let st := {| moduleCache := []; console := console st |} in
  let exportInfo := firstPass files in
  match secondPass files dependencies exportInfo autoResolvePackage files st with
  | (Throw e, st) => (Throw e, st)
  | (Normal _, st) =>
      match findEntry files with
      | None =>
          (Throw (VError "Cannot read properties of undefined (reading 'name')"), st)
      | Some entryFile =>
          match assoc (name entryFile) (moduleCache st) with
          | None => (Throw (VError "Entry module not found"), st)
          | Some _ =>
              (Normal {| dependencyVars := dependencyVarsOf dependencies;
                         moduleDefinitions := map (moduleDefinitionOf files) (moduleCache st);
                         entryModuleName := normalizeFilename (name entryFile) |}, st)
          end
      end
  end.

End Transformer.

(** ** The generated factory

    [new Function(transformedCode)] parses the text, and the first early
    error in the order of the text ends it.  Those the template can
    provoke with the names put into its holes are modelled, with the
    messages of V8: a name after [const] that is not an identifier or is a
    reserved word, a lexical name declared twice in the factory body or
    clashing with its parameters or its [getModule] function, and an import
    declaration left inside a module body.  Of the names that start with a
    digit, those made of digits are told apart; for the others the message
    depends on the characters that follow, which is not modelled beyond the
    error itself.  A key with a quote, a backslash or a line break does not
    fit the quoted hole [dependencies['...']]: such keys are outside the
    model, see [plainKey]. *)

Definition syntaxError (message : string) : value := VError message.

(** [(sandboxWindow ? sandboxWindow.Function : undefined) || Function] is the
    constructor of a sandbox window when one is given, and the host's
    otherwise. *)
Definition sandboxRealm (realm : option Window) : bool :=
  match realm with
  | Some (Frame _) => true
  | _ => false
  end.

(** An error thrown by the [Function] constructor of [realm], or by code it
    compiled. *)
Definition thrownIn (realm : option Window) (e : value) : value :=
  if sandboxRealm realm then foreignError e else e.

Fixpoint redeclared (bound : list string) (names : list string) : option string :=
  match names with
  | [] => None
  | x :: names' =>
      if existsb (String.eqb x) bound then Some x else redeclared (x :: bound) names'
  end.

Definition identifier_start (x : string) : bool :=
  match x with
  | EmptyString => false
  | String c _ => in_ranges false c [("a", "z"); ("A", "Z"); ("_", "_"); ("$", "$")]%char
  end.

(** The words that are tokens of their own in a function body that is not
    in strict mode. *)
Definition keywords : list string :=
  ["break"; "case"; "catch"; "class"; "const"; "continue"; "debugger"; "default";
   "delete"; "do"; "else"; "export"; "extends"; "false"; "finally"; "for"; "function";
   "if"; "import"; "in"; "instanceof"; "new"; "null"; "return"; "super"; "switch";
   "this"; "throw"; "true"; "try"; "typeof"; "var"; "void"; "while"; "with"].

Definition is_digit (c : ascii) : bool := in_ranges false c [("0", "9")]%char.

(** A name that can be declared with [const]. *)
Definition bindingName (x : string) : bool :=
  identifier_start x && negb (existsb (String.eqb x) keywords)
  && negb (String.eqb x "enum") && negb (String.eqb x "let").

(** What the parser says of [const x = ...] when [x] cannot be declared. *)
Definition tokenError (x : string) : string :=
  if String.eqb x "" then "Unexpected token '='"
  else if identifier_start x then
    if String.eqb x "enum" then "Unexpected reserved word"
    else if String.eqb x "let" then "let is disallowed as a lexically bound name"
    else "Unexpected token '" +:+ x +:+ "'"
  else if forallb is_digit (String.list_ascii_of_string x) then "Unexpected number"
  else "Invalid or unexpected token".

Definition alreadyDeclared (x : string) : string :=
  "Identifier '" +:+ x +:+ "' has already been declared".

(** The [const] declarations at the start of the factory body, in order,
    with the names [bound] before them; the message of the first error. *)
Fixpoint declarationError (bound : list string) (names : list string) : option string :=
  match names with
  | [] => None
  | x :: names' =>
      if negb (bindingName x) then Some (tokenError x)
      else if existsb (String.eqb x) bound then Some (alreadyDeclared x)
      else declarationError (x :: bound) names'
  end.

Definition is_import (s : Statement) : bool :=
  match s with ImportDeclaration _ _ => true | _ => false end.

(** A key the template can quote. *)
Definition plainKey (dep : string) : bool :=
  forallb (λ c, negb (Ascii.eqb c "'") && negb (Ascii.eqb c "\") && negb (is_line_terminator c))
    (String.list_ascii_of_string dep).

Definition FunctionConstructor (realm : option Window) (transformedCode : FactorySource)
    : completion FactorySource :=
  let names := map fst (dependencyVars transformedCode) ++ ["moduleCache"; "moduleDefinitions"] in
  match declarationError ["React"; "dependencies"] names with
  | Some message => Throw (thrownIn realm (syntaxError message))
  | None =>
      if existsb (λ d, existsb is_import (def_code d)) (moduleDefinitions transformedCode)
      then Throw (thrownIn realm (syntaxError "Cannot use import statement outside a module"))
      else if existsb (String.eqb "getModule") names
      then Throw (thrownIn realm (syntaxError (alreadyDeclared "getModule")))
      else Normal transformedCode
  end.

(** Own enumerable properties, as [Object.assign] copies them. *)
Definition own_props (v : value) : list (string * value) :=
  match v with
  | VObject props | VFunction _ props => props
  | _ => []
  end.

(** [Object.assign({}, a, b)] *)
Definition Object_assign (a b : value) : value :=
  VObject (fold_left (λ acc kv, assoc_set kv.1 kv.2 acc) (own_props a ++ own_props b) []).

Definition lookupIdentifier (x : string) (sc : ModuleScope) : prog value :=
  match assoc x (bindings sc) with
  | Some v => Ret v
  | None => Outer x liftC
  end.

Fixpoint evalExpr (e : Expr) (sc : ModuleScope) : prog value :=
  match e with
  | Identifier x => lookupIdentifier x sc
  | MemberExpression object property =>
      bindP (evalExpr object sc) (λ v, liftC (get_prop v property))
  | CallGetModule arg => GetModule arg liftC
  end.

Definition execStatement (s : Statement) (sc : ModuleScope) : prog ModuleScope :=
  match s with
  | ImportDeclaration _ _ =>
      Raise (syntaxError "Cannot use import statement outside a module")
  | VariableDeclaration local init => bindP (evalExpr init sc) (λ v, Ret (declare local v sc))
  | UserStatement run => run sc
  end.

Fixpoint execStatements (l : list Statement) (sc : ModuleScope) : prog ModuleScope :=
  match l with
  | [] => Ret sc
  | s :: l' => bindP (execStatement s sc) (execStatements l')
  end.

(** [typeof X], which does not throw on an undeclared name. *)
Definition typeofIdentifier (x : string) (sc : ModuleScope) : prog value :=
  match assoc x (bindings sc) with
  | Some v => Ret v
  | None => Outer x (λ r, match r with Normal v => Ret v | Throw _ => Ret VUndefined end)
  end.

Definition execSetup (s : SetupStatement) (sc : ModuleScope) : prog ModuleScope :=
  match s with
  | ExportDefault x =>
      bindP (lookupIdentifier x sc) (λ v,
        let sc := assign_export "default" v sc in
        let extra := if is_function v then VObject [("default", v)] else v in
        Ret (assign_module_exports (Object_assign (module_exports sc) extra) sc))
  | ExportNamed x =>
      bindP (typeofIdentifier x sc) (λ v,
        match v with
        | VUndefined => Ret sc
        | _ => Ret (assign_export x v sc)
        end)
  end.

Fixpoint execSetups (l : list SetupStatement) (sc : ModuleScope) : prog ModuleScope :=
  match l with
  | [] => Ret sc
  | s :: l' => bindP (execSetup s sc) (execSetups l')
  end.

(** The function stored by [moduleDefinitions.set(name, function(React) {...})]:
    it runs the module code and the epilogue and returns [module.exports];
    its [catch] block prints and rethrows. *)
Definition moduleFactory (d : ModuleDefinition) : prog value :=
  bindP (execStatements (def_code d) emptyScope) (λ sc,
  bindP (execSetups (exportsSetup d) sc) (λ sc,
  Ret (module_exports sc))).

(** Running a module body against the registry: [gm] answers [getModule]
    and [outer] the reads of the factory's variables. *)
Fixpoint runProg {A} (gm : string → list (string * value) → completion value * list (string * value))
    (outer : string → completion value) (p : prog A) (cache : list (string * value))
    : completion A * list (string * value) :=
  match p with
  | Ret a => (Normal a, cache)
  | Raise e => (Throw e, cache)
  | GetModule n k => let '(r, cache') := gm n cache in runProg gm outer (k r) cache'
  | Outer x k => runProg gm outer (k (outer x)) cache
  end.

Definition has_exports_type (v : value) : bool :=
  match typeof v with TObject | TFunction => true | _ => false end.

(** [getModule(name)] of the generated code, with the factory's
    [moduleCache] threaded through.  [depth] is the room left on the call
    stack: an import cycle recurses until the engine raises its [RangeError],
    which the [catch] blocks on the way out rethrow. *)
Fixpoint getModule (depth : nat) (definitions : list (string * ModuleDefinition))
    (outer : string → completion value) (name0 : string) (cache : list (string * value))
    : completion value * list (string * value) :=
  match assoc name0 cache with
  | Some exports => (Normal exports, cache)
  | None =>
      match assoc name0 definitions with
      | None => (Throw (VError ("Module " +:+ String dquote name0 +:+ String dquote " not found")), cache)
      | Some d =>
          match depth with
          | O => (Throw (VError "Maximum call stack size exceeded"), cache)
          | S depth' =>
              match runProg (getModule depth' definitions outer) outer (moduleFactory d) cache with
              | (Throw e, cache') => (Throw e, cache')
              | (Normal moduleExports, cache') =>
                  if has_exports_type moduleExports
                  then (Normal moduleExports, assoc_set name0 moduleExports cache')
                  else (Throw (VError ("Module " +:+ String dquote name0 +:+ String dquote
                                       " did not return a valid exports object")), cache')
              end
          end
      end
  end.

Definition quoted (s : string) : string := String dquote (s +:+ String dquote "").

(** [JSON.stringify(v)]; [None] is [undefined].  Escapes are not modelled. *)
Fixpoint JSON_stringify (v : value) : option string :=
  match v with
  | VUndefined | VFunction _ _ | VErrorComponent _ => None
  | VNull => Some "null"
  | VBool b => Some (if b then "true" else "false")
  | VNum n => Some (pretty n)
  | VStr s => Some (quoted s)
  | VError _ | VForeignError _ => Some "{}"
  | VObject props =>
      Some ("{" +:+
            join "," ((fix members (l : list (string * value)) : list string :=
                         match l with
                         | [] => []
                         | (k, x) :: l' =>
                             match JSON_stringify x with
                             | Some t => (quoted k +:+ ":" +:+ t) :: members l'
                             | None => members l'
                             end
                         end) props) +:+ "}")
  end.

Definition notAComponent (c : value) : value :=
  VError ("Expected a React component but got " +:+ jstype_name (typeof c) +:+ " (" +:+
          default "undefined" (JSON_stringify c) +:+
          "). Check that your component is properly exported.").

(** The variables of the factory body that module code can read. *)
Definition factoryScope (src : FactorySource) (React : value) (dependencies : Dependencies)
    : list (string * value) :=
  [("React", React); ("dependencies", VObject dependencies)] ++
  map (λ sd, (sd.1, default VUndefined (assoc sd.2 dependencies))) (dependencyVars src).

Definition readOuter (scope : list (string * value)) (x : string) : completion value :=
  match assoc x scope with
  | Some v => Normal v
  | None => Throw (VError (x +:+ " is not defined"))
  end.

(** [moduleDefinitions.set(normalizedName, ...)] for each block, in order. *)
Definition definitionsMap (src : FactorySource) : list (string * ModuleDefinition) :=
  fold_left (λ acc d, assoc_set (normalizedName d) d acc) (moduleDefinitions src) [].

(** The [try] block of the factory. *)
Definition resolveEntry (stack : nat) (src : FactorySource) (React : value)
    (dependencies : Dependencies) : completion value :=
  entryModule ← (getModule stack (definitionsMap src)
                   (readOuter (factoryScope src React dependencies))
                   (entryModuleName src) []).1;;;
  entryDefault ← get_prop entryModule "default";;;
  let Component := js_or entryDefault entryModule in
  if is_function Component then Normal Component else Throw (notAComponent Component).

(** [function(React, dependencies) { ... }] *)
Definition runFactory (stack : nat) (src : FactorySource) (React : value)
    (dependencies : Dependencies) : completion value :=
  _ ← get_prop React "useState";;;
  match resolveEntry stack src React dependencies with
  | Normal Component => Normal Component
  | Throw err => Normal (VErrorComponent err)
  end.

(** What the [try] block computes from the instance of the entry module. *)
Definition componentOf (entryModule : completion value) : completion value :=
  instance ← entryModule;;;
  entryDefault ← get_prop instance "default";;;
  let C := js_or entryDefault instance in
  if is_function C then Normal C else Throw (notAComponent C).

(** ** [src/index.tsx]: [executeCode] *)

Definition mkPattern (text : string) (ast : regex) : RegExp :=
  {| re_text := text; re_ast := ast; re_ignoreCase := true; re_global := false;
     re_sticky := false; lastIndex := 0 |}.

Definition defaultSecurityPatterns : list RegExp :=
  [ mkPattern "/document\.cookie/i" (lit "document.cookie");
    mkPattern "/window\.document\.cookie/i" (lit "window.document.cookie");
    mkPattern "/eval\(/i" (lit "eval(");
    mkPattern "/Function\(/i" (lit "Function(");
    mkPattern "/document\.write/i" (lit "document.write");
    mkPattern "/document\.location/i" (lit "document.location") ].

Inductive Code :=
| Source (text : string)
| Files (files : list CodeFile).

Record ExecutionResult := {
  Component : option value;
  error : option string;
  forbiddenPatterns : bool;
}.

Definition initialExecutionResult : ExecutionResult :=
  {| Component := None; error := None; forbiddenPatterns := false |}.

Definition codeFilesOf (code : Code) : list CodeFile :=
  match code with
  | Files files => files
  | Source text => [{| name := "index.tsx"; content := text; isEntry := Some true |}]
  end.

(** The inner loop of the security check on one file: the patterns are
    tested in order, each test updating its pattern, up to the first that
    matches. *)
Fixpoint testPatterns (text : string) (patterns : list RegExp)
    : option RegExp * list RegExp :=
  match patterns with
  | [] => (None, [])
  | pattern :: rest =>
      match RegExp_test pattern text with
      | (true, pattern') => (Some pattern', pattern' :: rest)
      | (false, pattern') =>
          let '(hit, rest') := testPatterns text rest in (hit, pattern' :: rest')
      end
  end.

(** The outer loop, over the files. *)
Fixpoint securityCheck (files : list CodeFile) (patterns : list RegExp)
    : option (CodeFile * RegExp) * list RegExp :=
  match files with
  | [] => (None, patterns)
  | file :: rest =>
      match testPatterns (content file) patterns with
      | (Some pattern, patterns') => (Some (file, pattern), patterns')
      | (None, patterns') => securityCheck rest patterns'
      end
  end.

Definition forbiddenMessage (file : CodeFile) (pattern : RegExp) : string :=
  "Forbidden code pattern detected in " +:+ name file +:+ ": " +:+ re_text pattern.

(** What a call of [executeCode] leaves behind: its result, the patterns
    with their [lastIndex] as the tests left them, and the state of the
    transformer module. *)
Record Executed := {
  result : ExecutionResult;
  patterns_after : list RegExp;
  utils_after : UtilsState;
}.

(** What a [test] from index 0 says: a match anywhere in the text, or at
    its start only for a [y] pattern. *)
Definition matchesPattern (p : RegExp) (text : string) : bool :=
  is_some (if re_sticky p then match_at (re_ignoreCase p) (re_ast p) 0 text
           else search (re_ignoreCase p) (re_ast p) 0 text).

(** A pattern whose [test] reads and writes [lastIndex]. *)
Definition stateful (p : RegExp) : bool := re_global p || re_sticky p.

(** A pattern is fresh when a [test] would search from the start. *)
Definition fresh (p : RegExp) : Prop := stateful p = true → lastIndex p = 0.

(** Two pattern objects that differ at most in [lastIndex]. *)
Definition same_pattern (p q : RegExp) : Prop :=
  re_text p = re_text q ∧ re_ast p = re_ast q ∧
  re_ignoreCase p = re_ignoreCase q ∧ re_global p = re_global q ∧
  re_sticky p = re_sticky q.

(** The check as the specification words it: the first file, in order, with
    a pattern that matches its content, and the first such pattern. *)
Definition firstMatch (text : string) (patterns : list RegExp) : option RegExp :=
  find (λ p, matchesPattern p text) patterns.

Fixpoint firstViolation (files : list CodeFile) (patterns : list RegExp)
    : option (CodeFile * RegExp) :=
  match files with
  | [] => None
  | file :: rest =>
      match firstMatch (content file) patterns with
      | Some p => Some (file, p)
      | None => firstViolation rest patterns
      end
  end.

Definition violationMessage (v : option (CodeFile * RegExp)) : option string :=
  option_map (λ fp, forbiddenMessage fp.1 fp.2) v.

(** The result [executeCode] builds in its [catch] block:
    [err instanceof Error ? err.message : "An unknown error occurred"]. *)
Definition errorResult (err : value) : ExecutionResult :=
  {| Component := None;
     error := Some (match err with
                    | VError message => message
                    | _ => "An unknown error occurred"
                    end);
     forbiddenPatterns := false |}.

Definition passesSecurity (files : list CodeFile) (patterns : list RegExp) (bypass : bool)
    : Prop :=
  bypass = true ∨ (securityCheck files patterns).1 = None.

Section Executor.

Variable parse : string → completion Parsed.
Variable stack : nat.

(** What follows the security check inside the [try] block. *)
Definition compileAndRun (codeFiles : list CodeFile) (dependencies : Dependencies)
    (autoResolvePackage : bool) (reactContext : value) (sandboxWindow : option Window)
    (st : UtilsState) : completion value * UtilsState :=
  let '(transformedCode, st') :=
    transformMultipleFiles parse codeFiles dependencies autoResolvePackage st in
  (src ← transformedCode;;;
   factoryFunction ← FunctionConstructor sandboxWindow src;;;
   match runFactory stack factoryFunction reactContext dependencies with
   | Normal Component => Normal Component
   | Throw err => Throw (thrownIn sandboxWindow err)
   end, st').

Definition executeCode (code : Code) (dependencies : Dependencies)
    (securityPatterns : list RegExp) (bypassSecurity : bool)
    (autoResolvePackage : bool) (reactContext : value) (sandboxWindow : option Window)
    (st : UtilsState) : Executed :=
  let codeFiles := codeFilesOf code in
  let '(violation, patterns) :=
    if bypassSecurity then (None, securityPatterns)
    else securityCheck codeFiles securityPatterns in
  match violation with
  | Some (file, pattern) =>
      {| result := {| Component := None;
                      error := Some (forbiddenMessage file pattern);
                      forbiddenPatterns := true |};
         patterns_after := patterns; utils_after := st |}
  | None =>
      match compileAndRun codeFiles dependencies autoResolvePackage reactContext
              sandboxWindow st with
      | (Normal C, st') =>
          {| result := {| Component := Some C; error := None; forbiddenPatterns := false |};
             patterns_after := patterns; utils_after := st' |}
      | (Throw err, st') =>
          {| result := errorResult err; patterns_after := patterns; utils_after := st' |}
      end
  end.

End Executor.

(** ** [src/index.tsx]: the [CodeExecutor] component

    The component is modelled by its state and by the bodies of its effects
    and callbacks, each a function on that state.  [onError] is the caller's
    callback; its calls are recorded in [onErrorCalls]. *)

(** The literal [/import\s+.*?\s+from\s+Q([^Q]+)Q/g], where [Q] stands for the
    class of the two quote characters. *)
Definition importRegex : regex :=
  seqs [lit "import"; plus sp; Star false Dot; plus sp; lit "from"; plus sp;
        quote; Cap 1 (plus not_quote); quote].

Record Config := {
  dependencies : Dependencies;
  onError : bool;
  autoResolvePackage : bool;
  sandbox : bool;
}.

Record ExecutorState := {
  executionResult : ExecutionResult;
  resolvedDependencies : Dependencies;
  isLoading : bool;
  iframeReady : bool;
  iframeWindow : option Window;
  sandboxRoot : option (option value);
  prevCodeRef : option Code;
  prevDependenciesRef : option Dependencies;
  prevSandboxContextRef : option string;
  securityPatterns : list RegExp;
  onErrorCalls : list value;
  cdn : CdnState;
  utils : UtilsState;
}.

(** [iframeWindow] is [iframeRef.current.contentWindow] when there is an
    iframe with a window; [sandboxRoot] is [iframeReactRootRef.current] with
    the element it renders; [securityPatterns] are the caller's pattern
    objects, which [test] mutates. *)

Definition initialState (cfg : Config) (patterns : list RegExp) : ExecutorState :=
  {| executionResult := initialExecutionResult;
     resolvedDependencies := dependencies cfg;
     isLoading := false; iframeReady := false; iframeWindow := None; sandboxRoot := None;
     prevCodeRef := None; prevDependenciesRef := None; prevSandboxContextRef := None;
     securityPatterns := patterns; onErrorCalls := [];
     cdn := emptyCdn; utils := {| moduleCache := []; console := [] |} |}.

Definition sandboxContext (cfg : Config) : string :=
  if sandbox cfg then "sandbox" else "parent".

(** The properties every object literal inherits from [Object.prototype];
    each of them is a function or an object. *)
Definition objectPrototypeKeys : list string :=
  ["constructor"; "hasOwnProperty"; "isPrototypeOf"; "propertyIsEnumerable";
   "toLocaleString"; "toString"; "valueOf"; "__defineGetter__"; "__defineSetter__";
   "__lookupGetter__"; "__lookupSetter__"; "__proto__"].

(** The truth value of [dependencies[importPath]] for a caller's object
    literal: an own property counts by its value, and a name the object
    does not have is looked up in its prototype. *)
Definition suppliedDependency (deps : Dependencies) (importPath : string) : bool :=
  match assoc importPath deps with
  | Some v => truthy v
  | None => existsb (String.eqb importPath) objectPrototypeKeys
  end.

(** The import paths the resolution effect finds missing, in the order
    [missingDeps.add] first saw them. *)
Definition missingDependencies (codeFiles : list CodeFile) (deps : Dependencies)
    : list string :=
  fold_left (λ acc file,
    fold_left (λ acc m,
      let importPath := default "" (group 1 (m_caps m)) in
      if negb (String.eqb importPath "react") && negb (startsWith importPath ".")
         && negb (startsWith importPath "/")
         && negb (suppliedDependency deps importPath)
      then set_add importPath acc else acc)
      (exec_all importRegex (content file)) acc)
    codeFiles [].

Definition set_loading (b : bool) (s : ExecutorState) : ExecutorState :=
  {| executionResult := executionResult s; resolvedDependencies := resolvedDependencies s;
     isLoading := b; iframeReady := iframeReady s; iframeWindow := iframeWindow s;
     sandboxRoot := sandboxRoot s; prevCodeRef := prevCodeRef s;
     prevDependenciesRef := prevDependenciesRef s;
     prevSandboxContextRef := prevSandboxContextRef s;
     securityPatterns := securityPatterns s; onErrorCalls := onErrorCalls s;
     cdn := cdn s; utils := utils s |}.

Definition set_resolved (d : Dependencies) (s : ExecutorState) : ExecutorState :=
  {| executionResult := executionResult s; resolvedDependencies := d;
     isLoading := isLoading s; iframeReady := iframeReady s; iframeWindow := iframeWindow s;
     sandboxRoot := sandboxRoot s; prevCodeRef := prevCodeRef s;
     prevDependenciesRef := prevDependenciesRef s;
     prevSandboxContextRef := prevSandboxContextRef s;
     securityPatterns := securityPatterns s; onErrorCalls := onErrorCalls s;
     cdn := cdn s; utils := utils s |}.

Definition set_cdn (c : CdnState) (s : ExecutorState) : ExecutorState :=
  {| executionResult := executionResult s; resolvedDependencies := resolvedDependencies s;
     isLoading := isLoading s; iframeReady := iframeReady s; iframeWindow := iframeWindow s;
     sandboxRoot := sandboxRoot s; prevCodeRef := prevCodeRef s;
     prevDependenciesRef := prevDependenciesRef s;
     prevSandboxContextRef := prevSandboxContextRef s;
     securityPatterns := securityPatterns s; onErrorCalls := onErrorCalls s;
     cdn := c; utils := utils s |}.

Definition set_root (r : option (option value)) (s : ExecutorState) : ExecutorState :=
  {| executionResult := executionResult s; resolvedDependencies := resolvedDependencies s;
     isLoading := isLoading s; iframeReady := iframeReady s; iframeWindow := iframeWindow s;
     sandboxRoot := r; prevCodeRef := prevCodeRef s;
     prevDependenciesRef := prevDependenciesRef s;
     prevSandboxContextRef := prevSandboxContextRef s;
     securityPatterns := securityPatterns s; onErrorCalls := onErrorCalls s;
     cdn := cdn s; utils := utils s |}.

Definition set_result (r : ExecutionResult) (s : ExecutorState) : ExecutorState :=
  {| executionResult := r; resolvedDependencies := resolvedDependencies s;
     isLoading := isLoading s; iframeReady := iframeReady s; iframeWindow := iframeWindow s;
     sandboxRoot := sandboxRoot s; prevCodeRef := prevCodeRef s;
     prevDependenciesRef := prevDependenciesRef s;
     prevSandboxContextRef := prevSandboxContextRef s;
     securityPatterns := securityPatterns s; onErrorCalls := onErrorCalls s;
     cdn := cdn s; utils := utils s |}.

Definition call_onError (cfg : Config) (err : value) (s : ExecutorState) : ExecutorState :=
  if onError cfg then
    {| executionResult := executionResult s; resolvedDependencies := resolvedDependencies s;
       isLoading := isLoading s; iframeReady := iframeReady s; iframeWindow := iframeWindow s;
       sandboxRoot := sandboxRoot s; prevCodeRef := prevCodeRef s;
       prevDependenciesRef := prevDependenciesRef s;
       prevSandboxContextRef := prevSandboxContextRef s;
       securityPatterns := securityPatterns s; onErrorCalls := onErrorCalls s ++ [err];
       cdn := cdn s; utils := utils s |}
  else s.

(** [setExecutionResult(result)] with the three [prev...Ref.current]
    assignments that follow it, and the state [executeCode] left. *)
Definition commit (cfg : Config) (code : Code) (r : Executed) (s : ExecutorState)
    : ExecutorState :=
  {| executionResult := result r; resolvedDependencies := resolvedDependencies s;
     isLoading := isLoading s; iframeReady := iframeReady s; iframeWindow := iframeWindow s;
     sandboxRoot := sandboxRoot s; prevCodeRef := Some code;
     prevDependenciesRef := Some (resolvedDependencies s);
     prevSandboxContextRef := Some (sandboxContext cfg);
     securityPatterns := patterns_after r; onErrorCalls := onErrorCalls s;
     cdn := cdn s; utils := utils_after r |}.

(** [renderInSandbox(component)]: the root is created on first use and
    renders the component. *)
Definition renderInSandbox (component : option value) (s : ExecutorState) : ExecutorState :=
  match iframeWindow s with
  | None => s
  | Some _ => set_root (Some component) s
  end.

(** [cleanupSandbox()] *)
Definition cleanupSandbox (s : ExecutorState) : ExecutorState := set_root None s.

Section Component.

Variable parse : string → completion Parsed.
Variable stack : nat.
Variable net : Network.
(** The host's [React]; the sandbox window is given the same object when it
    loads. *)
Variable React : value.

(** The closure a call for [dep] starts when the package is not in the
    cache of the realm: the number its request will have and its promise. *)
Definition startedClosure (dep : string) (targetWindow : option Window) (c : CdnState)
    : list (nat * PromiseId) :=
  match cacheOf c (realmOf targetWindow) !! dep with
  | Some _ => []
  | None => [(length (requests c), length (promises c))]
  end.

(** The [map] of [resolveDependencies()]: every missing package is asked
    for in one turn.  Each callback awaits the promise it got; the closures
    that were started wait for the network. *)
Fixpoint startAll (missing : list string) (targetWindow : option Window) (c : CdnState)
    : list (string * PromiseId) * list (nat * PromiseId) * CdnState :=
  match missing with
  | [] => ([], [], c)
  | dep :: rest =>
      let started := startedClosure dep targetWindow c in
      let '(p, c) := startResolution net dep targetWindow c in
      let '(awaited, waiting, c) := startAll rest targetWindow c in
      ((dep, p) :: awaited, started ++ waiting, c)
  end.

(** The closures resume as the network answers. *)
Definition resumeAll (waiting : list (nat * PromiseId)) (c : CdnState) : CdnState :=
  fold_left (λ c np, resumeResolution net np.2 c) (answerOrder net waiting) c.

(** [results.forEach(...)] after [Promise.all]: a rejection was caught and
    gave [resolved: null]; what was resolved is added to [newDeps]. *)
Definition addResolved (c : CdnState) (awaited : list (string * PromiseId))
    (newDeps : Dependencies) : Dependencies :=
  fold_left (λ newDeps dp,
    match settled c dp.2 with
    | Some (Normal VNull) => newDeps
    | Some (Normal resolved) => assoc_set dp.1 resolved newDeps
    | _ => newDeps
    end) awaited newDeps.

(** [resolveDependencies()] up to the join: [Promise.all] is fulfilled
    when the closures have resumed. *)
Definition resolveAll (missing : list string) (targetWindow : option Window)
    (newDeps : Dependencies) (c : CdnState) : Dependencies * CdnState :=
  let '(awaited, waiting, c) := startAll missing targetWindow c in
  let c := resumeAll waiting c in
  (addResolved c awaited newDeps, c).

(** The effect that resolves missing dependencies.  [hasChanges] is the
    memoised flag the effect reads; [cancelled] tells whether the
    effect's cleanup ran before the resolutions were joined. *)
Definition resolveEffect (cfg : Config) (code : Code) (hasChanges cancelled : bool)
    (s : ExecutorState) : ExecutorState :=
  if negb hasChanges then s
  else if negb (autoResolvePackage cfg) then
    set_loading false (set_resolved (dependencies cfg) s)
  else
    let missingDeps := missingDependencies (codeFilesOf code) (dependencies cfg) in
    match missingDeps with
    | [] => set_loading false (set_resolved (dependencies cfg) s)
    | _ =>
        let targetWindow := if sandbox cfg then iframeWindow s else None in
        if sandbox cfg && (negb (iframeReady s) || negb (is_some targetWindow))
        then set_loading true s
        else
          let '(newDeps, c) := resolveAll missingDeps targetWindow (dependencies cfg) (cdn s) in
          if cancelled then set_cdn c (set_loading true s)
          else set_loading false (set_resolved newDeps (set_cdn c s))
    end.

Definition failed (cfg : Config) (err : value) (s : ExecutorState) : ExecutorState :=
  let s := set_result {| Component := None;
                         error := Some (error_text err);
                         forbiddenPatterns := false |} s in
  if instanceofError err then call_onError cfg err s else s.

(** The [try] block of the execution effect and of the bypass handler, up
    to the assignments of the three refs.  Nothing in it throws:
    [executeCode] returns a result for every input, and the state setters
    do not throw. *)
Definition attempt (cfg : Config) (code : Code) (bypassSecurity : bool)
    (sandboxWindow : option Window) (s : ExecutorState) : completion (Executed * ExecutorState) :=
  let r := executeCode parse stack code (resolvedDependencies s) (securityPatterns s)
             bypassSecurity (autoResolvePackage cfg) React sandboxWindow (utils s) in
  Normal (r, commit cfg code r s).

(** The effect that executes the code. *)
Definition executeEffect (cfg : Config) (code : Code) (hasChanges : bool)
    (s : ExecutorState) : ExecutorState :=
  if negb hasChanges || isLoading s then s
  else if sandbox cfg then
    match iframeReady s, iframeWindow s with
    | true, Some sandboxWindow =>
        match attempt cfg code false (Some sandboxWindow) s with
        | Normal (r, s') =>
            match Component (result r) with
            | Some C => renderInSandbox (Some C) s'
            | None => cleanupSandbox s'
            end
        | Throw err => failed cfg err (cleanupSandbox s)
        end
    | _, _ => s
    end
  else
    match attempt cfg code false None s with
    | Normal (_, s') => s'
    | Throw err => failed cfg err s
    end.

(** [handleBypassSecurity] *)
Definition handleBypassSecurity (cfg : Config) (code : Code) (s : ExecutorState)
    : ExecutorState :=
  let targetWindow := if sandbox cfg then iframeWindow s else None in
  match attempt cfg code true targetWindow s with
  | Normal (r, s') =>
      if sandbox cfg && is_some (Component (result r))
      then renderInSandbox (Component (result r)) s'
      else s'
  | Throw err => failed cfg err s
  end.


(** One run of the pipeline on changed input: the resolution effect
    settles, then the execution effect runs. *)
Definition pipelineRun (cfg : Config) (code : Code) (s : ExecutorState) : ExecutorState :=
  executeEffect cfg code true (resolveEffect cfg code true false s).

End Component.

(** ** Worked inputs *)

(** The names the import declarations of a program bind. *)
Definition importedNames (program : list Statement) : list string :=
  flat_map (λ s,
    match s with
    | ImportDeclaration _ specifiers => map local_name specifiers
    | _ => []
    end) program.

(** A parser restricted to given texts: on a listed text it answers what
    Babel answers, elsewhere it reports a syntax error (without the
    position and the code frame of Babel's message).  In the listed texts
    every imported name is used as a value. *)
Definition parseTable (table : list (string * list Statement)) (text : string)
    : completion Parsed :=
  match assoc text table with
  | Some program => Normal {| body := program; valueReferences := importedNames program |}
  | None => Throw (VError "unknown: Unexpected token")
  end.

(** A statement that binds [x] to a function, as [function x() { ... }]
    and [const x = () => ...] do. *)
Definition bindsFunction (x : string) : Statement :=
  UserStatement (λ sc, Ret (declare x (VFunction x []) sc)).

Definition hostReact : value :=
  VObject [("useState", VFunction "useState" []);
           ("createElement", VFunction "createElement" [])].

Definition leftPadSource : string :=
  "import leftPad from 'left-pad'; export default function App() { return leftPad('a', 3); }".

Definition leftPadParse : string → completion Parsed :=
  parseTable
    [("import leftPad from 'left-pad'; function App() { return leftPad('a', 3); }",
      [ImportDeclaration "left-pad" [ImportDefaultSpecifier "leftPad"];
       bindsFunction "App"])].

(** A file that imports the package for a type only. *)
Definition typeOnlySource : string :=
  "import { Options } from 'left-pad'; export default function App() { const o: Options | null = null; return null; }".

Definition typeOnlyParse : string → completion Parsed :=
  λ text,
    if String.eqb text
         "import { Options } from 'left-pad'; function App() { const o: Options | null = null; return null; }"
    then Normal {| body := [ImportDeclaration "left-pad" [ImportSpecifier "Options" "Options"];
                            bindsFunction "App"];
                   valueReferences := [] |}
    else Throw (VError "unknown: Unexpected token").

(** A network on which every request fails. *)
Definition offline : Network :=
  {| dynamicImport := λ _ url, Throw (VError ("Failed to fetch dynamically imported module: " +:+ url));
     scriptImport := λ _ _ _, LoadError "";
     answerTime := λ n, n |}.

Definition inlineConfig (auto : bool) : Config :=
  {| dependencies := []; onError := true; autoResolvePackage := auto; sandbox := false |}.

Definition emptyUtils : UtilsState := {| moduleCache := []; console := [] |}.

(** Scenario A: one file with a default-exported function. *)
Definition helloSource : string := "export default function X(){ return <div/>; }".

Definition helloParse : string → completion Parsed :=
  parseTable [("function X(){ return <div/>; }", [bindsFunction "X"])].

(** Scenario B: an entry file importing a named export of a second file. *)
Definition greetingFiles : list CodeFile :=
  [ {| name := "App.tsx";
       content := "import { Greeting } from './Greeting'; export default function App() { return <Greeting />; }";
       isEntry := Some true |};
    {| name := "Greeting.tsx";
       content := "export const Greeting = () => <p>Hello</p>;";
       isEntry := None |} ].

Definition greetingParse : string → completion Parsed :=
  parseTable
    [ ("import { Greeting } from './Greeting'; function App() { return <Greeting />; }",
       [ImportDeclaration "./Greeting" [ImportSpecifier "Greeting" "Greeting"];
        bindsFunction "App"]);
      ("const Greeting = () => <p>Hello</p>;", [bindsFunction "Greeting"]) ].

(** Two package names with one sanitized form. *)
Definition collidingDependencies : Dependencies :=
  [("foo-bar", VObject []); ("foo.bar", VObject [])].

(** A caller's pattern with the [g] flag, and a text it matches. *)
Definition evalGlobal : RegExp :=
  {| re_text := "/eval\(/g"; re_ast := lit "eval("; re_ignoreCase := false;
     re_global := true; re_sticky := false; lastIndex := 0 |}.

Definition evalSource : string := "eval('1')".

Definition evalParse : string → completion Parsed :=
  parseTable [(evalSource, [UserStatement (λ sc, Ret sc)])].



(** ** More of [src/utils/cdn-resolver.ts] *)

(** [preloadPackage]: [await resolvePackageFromCDN(packageName, targetWindow)]
    with the value dropped.  [None] is an [await] that never resumes. *)
Definition preloadPackage (net : Network) (packageName : string)
    (targetWindow : option Window) (st : CdnState)
    : option (completion unit) * CdnState :=
  let '(p, st) := resolvePackageFromCDN net packageName targetWindow st in
  (match settled st p with
   | Some (Normal _) => Some (Normal tt)
   | Some (Throw e) => Some (Throw e)
   | None => None
   end, st).

(** The shape of a request log: one block per run of the closure, the
    esm.sh URL alone when that import succeeded, followed by the jsDelivr
    URL of the same package in the same realm when it failed. *)
Inductive sequenced (net : Network) : list Request → Prop :=
| sequenced_nil : sequenced net []
| sequenced_primary l pkg tw m :
    sequenced net l →
    importOutcome net (length l) (cdnUrl pkg) tw = Normal m →
    sequenced net (l ++ [ {| req_realm := realmOf tw; req_url := cdnUrl pkg |} ])
| sequenced_fallback l pkg tw e :
    sequenced net l →
    importOutcome net (length l) (cdnUrl pkg) tw = Throw e →
    sequenced net (l ++ [ {| req_realm := realmOf tw; req_url := cdnUrl pkg |};
                          {| req_realm := realmOf tw; req_url := fallbackUrl pkg |} ]).

(** The two imports a resolution can ask for. *)
Definition primaryRequest (targetWindow : option Window) (packageName : string) : Request :=
  {| req_realm := realmOf targetWindow; req_url := cdnUrl packageName |}.

Definition fallbackRequest (targetWindow : option Window) (packageName : string) : Request :=
  {| req_realm := realmOf targetWindow; req_url := fallbackUrl packageName |}.

(** The shape of an import log when calls overlap: every entry is the
    esm.sh import of a package, or the jsDelivr import of a package whose
    esm.sh import, for the same window, is an earlier entry and failed. *)
Definition accounted (net : Network) (log : list Request) : Prop :=
  ∀ i r, log !! i = Some r →
    (∃ pkg tw, r = primaryRequest tw pkg) ∨
    (∃ pkg tw j e, j < i ∧ log !! j = Some (primaryRequest tw pkg) ∧
                   importOutcome net j (cdnUrl pkg) tw = Throw e ∧
                   r = fallbackRequest tw pkg).

(** Invariant of the pending promises: the import a closure waits for is
    in the log, and the network ends it as the promise says. *)
Definition pending_sound (net : Network) (st : CdnState) : Prop :=
  ∀ p pkg tw o, promises st !! p = Some (Pending pkg tw o) →
    ∃ j, requests st !! j = Some (primaryRequest tw pkg) ∧
         importOutcome net j (cdnUrl pkg) tw = o.

(** The imports from jsDelivr that the closures [l] ask for when they
    resume in state [c]. *)
Definition fallbacksOf (c : CdnState) (l : list (nat * PromiseId)) : list Request :=
  flat_map (λ np,
    match promises c !! np.2 with
    | Some (Pending packageName targetWindow (Throw _)) =>
        [fallbackRequest targetWindow packageName]
    | _ => []
    end) l.

(** Of the packages whose closures start at request [n], one after the
    other, those whose import from esm.sh fails. *)
Fixpoint failedPrimary (net : Network) (targetWindow : option Window) (n : nat)
    (started : list string) : list string :=
  match started with
  | [] => []
  | dep :: rest =>
      match importOutcome net n (cdnUrl dep) targetWindow with
      | Throw _ => dep :: failedPrimary net targetWindow (S n) rest
      | Normal _ => failedPrimary net targetWindow (S n) rest
      end
  end.

(** Invariant of the promise store: a resolution promise settles as one
    run of the closure ends, and an adopting promise adopts a resolution
    promise of the store. *)
Definition promises_sound (net : Network) (st : CdnState) : Prop :=
  (∀ p k tw o, promises st !! p = Some (Resolution k tw o) →
     ∃ n, o = (fetchSequence net n k tw).1) ∧
  (∀ p q, promises st !! p = Some (Adopted q) →
     ∃ k tw o, promises st !! q = Some (Resolution k tw o)).

(** A network on which the registries answer with a module. *)
Definition online : Network :=
  {| dynamicImport := λ _ url, Normal (VObject [("default", VFunction url [])]);
     scriptImport := λ _ _ url, Loaded (VObject [("default", VFunction url [])]);
     answerTime := λ n, n |}.

(** ** More of the generated factory *)

(** Every entry of the registry [c] is an entry of [c']. *)
Definition cache_le (c c' : list (string * value)) : Prop :=
  ∀ k v, assoc k c = Some v → assoc k c' = Some v.

(** The value [typeof x] looks at: the module's own binding, else the
    factory's, else nothing. *)
Definition typeofOperand (outer : string → completion value) (x : string)
    (sc : ModuleScope) : value :=
  match assoc x (bindings sc) with
  | Some v => v
  | None => match outer x with Normal v => v | Throw _ => VUndefined end
  end.

(** A file with a default export and a named one, and a file with a named
    export only. *)
Definition mixedFiles : list CodeFile :=
  [ {| name := "App.tsx";
       content := "export const helper = () => 1; export default function App() { return null; }";
       isEntry := Some true |} ].

Definition mixedParse : string → completion Parsed :=
  parseTable [("const helper = () => 1; function App() { return null; }",
               [bindsFunction "helper"; bindsFunction "App"])].

Definition namedFiles : list CodeFile :=
  [ {| name := "helpers.ts"; content := "export const helper = () => 1;"; isEntry := None |} ].

Definition namedParse : string → completion Parsed :=
  parseTable [("const helper = () => 1;", [bindsFunction "helper"])].

(** The first module definition of the factory text made from [files]. *)
Definition firstDefinition (parse : string → completion Parsed)
    (files : list CodeFile) : ModuleDefinition :=
  match (transformMultipleFiles parse files [] true emptyUtils).1 with
  | Normal {| moduleDefinitions := d :: _ |} => d
  | _ => {| normalizedName := ""; def_code := []; exportsSetup := [] |}
  end.

(** A registry without modules and a factory scope without variables. *)
Definition noModules (name0 : string) (cache : list (string * value))
    : completion value * list (string * value) :=
  getModule 0 [] (readOuter []) name0 cache.

(** ** Sanitized names, character by character *)

Definition safe_char (c : ascii) : bool := in_ranges false c alnum_.

Definition sanitize (c : ascii) : ascii := if safe_char c then c else "_"%char.

Fixpoint map_chars (f : ascii → ascii) (s : string) : string :=
  match s with
  | EmptyString => EmptyString
  | String c s' => String (f c) (map_chars f s')
  end.

Fixpoint all_chars (P : ascii → bool) (s : string) : bool :=
  match s with
  | EmptyString => true
  | String c s' => P c && all_chars P s'
  end.

(** ** Literals as string tests *)

(** [w] is a prefix of [s], characters compared as the matcher compares
    them ([ci]: ignoring letter case). *)
Fixpoint prefix_ci (ci : bool) (w s : string) : bool :=
  match w, s with
  | EmptyString, _ => true
  | String c w', String a s' => chr_eq ci a c && prefix_ci ci w' s'
  | String _ _, EmptyString => false
  end.

(** [w] occurs in [s]. *)
Fixpoint contains (ci : bool) (s w : string) : bool :=
  prefix_ci ci w s ||
  match s with
  | EmptyString => false
  | String _ s' => contains ci s' w
  end.

(** The phrases of [defaultSecurityPatterns]. *)
Definition forbiddenPhrases : list string :=
  ["document.cookie"; "window.document.cookie"; "eval("; "Function(";
   "document.write"; "document.location"].

Definition extensions : list string := ["js"; "jsx"; "ts"; "tsx"].

(** [s] ends in a dot and one of the four extensions. *)
Fixpoint hasExtension (s : string) : bool :=
  match s with
  | EmptyString => false
  | String c r => (Ascii.eqb c "." && existsb (String.eqb r) extensions) || hasExtension r
  end.

Definition dropDotSlash (s : string) : string :=
  if startsWith s "./" then drop_str 2 s else s.

Definition not_dot (c : ascii) : bool := negb (Ascii.eqb c ".").

(** ** The import rewriter, more closely *)

(** A [dependencyVarMap] that maps every key to its sanitized form, as the
    rewriter keeps it. *)
Definition canonical (dependencyVarMap : list (string * string)) : Prop :=
  ∀ k v, assoc k dependencyVarMap = Some v → v = safeName k.

Definition is_user (s : Statement) : bool :=
  match s with UserStatement _ => true | _ => false end.

(** An import declaration without specifiers, [import 'x';]. *)
Definition is_bare_import (s : Statement) : bool :=
  match s with ImportDeclaration _ [] => true | _ => false end.

(** The module names the rewriter hands to [getModule]. *)
Fixpoint getModuleArgument (e : Expr) : list string :=
  match e with
  | Identifier _ => []
  | MemberExpression object _ => getModuleArgument object
  | CallGetModule arg => [arg]
  end.

Definition getModuleArguments (s : Statement) : list string :=
  match s with
  | VariableDeclaration _ init => getModuleArgument init
  | _ => []
  end.

(** What an import declaration is replaced by when the visitor returns:
    the bindings depend on the source and on the file set only. *)
Definition rewrittenImport (localModules : list CodeFile) (source : string)
    (specifiers : list Specifier) : list Statement :=
  match specifiers with
  | [] => [ImportDeclaration source []]
  | _ =>
    if String.eqb source "react" then reactBindings specifiers
    else if is_some (assoc (normalizeFilename source) (normalizedModulePaths localModules))
    then localBindings (normalizeFilename source) specifiers
    else externalBindings (safeName source) specifiers
  end.

Definition rewriteProgram (localModules : list CodeFile) (program : list Statement)
    : list Statement :=
  flat_map (λ s,
    match s with
    | ImportDeclaration source specifiers => rewrittenImport localModules source specifiers
    | _ => [s]
    end) program.

(** Scenario B, transformed. *)
Definition greetingTransformed : completion FactorySource * UtilsState :=
  transformMultipleFiles greetingParse greetingFiles [] true emptyUtils.

Definition greetingFactory : FactorySource :=
  match greetingTransformed.1 with
  | Normal src => src
  | Throw _ => {| dependencyVars := []; moduleDefinitions := []; entryModuleName := "" |}
  end.



Definition stylesSource : string :=
  "import './styles.css'; export default function App() { return null; }".

Definition stylesParse : string → completion Parsed :=
  parseTable [("import './styles.css'; function App() { return null; }",
               [ImportDeclaration "./styles.css" []; bindsFunction "App"])].

(** ** More of [src/index.tsx] *)

(** The test inside [prevCode.some(...)]: some field of the two files is
    not strictly equal. *)
Definition fileDiffers (file newFile : CodeFile) : bool :=
  negb (String.eqb (name file) (name newFile))
  || negb (String.eqb (content file) (content newFile))
  || negb (bool_decide (isEntry file = isEntry newFile)).

(** [isCodeDifferent(prevCode, newCode)]; [None] is [undefined].  The empty
    string is falsy, the empty array is not. *)
Definition isCodeDifferent (prevCode : option Code) (newCode : Code) : bool :=
  match prevCode with
  | None => true
  | Some (Source EmptyString) => true
  | Some (Source prev) =>
      match newCode with
      | Source new => negb (String.eqb prev new)
      | Files _ => true
      end
  | Some (Files prev) =>
      match newCode with
      | Files new =>
          if negb (length prev =? length new) then true
          else existsb (λ pair, fileDiffers pair.1 pair.2) (combine prev new)
      | Source _ => true
      end
  end.

(** The import paths the resolution effect reads off a text: the first
    group of every match of its literal. *)
Definition importPaths (text : string) : list string :=
  map (λ m, default "" (group 1 (m_caps m))) (exec_all importRegex text).

(** The test of the resolution effect on an import path. *)
Definition isMissing (deps : Dependencies) (importPath : string) : bool :=
  negb (String.eqb importPath "react") && negb (startsWith importPath ".")
  && negb (startsWith importPath "/")
  && negb (suppliedDependency deps importPath).

(** Two files that import each other. *)
Definition cycleFiles : list CodeFile :=
  [ {| name := "A.tsx";
       content := "import { b } from './B'; export const a = () => b;";
       isEntry := Some true |};
    {| name := "B.tsx";
       content := "import { a } from './A'; export const b = () => a;";
       isEntry := None |} ].

Definition cycleParse : string → completion Parsed :=
  parseTable
    [ ("import { b } from './B'; const a = () => b;",
       [ImportDeclaration "./B" [ImportSpecifier "b" "b"]; bindsFunction "a"]);
      ("import { a } from './A'; const b = () => a;",
       [ImportDeclaration "./A" [ImportSpecifier "a" "a"]; bindsFunction "b"]) ].

Definition cycleFactory : FactorySource :=
  match (transformMultipleFiles cycleParse cycleFiles [] true emptyUtils).1 with
  | Normal src => src
  | Throw _ => {| dependencyVars := []; moduleDefinitions := []; entryModuleName := "" |}
  end.




(** * Properties *)

(** ** Facts about strings *)

Lemma prefixb_app (m b : string) : prefixb m (m +:+ b) = true.
Proof.
  induction m as [|c m IH]; simpl; [done|].
  by rewrite Ascii.eqb_refl.
Qed.

Lemma includes_prefix (s m : string) : prefixb m s = true → includes s m = true.
Proof. intros H. destruct s; simpl; rewrite H; done. Qed.

Lemma includes_app (a m b : string) : includes (a +:+ m +:+ b) m = true.
Proof.
  induction a as [|c a IH]; simpl.
  - change ("" +:+ m +:+ b) with (m +:+ b). apply includes_prefix, prefixb_app.
  - change (String c a +:+ m +:+ b) with (String c (a +:+ m +:+ b)).
    simpl. rewrite IH. apply orb_true_r.
Qed.

Lemma string_app_length (a b : string) :
  String.length (a +:+ b) = String.length a + String.length b.
Proof. induction a; simpl; auto. Qed.

Lemma string_app_inj_r (a b s : string) : a +:+ s = b +:+ s → a = b.
Proof.
  revert b. induction a as [|c a IH]; intros [|d b] H; try done.
  - apply (f_equal String.length) in H.
    change (String d b +:+ s) with (String d (b +:+ s)) in H.
    change ("" +:+ s) with s in H.
    cbn [String.length] in H. rewrite string_app_length in H. lia.
  - apply (f_equal String.length) in H.
    change (String c a +:+ s) with (String c (a +:+ s)) in H.
    change ("" +:+ s) with s in H.
    cbn [String.length] in H. rewrite string_app_length in H. lia.
  - change (String c (a +:+ s) = String d (b +:+ s)) in H.
    injection H as -> H. f_equal. by apply IH.
Qed.

Lemma cdnUrl_inj (a b : string) : cdnUrl a = cdnUrl b → a = b.
Proof.
  unfold cdnUrl. intros H. apply String.app_inj in H. by apply string_app_inj_r in H.
Qed.

Lemma fallbackUrl_inj (a b : string) : fallbackUrl a = fallbackUrl b → a = b.
Proof.
  unfold fallbackUrl. intros H. apply String.app_inj in H. by apply string_app_inj_r in H.
Qed.

Lemma cdnUrl_fallbackUrl (a b : string) : cdnUrl a ≠ fallbackUrl b.
Proof. unfold cdnUrl, fallbackUrl. simpl. discriminate. Qed.

Lemma includes_app_r (a s m : string) : includes s m = true → includes (a +:+ s) m = true.
Proof.
  intros H. induction a as [|c a IH]; [done|].
  change (String c a +:+ s) with (String c (a +:+ s)). simpl. rewrite IH. apply orb_true_r.
Qed.

Lemma prefixb_refl (m : string) : prefixb m m = true.
Proof. induction m; simpl; [done|]. by rewrite Ascii.eqb_refl. Qed.

Lemma includes_refl (m : string) : includes m m = true.
Proof. apply includes_prefix, prefixb_refl. Qed.

Lemma includes_app_l (m b : string) : includes (m +:+ b) m = true.
Proof. apply includes_prefix, prefixb_app. Qed.

(** ** The resolver and its caches *)

Lemma getCache_promises tw st : promises (getCache tw st).2 = promises st.
Proof. destruct tw as [[|n]|]; simpl; try done. by destruct (SANDBOX_CDN_CACHE st !! Frame n). Qed.

Lemma getCache_requests tw st : requests (getCache tw st).2 = requests st.
Proof. destruct tw as [[|n]|]; simpl; try done. by destruct (SANDBOX_CDN_CACHE st !! Frame n). Qed.

Lemma getCache_cacheOf tw st r : cacheOf (getCache tw st).2 r = cacheOf st r.
Proof.
  destruct tw as [[|n]|]; simpl; try done.
  destruct (SANDBOX_CDN_CACHE st !! Frame n) eqn:E; [done|].
  destruct r as [|k]; simpl; [done|].
  destruct (decide (n = k)) as [->|Hne].
  - by rewrite lookup_insert_eq, E.
  - rewrite lookup_insert_ne; [done|congruence].
Qed.

Lemma cache_get_cacheOf tw st k :
  cache_get (getCache tw st).1 k (getCache tw st).2 = cacheOf st (realmOf tw) !! k.
Proof.
  rewrite <- (getCache_cacheOf tw st (realmOf tw)).
  destruct tw as [[|n]|]; simpl; try done.
  destruct (SANDBOX_CDN_CACHE st !! Frame n) eqn:E; simpl.
  - by rewrite E.
  - by rewrite lookup_insert_eq.
Qed.

Lemma cache_set_cacheOf tw st0 k p st r :
  cacheOf (cache_set (getCache tw st0).1 k p st) r
  = if decide (r = realmOf tw) then <[k := p]> (cacheOf st r) else cacheOf st r.
Proof.
  destruct tw as [[|n]|], r as [|m]; simpl; try done.
  destruct (decide (Frame m = Frame n)) as [Hd|Hd].
  - injection Hd as ->. by rewrite lookup_insert_eq.
  - rewrite lookup_insert_ne; [done|congruence].
Qed.

Lemma cache_set_promises c k p st : promises (cache_set c k p st) = promises st.
Proof. by destruct c. Qed.

Lemma cache_set_requests c k p st : requests (cache_set c k p st) = requests st.
Proof. by destruct c. Qed.

Lemma resolveClosure_spec net pkg tw st :
  let fs := fetchSequence net (length (requests st)) pkg tw in
  (resolveClosure net pkg tw st).1 = fs.1 ∧
  requests (resolveClosure net pkg tw st).2 = requests st ++ fs.2 ∧
  promises (resolveClosure net pkg tw st).2 = promises st ∧
  GLOBAL_CDN_CACHE (resolveClosure net pkg tw st).2 = GLOBAL_CDN_CACHE st ∧
  SANDBOX_CDN_CACHE (resolveClosure net pkg tw st).2 = SANDBOX_CDN_CACHE st.
Proof.
  unfold resolveClosure, fetchSequence, importModuleFromUrl; simpl.
  destruct (importOutcome net (length (requests st)) (cdnUrl pkg) tw); simpl; [done|].
  rewrite length_app; simpl. replace (length (requests st) + 1) with (S (length (requests st))) by lia.
  destruct (importOutcome net (S (length (requests st))) (fallbackUrl pkg) tw); simpl;
    by rewrite <- app_assoc.
Qed.

Lemma resolveClosure_cacheOf net pkg tw st r :
  cacheOf (resolveClosure net pkg tw st).2 r = cacheOf st r.
Proof.
  destruct (resolveClosure_spec net pkg tw st) as (_ & _ & _ & Hg & Hs).
  unfold cacheOf. by rewrite Hg, Hs.
Qed.

(** What a call of [resolvePackageFromCDN] does, by the state of the cache
    of its realm. *)
Lemma resolve_hit net pkg tw st c :
  cacheOf st (realmOf tw) !! pkg = Some c →
  let r := resolvePackageFromCDN net pkg tw st in
  r.1 = length (promises st) ∧
  promises r.2 = promises st ++ [Adopted c] ∧
  requests r.2 = requests st ∧
  ∀ w, cacheOf r.2 w = cacheOf st w.
Proof.
  intros Hc. unfold resolvePackageFromCDN.
  pose proof (cache_get_cacheOf tw st pkg) as Hg.
  pose proof (getCache_promises tw st) as Hp.
  pose proof (getCache_requests tw st) as Hr.
  pose proof (getCache_cacheOf tw st) as Hw.
  destruct (getCache tw st) as [cache st0]; simpl in *.
  rewrite Hg, Hc. simpl. rewrite Hp, Hr. repeat split; try done.
Qed.

Lemma resolve_miss net pkg tw st :
  cacheOf st (realmOf tw) !! pkg = None →
  let r := resolvePackageFromCDN net pkg tw st in
  let n := length (promises st) in
  let fs := fetchSequence net (length (requests st)) pkg tw in
  r.1 = S n ∧
  promises r.2 = promises st ++ [Resolution pkg tw fs.1; Adopted n] ∧
  requests r.2 = requests st ++ fs.2 ∧
  ∀ w, cacheOf r.2 w
       = if decide (w = realmOf tw) then <[pkg := n]> (cacheOf st w) else cacheOf st w.
Proof.
  intros Hc. unfold resolvePackageFromCDN.
  pose proof (cache_get_cacheOf tw st pkg) as Hg.
  pose proof (getCache_promises tw st) as Hp.
  pose proof (getCache_requests tw st) as Hr.
  pose proof (getCache_cacheOf tw st) as Hw.
  pose proof (λ k p s r, cache_set_cacheOf tw st k p s r) as Hs.
  destruct (getCache tw st) as [cache st0]; simpl in *.
  rewrite Hg, Hc.
  pose proof (resolveClosure_spec net pkg tw st0) as (H1 & H2 & H3 & H4 & H5).
  pose proof (resolveClosure_cacheOf net pkg tw st0) as H6.
  destruct (resolveClosure net pkg tw st0) as [outcome st1]; simpl in *.
  rewrite Hr in *. rewrite H3, Hp, H1, H2.
  rewrite cache_set_promises, cache_set_requests. simpl.
  repeat split; try done.
  - rewrite length_app; simpl; lia.
  - by rewrite <- app_assoc.
  - intros w. specialize (Hs pkg (length (promises st)) 
      {| GLOBAL_CDN_CACHE := GLOBAL_CDN_CACHE st1; SANDBOX_CDN_CACHE := SANDBOX_CDN_CACHE st1;
         promises := promises st ++ [Resolution pkg tw (fetchSequence net (length (requests st)) pkg tw).1];
         requests := requests st ++ (fetchSequence net (length (requests st)) pkg tw).2 |} w).
    etrans; [|etrans; [exact Hs|]].
    + destruct cache; done.
    + assert (∀ a b, cacheOf {| GLOBAL_CDN_CACHE := GLOBAL_CDN_CACHE st1;
          SANDBOX_CDN_CACHE := SANDBOX_CDN_CACHE st1; promises := a; requests := b |} w
          = cacheOf st w) as ->; [|done].
      intros a b. rewrite <- Hw, <- H6. by destruct w.
Qed.

Lemma cache_sound_empty : cache_sound emptyCdn.
Proof. intros [|n] k p; simpl; by rewrite ?lookup_empty. Qed.

Lemma cache_sound_resolve net pkg tw st :
  cache_sound st → cache_sound (resolvePackageFromCDN net pkg tw st).2.
Proof.
  intros Hs r k p.
  destruct (cacheOf st (realmOf tw) !! pkg) as [c|] eqn:Hc.
  - destruct (resolve_hit net pkg tw st c Hc) as (_ & Hp & _ & Hw).
    rewrite Hw, Hp. intros H. destruct (Hs r k p H) as (tw' & o & Hl & Hr).
    exists tw', o. split; [|done]. by apply lookup_app_l_Some.
  - destruct (resolve_miss net pkg tw st Hc) as (_ & Hp & _ & Hw).
    rewrite Hw, Hp. case_decide as Hd.
    + subst r. destruct (decide (k = pkg)) as [->|Hk].
      * rewrite lookup_insert_eq. intros [= <-].
        eexists tw, _. split; [|done].
        rewrite lookup_app_r by lia. by rewrite Nat.sub_diag.
      * rewrite lookup_insert_ne by done. intros H.
        destruct (Hs _ k p H) as (tw' & o & Hl & Hr).
        exists tw', o. split; [|done]. by apply lookup_app_l_Some.
    + intros H. destruct (Hs r k p H) as (tw' & o & Hl & Hr).
      exists tw', o. split; [|done]. by apply lookup_app_l_Some.
Qed.

Lemma cache_sound_step net st c : cache_sound st → cache_sound (cdn_step net st c).
Proof.
  destruct c as [pkg tw|]; simpl.
  - apply cache_sound_resolve.
  - intros _ [|n] k p; simpl; by rewrite ?lookup_empty.
Qed.

Lemma cache_sound_run net calls : cache_sound (cdn_run net calls).
Proof.
  unfold cdn_run. generalize cache_sound_empty. generalize emptyCdn.
  induction calls as [|c calls IH]; intros st Hs; simpl; [done|].
  by apply IH, cache_sound_step.
Qed.

(** What a request returns is a fresh promise adopting the promise cached
    for its package in its realm. *)
Lemma resolve_returns net pkg tw st :
  cache_sound st →
  let r := resolvePackageFromCDN net pkg tw st in
  ∃ c tw' o,
    promises r.2 !! r.1 = Some (Adopted c) ∧
    cacheOf r.2 (realmOf tw) !! pkg = Some c ∧
    promises r.2 !! c = Some (Resolution pkg tw' o) ∧
    realmOf tw' = realmOf tw.
Proof.
  intros Hs r.
  pose proof (cache_sound_resolve net pkg tw st Hs) as Hs'. fold r in Hs'.
  assert (∃ c, promises r.2 !! r.1 = Some (Adopted c) ∧
               cacheOf r.2 (realmOf tw) !! pkg = Some c) as (c & Ha & Hc).
  { subst r. destruct (cacheOf st (realmOf tw) !! pkg) as [c|] eqn:Hc.
    - destruct (resolve_hit net pkg tw st c Hc) as (-> & -> & _ & Hw).
      exists c. rewrite Hw. split; [|done].
      rewrite lookup_app_r by lia. by rewrite Nat.sub_diag.
    - destruct (resolve_miss net pkg tw st Hc) as (-> & -> & _ & Hw).
      exists (length (promises st)). rewrite Hw, decide_True by done.
      rewrite lookup_insert_eq. split; [|done].
      rewrite lookup_app_r by lia.
      replace (S (length (promises st)) - length (promises st)) with 1 by lia. done. }
  destruct (Hs' _ _ _ Hc) as (tw' & o & Hl & Hr).
  by exists c, tw', o.
Qed.

(** C4.  After any sequence of resolutions and cache clears, the caches of
    two distinct realms (the host and a sandbox window, or two sandbox
    windows) hold no promise in common, and a request made against one realm
    returns a promise that adopts a resolution made for that realm, one that
    no other realm's cache holds. *)
Theorem realm_caches_disjoint (net : Network) (calls : list CdnCall) :
  let st := cdn_run net calls in
  (∀ r1 r2 k1 k2 p1 p2,
     r1 ≠ r2 → cacheOf st r1 !! k1 = Some p1 → cacheOf st r2 !! k2 = Some p2 → p1 ≠ p2) ∧
  (∀ pkg tw,
     let r := resolvePackageFromCDN net pkg tw st in
     ∃ c tw' o,
       promises r.2 !! r.1 = Some (Adopted c) ∧
       promises r.2 !! c = Some (Resolution pkg tw' o) ∧
       realmOf tw' = realmOf tw ∧
       ∀ other k, other ≠ realmOf tw → cacheOf st other !! k ≠ Some c).
Proof.
  intros st. pose proof (cache_sound_run net calls) as Hs. fold st in Hs. split.
  - intros r1 r2 k1 k2 p1 p2 Hne H1 H2 ->.
    destruct (Hs _ _ _ H1) as (tw1 & o1 & Hl1 & Hr1).
    destruct (Hs _ _ _ H2) as (tw2 & o2 & Hl2 & Hr2).
    rewrite Hl1 in Hl2. injection Hl2 as _ -> _. congruence.
  - intros pkg tw r.
    destruct (resolve_returns net pkg tw st Hs) as (c & tw' & o & Ha & Hc & Hl & Hr).
    fold r in Ha, Hc, Hl. exists c, tw', o. repeat split; try done.
    intros other k Hne Hk.
    destruct (Hs _ _ _ Hk) as (tw2 & o2 & Hl2 & Hr2).
    assert (promises r.2 !! c = Some (Resolution k tw2 o2)) as Hl3.
    { subst r. destruct (cacheOf st (realmOf tw) !! pkg) as [c0|] eqn:Hc0.
      - destruct (resolve_hit net pkg tw st c0 Hc0) as (_ & -> & _ & _).
        by apply lookup_app_l_Some.
      - destruct (resolve_miss net pkg tw st Hc0) as (_ & -> & _ & _).
        by apply lookup_app_l_Some. }
    rewrite Hl in Hl3. injection Hl3 as _ -> _. congruence.
Qed.

(** *** Request coalescing *)

Lemma count_in_app realm url l1 l2 :
  count_in realm url (l1 ++ l2) = count_in realm url l1 + count_in realm url l2.
Proof. unfold count_in. by rewrite filter_app, length_app. Qed.









(** ** The import rewriter with auto-resolution off *)

Lemma eqb_false_ne (a b : string) : a ≠ b → String.eqb a b = false.
Proof. intros H. by apply String.eqb_neq. Qed.

Lemma existsb_eqb_false (x : string) (l : list string) :
  x ∉ l → existsb (String.eqb x) l = false.
Proof.
  induction l as [|y l IH]; intros H; simpl; [done|].
  rewrite not_elem_of_cons in H. destruct H as [Hne Hl].
  by rewrite eqb_false_ne, IH.
Qed.

Lemma moduleNotFound_names (source : string) :
  includes (error_text (moduleNotFound source)) source = true.
Proof. unfold moduleNotFound, error_text. apply includes_app. Qed.

Lemma visit_unresolved files deps ei source specifiers dvm :
  specifiers ≠ [] → unresolvedImport files deps source →
  visitImportDeclaration (keys deps) files ei false source specifiers dvm
  = Throw (moduleNotFound source).
Proof.
  intros Hs (Hr & Hl & Hd). unfold visitImportDeclaration.
  destruct specifiers as [|sp specifiers]; [done|].
  rewrite (eqb_false_ne _ _ Hr), Hl, (existsb_eqb_false _ _ Hd). done.
Qed.

Lemma visit_throw_inv files deps ei source specifiers dvm e :
  visitImportDeclaration (keys deps) files ei false source specifiers dvm = Throw e →
  e = moduleNotFound source ∧ unresolvedImport files deps source.
Proof.
  unfold visitImportDeclaration, unresolvedImport.
  destruct specifiers as [|sp specifiers]; [done|].
  destruct (String.eqb_spec source "react") as [->|Hr]; [done|].
  destruct (assoc (normalizeFilename source) (normalizedModulePaths files)) eqn:Hl; simpl; [done|].
  destruct (existsb (String.eqb source) (keys deps)) eqn:Hd; simpl; [done|].
  intros [= <-]. split_and!; try done.
  intros Hin. assert (existsb (String.eqb source) (keys deps) = true); [|congruence].
  apply existsb_exists. exists source. split; [by apply list_elem_of_In|apply String.eqb_refl].
Qed.

Section Unresolved.
Variable parse : string → completion Parsed.
Variables (files : list CodeFile) (deps : Dependencies) (ei : list (string * ExportInfo)).

Lemma traverse_throw_inv program dvm e :
  traverse (visitImportDeclaration (keys deps) files ei false) program dvm = Throw e →
  ∃ source, e = moduleNotFound source ∧ unresolvedImport files deps source.
Proof.
  revert dvm. induction program as [|s program IH]; intros dvm; simpl; [done|].
  destruct s as [source specifiers|local init|run]; simpl.
  - destruct (visitImportDeclaration (keys deps) files ei false source specifiers dvm) as [v|e'] eqn:Hv; simpl.
    + destruct (traverse (visitImportDeclaration (keys deps) files ei false) program (varMap v)) as [r|e'] eqn:Ht; simpl; [done|].
      intros [= <-]. by eapply IH.
    + intros [= <-]. exists source. by eapply visit_throw_inv.
  - destruct (traverse (visitImportDeclaration (keys deps) files ei false) program dvm) as [r|e'] eqn:Ht; simpl; [done|].
    intros [= <-]. by eapply IH.
  - destruct (traverse (visitImportDeclaration (keys deps) files ei false) program dvm) as [r|e'] eqn:Ht; simpl; [done|].
    intros [= <-]. by eapply IH.
Qed.

Lemma traverse_unresolved program dvm source specifiers :
  ImportDeclaration source specifiers ∈ program →
  specifiers ≠ [] → unresolvedImport files deps source →
  ∃ e, traverse (visitImportDeclaration (keys deps) files ei false) program dvm = Throw e.
Proof.
  intros Hin Hs Hu. revert dvm.
  induction program as [|s program IH]; intros dvm; [by apply elem_of_nil in Hin|].
  apply elem_of_cons in Hin as [<-|Hin].
  - simpl. rewrite visit_unresolved by done. by eexists.
  - specialize (IH Hin).
    destruct s as [source' specifiers'|local init|run]; simpl.
    + destruct (visitImportDeclaration (keys deps) files ei false source' specifiers' dvm) as [v|e'] eqn:Hv; simpl; [|by eexists].
      destruct (IH (varMap v)) as [e ->]. by eexists.
    + destruct (IH dvm) as [e ->]. by eexists.
    + destruct (IH dvm) as [e ->]. by eexists.
Qed.

Lemma existsb_filter_nonempty {A} (P : A → bool) (l : list A) :
  existsb P l = true → List.filter P l ≠ [].
Proof.
  induction l as [|x l IH]; simpl; [done|].
  destruct (P x); [done|]. simpl. exact IH.
Qed.

(** What the preset leaves of a declaration with a name that is used as a
    value. *)
Lemma elideImports_keeps parsed source specifiers :
  ImportDeclaration source specifiers ∈ body parsed →
  existsb (referenced parsed) specifiers = true →
  ImportDeclaration source (List.filter (referenced parsed) specifiers) ∈ elideImports parsed.
Proof.
  intros Hin Hr. unfold elideImports.
  apply list_elem_of_In, in_flat_map. exists (ImportDeclaration source specifiers).
  split; [by apply list_elem_of_In|].
  pose proof (existsb_filter_nonempty _ _ Hr) as Hne.
  destruct specifiers as [|sp specifiers]; [done|].
  destruct (List.filter (referenced parsed) (sp :: specifiers)) as [|k kept]; [done|].
  simpl. by left.
Qed.

Lemma transformFile_throw_inv f e :
  transformFile parse files deps ei false f = Throw e →
  parse (processedInput f) = Throw e ∨
  ∃ source, e = inFile (moduleNotFound source) ∧ unresolvedImport files deps source.
Proof.
  unfold transformFile, transform, processedInput.
  destruct (parse _) as [parsed|e'] eqn:Hp; simpl; [|intros [= <-]; by left].
  destruct (traverse _ (elideImports parsed) _) as [r|e'] eqn:Ht; simpl; [done|].
  intros [= <-]. right.
  apply traverse_throw_inv in Ht as (source & -> & Hu). by exists source.
Qed.

Lemma transformFile_unresolved f parsed source specifiers :
  parse (processedInput f) = Normal parsed →
  ImportDeclaration source specifiers ∈ body parsed →
  existsb (referenced parsed) specifiers = true →
  unresolvedImport files deps source →
  ∃ e, transformFile parse files deps ei false f = Throw e.
Proof.
  intros Hp Hin Hs Hu. unfold transformFile, transform. fold (processedInput f).
  rewrite Hp. simpl.
  destruct (traverse_unresolved (elideImports parsed) (initialDependencyVarMap deps) _ _
              (elideImports_keeps _ _ _ Hin Hs) (existsb_filter_nonempty _ _ Hs) Hu)
    as [e He].
  rewrite He. by eexists.
Qed.

Lemma secondPass_unresolved todo st f parsed source specifiers :
  f ∈ todo →
  parse (processedInput f) = Normal parsed →
  ImportDeclaration source specifiers ∈ body parsed →
  existsb (referenced parsed) specifiers = true →
  unresolvedImport files deps source →
  ∃ e, (secondPass parse files deps ei false todo st).1 = Throw e ∧
    ((∃ source', e = inFile (moduleNotFound source') ∧ unresolvedImport files deps source') ∨
     (∃ f', f' ∈ todo ∧ parse (processedInput f') = Throw e)).
Proof.
  intros Hin Hp Hi Hs Hu. revert st.
  induction todo as [|g todo IH]; intros st; [by apply elem_of_nil in Hin|].
  simpl. destruct (transformFile parse files deps ei false g) as [[m w]|e] eqn:Ht.
  - apply elem_of_cons in Hin as [<-|Hin].
    + destruct (transformFile_unresolved _ _ _ _ Hp Hi Hs Hu) as [e He]. congruence.
    + edestruct (IH Hin) as (e & He & Hc). exists e. split; [exact He|].
      destruct Hc as [Hc|(f' & Hf' & Hpf)]; [by left|right].
      exists f'. split; [by apply list_elem_of_further|done].
  - exists e. split; [done|].
    apply transformFile_throw_inv in Ht as [Ht|Ht]; [right|by left].
    exists g. split; [apply list_elem_of_here|done].
Qed.
End Unresolved.

Lemma transformMultipleFiles_throw parse files deps auto st e st' :
  secondPass parse files deps (firstPass files) auto files
    {| moduleCache := []; console := console st |} = (Throw e, st') →
  transformMultipleFiles parse files deps auto st = (Throw e, st').
Proof. intros H. unfold transformMultipleFiles. by rewrite H. Qed.

Lemma unresolvedDependency_names (source : string) :
  unresolvedDependency source = inFile (moduleNotFound source) ∧
  includes (error_text (unresolvedDependency source)) source = true.
Proof.
  split; [done|]. unfold unresolvedDependency. cbn [error_text].
  change ("unknown file: Module not found: " +:+ source +:+
          ". To enable automatic CDN resolution, set autoResolvePackage to true.")
    with ("unknown file: " +:+ ("Module not found: " +:+ source +:+
          ". To enable automatic CDN resolution, set autoResolvePackage to true.")).
  apply includes_app_r, includes_app.
Qed.

(** C5, as the code has it.  With auto-resolution off, an import whose
    source is neither the framework, nor a file of the set, nor a key of the
    dependency map, and of which at least one name is used as a value in
    the file, is still there when the rewriter runs and makes it throw; the
    transformation of the set fails, with the message of that error behind
    the words Babel puts before it, unless a file failed to parse first (or
    another such import was met first); the message names the package and
    puts [unknown file] where the name of the importing file would be; and
    the resolution effect asks for no import. *)
Theorem unresolved_import_fails_transformation
    (parse : string → completion Parsed) (files : list CodeFile)
    (deps : Dependencies) (st : UtilsState) (f : CodeFile) (parsed : Parsed)
    (source : string) (specifiers : list Specifier) :
  f ∈ files →
  parse (processedInput f) = Normal parsed →
  ImportDeclaration source specifiers ∈ body parsed →
  existsb (referenced parsed) specifiers = true →
  unresolvedImport files deps source →
  let kept := List.filter (referenced parsed) specifiers in
  ImportDeclaration source kept ∈ elideImports parsed ∧
  (∀ ei dvm, visitImportDeclaration (keys deps) files ei false source kept dvm
             = Throw (moduleNotFound source)) ∧
  (∃ e, (transformMultipleFiles parse files deps false st).1 = Throw e ∧
        ((∃ source', e = unresolvedDependency source' ∧ unresolvedImport files deps source' ∧
                     includes (error_text e) source' = true) ∨
         (∃ f', f' ∈ files ∧ parse (processedInput f') = Throw e))) ∧
  (∀ net cfg code hasChanges cancelled s,
     autoResolvePackage cfg = false →
     requests (cdn (resolveEffect net cfg code hasChanges cancelled s)) = requests (cdn s)).
Proof.
  intros Hin Hp Hi Hs Hu kept. split_and!.
  - by apply elideImports_keeps.
  - intros ei dvm. apply visit_unresolved; [|done]. by apply existsb_filter_nonempty.
  - destruct (secondPass_unresolved parse files deps (firstPass files) files
                {| moduleCache := []; console := console st |} f parsed source specifiers
                Hin Hp Hi Hs Hu) as (e & He & Hc).
    exists e. split.
    + destruct (secondPass _ _ _ _ _ _ _) as [c st'] eqn:Hsp. simpl in He. subst c.
      by rewrite (transformMultipleFiles_throw _ _ _ _ _ _ _ Hsp).
    + destruct Hc as [(source' & -> & Hu')|Hc]; [left|by right].
      exists source'. split_and!; try done. apply unresolvedDependency_names.
  - intros net cfg code hasChanges cancelled s Ha. unfold resolveEffect.
    rewrite Ha. by destruct hasChanges.
Qed.

(** C5 at the one-file set that imports [left-pad]: the transformation
    fails with the message Babel hands on. *)
Lemma unresolved_import_fails_transformation_witness :
  (transformMultipleFiles leftPadParse (codeFilesOf (Source leftPadSource)) [] false
     emptyUtils).1
  = Throw (VError ("unknown file: Module not found: left-pad. To enable automatic CDN " +:+
                   "resolution, set autoResolvePackage to true.")).
Proof.
  destruct (unresolved_import_fails_transformation leftPadParse
              (codeFilesOf (Source leftPadSource)) [] emptyUtils
              {| name := "index.tsx"; content := leftPadSource; isEntry := Some true |}
              {| body := [ImportDeclaration "left-pad" [ImportDefaultSpecifier "leftPad"];
                          bindsFunction "App"];
                 valueReferences := ["leftPad"] |}
              "left-pad" [ImportDefaultSpecifier "leftPad"])
    as (_ & _ & (e & He & _) & _).
  - apply list_elem_of_here.
  - vm_compute. reflexivity.
  - apply list_elem_of_here.
  - reflexivity.
  - unfold unresolvedImport. split_and!; [discriminate|vm_compute; reflexivity|].
    apply not_elem_of_nil.
  - vm_compute. reflexivity.
Defined.

(** C5: the message of the unresolved-dependency error does not contain the
    name of the importing file; and a file that imports the package for a
    type only is transformed and run. *)
Lemma unresolved_error_omits_file :
  let r := executeCode leftPadParse 64 (Source leftPadSource) [] defaultSecurityPatterns
             false false hostReact None emptyUtils in
  let r' := executeCode typeOnlyParse 64 (Source typeOnlySource) [] defaultSecurityPatterns
              false false hostReact None emptyUtils in
  (∃ m, error (result r) = Some m ∧
        includes m "left-pad" = true ∧
        includes m "index.tsx" = false) ∧
  unresolvedImport (codeFilesOf (Source typeOnlySource)) [] "left-pad" ∧
  result r' = {| Component := Some (VFunction "App" []); error := None;
                 forbiddenPatterns := false |}.
Proof.
  split_and!.
  - eexists. vm_compute. split_and!; reflexivity.
  - unfold unresolvedImport. split_and!; [discriminate|vm_compute; reflexivity|].
    apply not_elem_of_nil.
  - vm_compute. reflexivity.
Qed.

(** *** The two halves of a call *)

Lemma lookup_snoc2 {A} (l : list A) (a b : A) : ((l ++ [a]) ++ [b]) !! length l = Some a.
Proof.
  rewrite lookup_app_l by (rewrite length_app; simpl; lia).
  rewrite lookup_app_r by lia. by rewrite Nat.sub_diag.
Qed.

Lemma insert_snoc2 {A} (l : list A) (x a b : A) :
  <[length l := x]> ((l ++ [a]) ++ [b]) = (l ++ [x]) ++ [b].
Proof.
  rewrite <- !app_assoc. rewrite insert_app_r_alt by lia. by rewrite Nat.sub_diag.
Qed.

Lemma start_hit net pkg tw st c :
  cacheOf st (realmOf tw) !! pkg = Some c →
  startResolution net pkg tw st = resolvePackageFromCDN net pkg tw st.
Proof.
  intros Hc. unfold startResolution, resolvePackageFromCDN.
  pose proof (cache_get_cacheOf tw st pkg) as Hg.
  destruct (getCache tw st) as [cache st0]; simpl in *.
  by rewrite Hg, Hc.
Qed.

(** Awaited at once, the two halves are the call. *)
Lemma resolve_start_resume net pkg tw st :
  cacheOf st (realmOf tw) !! pkg = None →
  resolvePackageFromCDN net pkg tw st
  = ((startResolution net pkg tw st).1,
     resumeResolution net (length (promises st)) (startResolution net pkg tw st).2).
Proof.
  intros Hc. unfold startResolution, resolvePackageFromCDN.
  pose proof (cache_get_cacheOf tw st pkg) as Hg.
  pose proof (getCache_promises tw st) as Hp.
  destruct (getCache tw st) as [cache st0]; simpl in *.
  rewrite Hg, Hc. rewrite <- Hp.
  unfold resolveClosure, importModuleFromUrl, resumeResolution, new_promise, set_promise,
    log_request; simpl.
  destruct (importOutcome net (length (requests st0)) (cdnUrl pkg) tw) as [m|e1]; simpl.
  - destruct cache; simpl; rewrite lookup_snoc2, insert_snoc2; by rewrite !length_app.
  - destruct cache; simpl; rewrite lookup_snoc2; simpl; rewrite ?length_app; simpl;
      destruct (importOutcome net (length (requests st0) + 1) (fallbackUrl pkg) tw) as [m|e2];
      simpl; rewrite insert_snoc2; by rewrite ?length_app.
Qed.

Lemma start_miss net pkg tw st :
  cacheOf st (realmOf tw) !! pkg = None →
  let r := startResolution net pkg tw st in
  let n := length (promises st) in
  r.1 = S n ∧
  promises r.2
  = promises st ++ [Pending pkg tw (importOutcome net (length (requests st)) (cdnUrl pkg) tw);
                    Adopted n] ∧
  requests r.2 = requests st ++ [primaryRequest tw pkg] ∧
  ∀ w, cacheOf r.2 w
       = if decide (w = realmOf tw) then <[pkg := n]> (cacheOf st w) else cacheOf st w.
Proof.
  intros Hc. unfold startResolution.
  pose proof (cache_get_cacheOf tw st pkg) as Hg.
  pose proof (getCache_promises tw st) as Hp.
  pose proof (getCache_requests tw st) as Hr.
  pose proof (getCache_cacheOf tw st) as Hw.
  pose proof (λ k p s r, cache_set_cacheOf tw st k p s r) as Hs.
  destruct (getCache tw st) as [cache st0]; simpl in *.
  rewrite Hg, Hc. unfold importModuleFromUrl, new_promise, log_request. simpl.
  rewrite cache_set_promises, cache_set_requests. simpl. rewrite Hp, Hr.
  split_and!.
  - rewrite length_app; simpl; lia.
  - by rewrite <- app_assoc.
  - done.
  - intros w.
    match goal with |- cacheOf {| GLOBAL_CDN_CACHE := GLOBAL_CDN_CACHE ?x;
                                  SANDBOX_CDN_CACHE := _; promises := ?a; requests := ?b |} _ = _ =>
      assert (cacheOf {| GLOBAL_CDN_CACHE := GLOBAL_CDN_CACHE x;
                         SANDBOX_CDN_CACHE := SANDBOX_CDN_CACHE x;
                         promises := a; requests := b |} w = cacheOf x w) as -> by (by destruct w)
    end.
    rewrite Hs. case_decide; [|by rewrite <- Hw].
    f_equal. rewrite <- Hw. by destruct w.
Qed.

Lemma start_hit_spec net pkg tw st c :
  cacheOf st (realmOf tw) !! pkg = Some c →
  let r := startResolution net pkg tw st in
  r.1 = length (promises st) ∧
  promises r.2 = promises st ++ [Adopted c] ∧
  requests r.2 = requests st ∧
  ∀ w, cacheOf r.2 w = cacheOf st w.
Proof. intros Hc. rewrite (start_hit _ _ _ _ _ Hc). by apply resolve_hit. Qed.

(** How the closure of a pending promise ends: with what esm.sh answered,
    or with what the import from jsDelivr, request [n], ends in. *)
Lemma resume_pending net p st pkg tw o :
  promises st !! p = Some (Pending pkg tw o) →
  let st' := resumeResolution net p st in
  (∃ o', promises st' = <[p := Resolution pkg tw o']> (promises st)) ∧
  requests st' = requests st ++ fallbacksOf st [(0, p)] ∧
  GLOBAL_CDN_CACHE st' = GLOBAL_CDN_CACHE st ∧
  SANDBOX_CDN_CACHE st' = SANDBOX_CDN_CACHE st.
Proof.
  intros Hp. unfold resumeResolution, fallbacksOf. simpl. rewrite Hp.
  destruct o as [m|e]; simpl.
  - split_and!; [by eexists|by rewrite app_nil_r|done|done].
  - split_and!; [by eexists|done|done|done].
Qed.

Lemma resume_idle net p st :
  (∀ pkg tw o, promises st !! p ≠ Some (Pending pkg tw o)) →
  resumeResolution net p st = st.
Proof.
  intros H. unfold resumeResolution.
  destruct (promises st !! p) as [[k tw o|q|k tw o]|] eqn:E; try done.
  by destruct (H k tw o).
Qed.

Lemma resume_cacheOf net p st w : cacheOf (resumeResolution net p st) w = cacheOf st w.
Proof.
  destruct (promises st !! p) as [[k tw o|q|k tw o]|] eqn:E;
    try (rewrite resume_idle; [done|intros ???; congruence]).
  destruct (resume_pending net p st k tw o E) as (_ & _ & Hg & Hs).
  unfold cacheOf. by rewrite Hg, Hs.
Qed.

(** A promise that is not pending is never written again. *)
Lemma resume_keeps net p st q P :
  (∀ pkg tw o, P ≠ Pending pkg tw o) →
  promises st !! q = Some P → promises (resumeResolution net p st) !! q = Some P.
Proof.
  intros HP Hq.
  destruct (promises st !! p) as [[k tw o|q'|k tw o]|] eqn:E;
    try (rewrite resume_idle; [done|intros ???; congruence]).
  destruct (resume_pending net p st k tw o E) as ([o' ->] & _).
  destruct (decide (p = q)) as [->|Hne].
  - assert (Some P = Some (Pending k tw o)) as [= ->] by (etrans; [symmetry; exact Hq|exact E]).
    by destruct (HP k tw o).
  - by rewrite list_lookup_insert_ne.
Qed.

Lemma resume_other net p st q :
  p ≠ q → promises (resumeResolution net p st) !! q = promises st !! q.
Proof.
  intros Hne.
  destruct (promises st !! p) as [[k tw o|q'|k tw o]|] eqn:E;
    try (rewrite resume_idle; [done|intros ???; congruence]).
  destruct (resume_pending net p st k tw o E) as ([o' ->] & _).
  by rewrite list_lookup_insert_ne.
Qed.

Lemma resume_resolves net p st pkg tw o :
  promises st !! p = Some (Pending pkg tw o) →
  ∃ o', promises (resumeResolution net p st) !! p = Some (Resolution pkg tw o').
Proof.
  intros E. destruct (resume_pending net p st pkg tw o E) as ([o' ->] & _).
  exists o'. apply list_lookup_insert_eq. by eapply lookup_lt_Some.
Qed.

Lemma fallbacksOf_cons c np l : fallbacksOf c (np :: l) = fallbacksOf c [np] ++ fallbacksOf c l.
Proof. unfold fallbacksOf. simpl. by rewrite app_nil_r. Qed.

Lemma fallbacksOf_ext c c' l :
  (∀ np, np ∈ l → promises c' !! np.2 = promises c !! np.2) →
  fallbacksOf c' l = fallbacksOf c l.
Proof.
  induction l as [|np l IH]; intros H; [done|].
  rewrite (fallbacksOf_cons c), (fallbacksOf_cons c'). f_equal.
  - unfold fallbacksOf. simpl. by rewrite (H np (list_elem_of_here _ _)).
  - apply IH. intros np' Hin. apply H. by apply list_elem_of_further.
Qed.

(** Closures that resume one after the other. *)
Lemma resumeList_spec net l : ∀ c,
  NoDup (map snd l) →
  let c' := fold_left (λ c np, resumeResolution net np.2 c) l c in
  requests c' = requests c ++ fallbacksOf c l ∧
  (∀ w, cacheOf c' w = cacheOf c w) ∧
  (∀ q, q ∉ map snd l → promises c' !! q = promises c !! q) ∧
  (∀ q P, (∀ pkg tw o, P ≠ Pending pkg tw o) →
          promises c !! q = Some P → promises c' !! q = Some P) ∧
  (∀ q pkg tw o, q ∈ map snd l → promises c !! q = Some (Pending pkg tw o) →
                 ∃ o', promises c' !! q = Some (Resolution pkg tw o')).
Proof.
  induction l as [|[n p] l IH]; intros c Hnd; cbn [fold_left].
  - split_and!; try done.
    + unfold fallbacksOf. simpl. by rewrite app_nil_r.
    + intros q pkg tw o Hin. by apply elem_of_nil in Hin.
  - cbn [map snd] in *. apply NoDup_cons in Hnd as [Hp Hnd].
    destruct (IH (resumeResolution net p c) Hnd) as (Hr & Hc & Ho & Hk & Hres).
    split_and!.
    + rewrite Hr. rewrite (fallbacksOf_cons c (n, p) l).
      rewrite (fallbacksOf_ext c (resumeResolution net p c) l).
      * rewrite app_assoc. f_equal.
        destruct (promises c !! p) as [[k tw o|q'|k tw o]|] eqn:E;
          try (rewrite resume_idle by (intros ???; congruence);
               unfold fallbacksOf; simpl; rewrite E; by rewrite !app_nil_r).
        destruct (resume_pending net p c k tw o E) as (_ & -> & _).
        unfold fallbacksOf. simpl. by rewrite E.
      * intros [n' q] Hin. simpl. apply resume_other. intros ->.
        apply Hp. apply list_elem_of_fmap. by exists (n', q).
    + intros w. rewrite Hc. apply resume_cacheOf.
    + intros q [Hne Hq]%not_elem_of_cons. rewrite Ho by done. by apply resume_other.
    + intros q P HP Hq. apply Hk; [done|]. by apply resume_keeps.
    + intros q pkg tw o [->|Hin]%elem_of_cons Hq.
      * destruct (resume_resolves net p c pkg tw o Hq) as [o' Ho'].
        exists o'. apply Hk; [done|done].
      * apply (Hres q pkg tw o Hin). rewrite resume_other; [done|].
        intros ->. by apply Hp.
Qed.

Lemma insert_answer_perm net x l : insert_answer net x l ≡ₚ x :: l.
Proof.
  induction l as [|y l IH]; simpl; [done|].
  destruct (_ <=? _); [done|]. rewrite IH. apply Permutation_swap.
Qed.

Lemma answerOrder_perm net l : answerOrder net l ≡ₚ l.
Proof.
  induction l as [|x l IH]; simpl; [done|].
  rewrite insert_answer_perm. by constructor.
Qed.

Lemma fallbacksOf_perm c l l' : l ≡ₚ l' → fallbacksOf c l ≡ₚ fallbacksOf c l'.
Proof. intros H. unfold fallbacksOf. by apply Permutation_flat_map. Qed.

(** The closures of one run all resume: what that adds to the log, and
    what it does to the promises. *)
Lemma resumeAll_spec net waiting c :
  NoDup (map snd waiting) →
  let c' := resumeAll net waiting c in
  requests c' = requests c ++ fallbacksOf c (answerOrder net waiting) ∧
  (∀ w, cacheOf c' w = cacheOf c w) ∧
  (∀ q, q ∉ map snd waiting → promises c' !! q = promises c !! q) ∧
  (∀ q P, (∀ pkg tw o, P ≠ Pending pkg tw o) →
          promises c !! q = Some P → promises c' !! q = Some P) ∧
  (∀ q pkg tw o, q ∈ map snd waiting → promises c !! q = Some (Pending pkg tw o) →
                 ∃ o', promises c' !! q = Some (Resolution pkg tw o')).
Proof.
  intros Hnd.
  assert (Hperm : map snd (answerOrder net waiting) ≡ₚ map snd waiting)
    by apply Permutation_map, answerOrder_perm.
  assert (Hnd' : NoDup (map snd (answerOrder net waiting))) by (by rewrite Hperm).
  destruct (resumeList_spec net (answerOrder net waiting) c Hnd') as (Hr & Hc & Ho & Hk & Hres).
  unfold resumeAll. split_and!; try done.
  - intros q Hq. apply Ho. by rewrite Hperm.
  - intros q pkg tw o Hin. apply Hres. by rewrite Hperm.
Qed.
Lemma start_spec net dep tw c :
  let r := startResolution net dep tw c in
  ∃ q,
    promises r.2 !! r.1 = Some (Adopted q) ∧
    cacheOf r.2 (realmOf tw) !! dep = Some q ∧
    (∀ q' P, promises c !! q' = Some P → promises r.2 !! q' = Some P) ∧
    (∀ k realm, k ≠ dep → cacheOf r.2 realm !! k = cacheOf c realm !! k) ∧
    length (promises c) < length (promises r.2) ∧
    match cacheOf c (realmOf tw) !! dep with
    | Some q0 => q = q0 ∧ requests r.2 = requests c
    | None =>
        q = length (promises c) ∧
        requests r.2 = requests c ++ [primaryRequest tw dep] ∧
        promises r.2 !! q
        = Some (Pending dep tw (importOutcome net (length (requests c)) (cdnUrl dep) tw))
    end.
Proof.
  intros r. subst r. destruct (cacheOf c (realmOf tw) !! dep) as [q0|] eqn:E.
  - destruct (start_hit_spec net dep tw c q0 E) as (H1 & H2 & H3 & H4).
    exists q0. rewrite H1, H2, H3, H4. split_and!; try done.
    + rewrite lookup_app_r by lia. by rewrite Nat.sub_diag.
    + intros q' P Hq. by apply lookup_app_l_Some.
    + intros k realm _. by rewrite H4.
    + rewrite length_app. simpl. lia.
  - destruct (start_miss net dep tw c E) as (H1 & H2 & H3 & H4).
    exists (length (promises c)). rewrite H1, H2, H3, H4. split_and!; try done.
    + rewrite lookup_app_r by lia.
      by replace (S (length (promises c)) - length (promises c)) with 1 by lia.
    + rewrite decide_True by done. by rewrite lookup_insert_eq.
    + intros q' P Hq. by apply lookup_app_l_Some.
    + intros k realm Hk. rewrite H4. case_decide; [|done]. by rewrite lookup_insert_ne.
    + rewrite length_app. simpl. lia.
    + rewrite lookup_app_r by lia. by rewrite Nat.sub_diag.
Qed.

(** The turn in which a run starts its resolutions. *)
Lemma startAll_spec net tw missing : ∀ c,
  NoDup missing →
  let r := startAll net missing tw c in
  let started :=
    List.filter (λ dep, negb (is_some (cacheOf c (realmOf tw) !! dep))) missing in
  map fst r.1.1 = missing ∧
  requests r.2 = requests c ++ map (primaryRequest tw) started ∧
  Forall2 (λ dep nq,
     promises r.2 !! nq.2
     = Some (Pending dep tw (importOutcome net nq.1 (cdnUrl dep) tw)) ∧
     requests r.2 !! nq.1 = Some (primaryRequest tw dep) ∧
     length (promises c) ≤ nq.2) started r.1.2 ∧
  (∀ q P, promises c !! q = Some P → promises r.2 !! q = Some P) ∧
  NoDup (map snd r.1.2) ∧
  (∀ dep p, (dep, p) ∈ r.1.1 →
     ∃ q, promises r.2 !! p = Some (Adopted q) ∧
          cacheOf r.2 (realmOf tw) !! dep = Some q ∧
          (cacheOf c (realmOf tw) !! dep = Some q ∨
           (q ∈ map snd r.1.2 ∧ ∃ o, promises r.2 !! q = Some (Pending dep tw o)))) ∧
  (∀ k, k ∉ missing → ∀ realm, cacheOf r.2 realm !! k = cacheOf c realm !! k) ∧
  length (promises c) ≤ length (promises r.2).
Proof.
  induction missing as [|dep rest IH]; intros c Hnd.
  - simpl. rewrite app_nil_r. split_and!; try done; try constructor.
    intros dep p Hin. by apply elem_of_nil in Hin.
  - apply NoDup_cons in Hnd as [Hdep Hnd]. cbn [startAll].
    destruct (start_spec net dep tw c) as (q & Hadopt & Hcache & Hkeep & Hother & Hlen & Hcase).
    unfold startedClosure.
    destruct (startResolution net dep tw c) as [p c'] eqn:Es. cbn [fst snd] in *.
    destruct (IH c' Hnd) as (IH1 & IH2 & IH3 & IH4 & IH5 & IH6 & IH7 & IH8).
    destruct (startAll net rest tw c') as [[awaited waiting] c''] eqn:Ea. cbn [fst snd] in *.
    assert (Hfilt :
      List.filter (λ k, negb (is_some (cacheOf c' (realmOf tw) !! k))) rest
      = List.filter (λ k, negb (is_some (cacheOf c (realmOf tw) !! k))) rest).
    { apply filter_ext_in. intros k Hk. rewrite Hother; [done|].
      intros ->. by apply Hdep, list_elem_of_In. }
    rewrite Hfilt in IH2, IH3.
    assert (Hwait : ∀ nq, nq ∈ waiting → length (promises c') ≤ nq.2).
    { clear -IH3. induction IH3 as [|x y l l' (_ & _ & H) _ IHf];
        intros nq Hin; [by apply elem_of_nil in Hin|].
      apply elem_of_cons in Hin as [->|Hin]; [done|by apply IHf]. }
    assert (Hshift : Forall2 (λ dep0 nq,
       promises c'' !! nq.2
       = Some (Pending dep0 tw (importOutcome net nq.1 (cdnUrl dep0) tw)) ∧
       requests c'' !! nq.1 = Some (primaryRequest tw dep0) ∧
       length (promises c) ≤ nq.2)
      (List.filter (λ k, negb (is_some (cacheOf c (realmOf tw) !! k))) rest) waiting).
    { eapply Forall2_impl; [exact IH3|]. intros x y (? & ? & ?). split_and!; try done. lia. }
    destruct (cacheOf c (realmOf tw) !! dep) as [q0|] eqn:E;
      cbn [List.filter]; rewrite ?E; cbn [is_some negb].
    + destruct Hcase as [-> Hreq]. rewrite Hreq in IH2. cbn [app map snd fst].
      split_and!.
      * by rewrite IH1.
      * done.
      * done.
      * intros q' P Hq. by apply IH4, Hkeep.
      * done.
      * intros dep' p' [[= -> ->]|Hin]%elem_of_cons.
        -- exists q0. split_and!; [by apply IH4|by rewrite IH7|by left].
        -- destruct (IH6 dep' p' Hin) as (q' & H1 & H2 & H3). exists q'.
           split_and!; try done.
           destruct H3 as [H3|H3]; [left|by right].
           rewrite <- H3. symmetry. apply Hother. intros ->.
           apply Hdep. rewrite <- IH1. apply list_elem_of_fmap. by exists (dep, p').
      * intros k [Hne Hk]%not_elem_of_cons realm. rewrite IH7 by done. by apply Hother.
      * lia.
    + destruct Hcase as (-> & Hreq & Hpend). rewrite Hreq in IH2. cbn [app map snd fst].
      split_and!.
      * by rewrite IH1.
      * rewrite IH2. by rewrite <- app_assoc.
      * constructor; [|done]. cbn [fst snd]. split_and!; [by apply IH4| |done].
        rewrite IH2. apply lookup_app_l_Some.
        rewrite lookup_app_r by lia. by rewrite Nat.sub_diag.
      * intros q' P Hq. by apply IH4, Hkeep.
      * apply NoDup_cons. split; [|done].
        intros Hin. apply list_elem_of_fmap in Hin as (nq & Heq & Hin).
        specialize (Hwait nq Hin). unfold PromiseId in *. lia.
      * intros dep' p' [[= -> ->]|Hin]%elem_of_cons.
        -- exists (length (promises c)). split_and!; [by apply IH4|by rewrite IH7|].
           right. split; [apply list_elem_of_here|]. eexists. by apply IH4.
        -- destruct (IH6 dep' p' Hin) as (q' & H1 & H2 & H3). exists q'.
           split_and!; try done.
           destruct H3 as [H3|(H3 & H3')]; [left|right].
           ++ rewrite <- H3. symmetry. apply Hother. intros ->.
              apply Hdep. rewrite <- IH1. apply list_elem_of_fmap. by exists (dep, p').
           ++ split; [by apply list_elem_of_further|done].
      * intros k [Hne Hk]%not_elem_of_cons realm. rewrite IH7 by done. by apply Hother.
      * lia.
Qed.

(** ** The fallback registry and the composite error *)

Lemma compositeError_names pkg e1 e2 :
  includes (error_text (compositeError pkg e1 e2)) (error_text e1) = true ∧
  includes (error_text (compositeError pkg e1 e2)) (error_text e2) = true.
Proof.
  unfold compositeError. cbn [error_text]. split.
  - do 4 apply includes_app_r. apply includes_app_l.
  - do 7 apply includes_app_r. apply includes_refl.
Qed.

Lemma resolveEffect_result net cfg code hasChanges cancelled s :
  executionResult (resolveEffect net cfg code hasChanges cancelled s) = executionResult s.
Proof.
  unfold resolveEffect.
  destruct hasChanges; [|done]. destruct (autoResolvePackage cfg); [|done].
  cbn [negb].
  destruct (missingDependencies _ _) as [|dep rest]; [done|].
  destruct (sandbox cfg && _); [done|].
  match goal with |- context [resolveAll ?a ?b ?c ?d ?e] => destruct (resolveAll a b c d e) end.
  by destruct cancelled.
Qed.

(** C6, as the code has it.  On a cache miss whose esm.sh import fails,
    exactly one more request is made, to the jsDelivr URL, which differs from
    the first; when it fails too, the returned promise is rejected with an
    error whose message contains both failure messages.  The resolution
    step catches that rejection and leaves the dependency out, and it never
    writes the execution result: the composite error is not what
    [ExecutionResult.error] reports. *)
Theorem fallback_once_then_composite (net : Network) (pkg : string)
    (tw : option Window) (st : CdnState) (e1 : value) :
  cacheOf st (realmOf tw) !! pkg = None →
  importOutcome net (length (requests st)) (cdnUrl pkg) tw = Throw e1 →
  let r := resolvePackageFromCDN net pkg tw st in
  requests r.2 = requests st ++ [ {| req_realm := realmOf tw; req_url := cdnUrl pkg |};
                                  {| req_realm := realmOf tw; req_url := fallbackUrl pkg |} ] ∧
  cdnUrl pkg ≠ fallbackUrl pkg ∧
  (∀ e2, importOutcome net (S (length (requests st))) (fallbackUrl pkg) tw = Throw e2 →
     settled r.2 r.1 = Some (Throw (compositeError pkg e1 e2)) ∧
     includes (error_text (compositeError pkg e1 e2)) (error_text e1) = true ∧
     includes (error_text (compositeError pkg e1 e2)) (error_text e2) = true ∧
     ∀ newDeps, resolveAll net [pkg] tw newDeps st = (newDeps, r.2)) ∧
  (∀ cfg code hasChanges cancelled s,
     executionResult (resolveEffect net cfg code hasChanges cancelled s) = executionResult s).
Proof.
  intros Hc H1 r.
  destruct (resolve_miss net pkg tw st Hc) as (Hid & Hp & Hr & _). fold r in Hid, Hp, Hr.
  unfold fetchSequence in Hp, Hr. rewrite H1 in Hp, Hr. split_and!.
  - rewrite Hr. by destruct (importOutcome net (S _) _ _).
  - apply cdnUrl_fallbackUrl.
  - intros e2 H2. rewrite H2 in Hp. simpl in Hp.
    assert (settled r.2 r.1 = Some (Throw (compositeError pkg e1 e2))) as Hs.
    { unfold settled. rewrite Hid, Hp.
      rewrite lookup_app_r by lia.
      replace (S (length (promises st)) - length (promises st)) with 1 by lia. simpl.
      rewrite lookup_app_r by lia. by rewrite Nat.sub_diag. }
    split_and!; try apply compositeError_names; [done|].
    intros newDeps. unfold resolveAll. cbn [startAll]. unfold startedClosure. rewrite Hc.
    pose proof (resolve_start_resume net pkg tw st Hc) as Hsr. fold r in Hsr.
    destruct (startResolution net pkg tw st) as [p c']. cbn [fst snd] in Hsr.
    unfold resumeAll. cbn [app answerOrder fold_right insert_answer fold_left snd].
    rewrite Hsr in Hs |- *. cbn [fst snd] in Hs |- *.
    unfold addResolved. cbn [fold_left fst snd]. by rewrite Hs.
  - apply resolveEffect_result.
Qed.

(** C6 for [left-pad] on a network without connection. *)
Lemma fallback_once_then_composite_witness :
  requests (resolvePackageFromCDN offline "left-pad" None emptyCdn).2
  = [ {| req_realm := HostWindow; req_url := cdnUrl "left-pad" |};
      {| req_realm := HostWindow; req_url := fallbackUrl "left-pad" |} ].
Proof.
  destruct (fallback_once_then_composite offline "left-pad" None emptyCdn
              (VError ("Failed to fetch dynamically imported module: " +:+ cdnUrl "left-pad")))
    as (H & _).
  - reflexivity.
  - reflexivity.
  - exact H.
Defined.

(** C6: both registries fail, the promise is rejected with the composite
    error, and the run ends with [error === null]. *)
Lemma composite_error_not_reported :
  let cfg := inlineConfig true in
  let s := pipelineRun leftPadParse 64 offline hostReact cfg (Source leftPadSource)
             (initialState cfg defaultSecurityPatterns) in
  let failure url := VError ("Failed to fetch dynamically imported module: " +:+ url) in
  settled (cdn s) 1
  = Some (Throw (compositeError "left-pad" (failure (cdnUrl "left-pad"))
                   (failure (fallbackUrl "left-pad")))) ∧
  error (executionResult s) = None.
Proof. vm_compute. split; reflexivity. Qed.

(** ** [onError] *)



(** C7, at a failing input.  With auto-resolution off and [left-pad] not
    supplied, the run ends with the unresolved-dependency error in its
    result, and [onError], although supplied, is not called: [executeCode]
    turns the exception into a result, so the [catch] block of the
    execution effect that would call [onError] is never entered. *)
Theorem unresolved_dependency_skips_onError :
  let cfg := inlineConfig false in
  let s := pipelineRun leftPadParse 64 offline hostReact cfg (Source leftPadSource)
             (initialState cfg defaultSecurityPatterns) in
  onError cfg = true ∧
  Component (executionResult s) = None ∧
  error (executionResult s) = Some (error_text (unresolvedDependency "left-pad")) ∧
  onErrorCalls s = [].
Proof. vm_compute. split_and!; reflexivity. Qed.

(** ** [executeCode] at its call boundary *)

Lemma executeCode_passed parse stack code deps patterns bypass auto react sw st :
  passesSecurity (codeFilesOf code) patterns bypass →
  result (executeCode parse stack code deps patterns bypass auto react sw st)
  = match (compileAndRun parse stack (codeFilesOf code) deps auto react sw st).1 with
    | Normal C => {| Component := Some C; error := None; forbiddenPatterns := false |}
    | Throw e => errorResult e
    end.
Proof.
  intros Hp. unfold executeCode.
  assert ((if bypass then (None, patterns) else securityCheck (codeFilesOf code) patterns).1
          = None) as Hv.
  { destruct Hp as [->|Hp]; [done|]. by destruct bypass. }
  destruct (if bypass then _ else _) as [violation ps]. simpl in Hv. subst violation.
  destruct (compileAndRun _ _ _ _ _ _ _ _) as [[C|e] st']; done.
Qed.



Lemma errorResult_thrownIn sw m :
  errorResult (thrownIn sw (VError m))
  = {| Component := None;
       error := Some (if sandboxRealm sw then "An unknown error occurred" else m);
       forbiddenPatterns := false |}.
Proof. unfold thrownIn. by destruct (sandboxRealm sw). Qed.




(** ** The security check and the state of the patterns *)

Lemma RegExp_test_spec p text :
  same_pattern p (RegExp_test p text).2 ∧
  (fresh p →
     (RegExp_test p text).1 = matchesPattern p text ∧
     ((RegExp_test p text).1 = false → fresh (RegExp_test p text).2)).
Proof.
  unfold RegExp_test, matchesPattern, fresh, same_pattern, stateful.
  destruct (re_global p) eqn:Hg, (re_sticky p) eqn:Hy; cbn [orb].
  - split.
    + destruct (_ <? _); [done|]. by destruct (match_at _ _ _ _).
    + intros Hf. rewrite (Hf eq_refl). simpl. by destruct (match_at _ _ 0 text).
  - split.
    + destruct (_ <? _); [done|]. by destruct (search _ _ _ _).
    + intros Hf. rewrite (Hf eq_refl). simpl. by destruct (search _ _ 0 text).
  - split.
    + destruct (_ <? _); [done|]. by destruct (match_at _ _ _ _).
    + intros Hf. rewrite (Hf eq_refl). simpl. by destruct (match_at _ _ 0 text).
  - split; [by destruct (search _ _ 0 text)|].
    intros _. destruct (search _ _ 0 text); simpl; split; try done; by rewrite Hg, Hy.
Qed.

Lemma matches_same p q text :
  same_pattern p q → matchesPattern p text = matchesPattern q text.
Proof. intros (_ & Ha & Hi & _ & Hy). unfold matchesPattern. by rewrite Ha, Hi, Hy. Qed.

Lemma testPatterns_same text patterns :
  Forall2 same_pattern patterns (testPatterns text patterns).2.
Proof.
  induction patterns as [|p patterns IH]; simpl; [constructor|].
  destruct (RegExp_test_spec p text) as [Hs _].
  destruct (RegExp_test p text) as [[|] p']; simpl in *.
  - constructor; [done|]. apply Forall2_same_length_lookup. split; [done|].
    intros i x y Hx Hy. rewrite Hx in Hy. injection Hy as ->. done.
  - destruct (testPatterns text patterns) as [hit ps']. simpl in *. by constructor.
Qed.

Lemma testPatterns_spec text patterns :
  Forall fresh patterns →
  option_map re_text (testPatterns text patterns).1
  = option_map re_text (firstMatch text patterns) ∧
  ((testPatterns text patterns).1 = None → Forall fresh (testPatterns text patterns).2).
Proof.
  unfold firstMatch.
  induction 1 as [|p patterns Hp Hps IH]; simpl; [by split|].
  destruct (RegExp_test_spec p text) as [(Hx & _) [Ht Hf]]; [done|].
  destruct (RegExp_test p text) as [[|] p']; simpl in *; rewrite <- Ht.
  - simpl. split; [f_equal; congruence|done].
  - destruct (testPatterns text patterns) as [hit ps']. simpl in *.
    destruct IH as [IH1 IH2]. split; [done|]. intros Hn. constructor; auto.
Qed.

Lemma firstMatch_same text ps ps' :
  Forall2 same_pattern ps ps' →
  option_map re_text (firstMatch text ps) = option_map re_text (firstMatch text ps').
Proof.
  unfold firstMatch. induction 1 as [|p q ps ps' Hs Hps IH]; simpl; [done|].
  rewrite <- (matches_same p q text Hs).
  destruct (matchesPattern p text); [|done]. simpl. by destruct Hs as [-> _].
Qed.

Lemma firstViolation_same files ps ps' :
  Forall2 same_pattern ps ps' →
  violationMessage (firstViolation files ps) = violationMessage (firstViolation files ps').
Proof.
  intros Hs. induction files as [|file files IH]; simpl; [done|].
  pose proof (firstMatch_same (content file) ps ps' Hs) as Hm.
  destruct (firstMatch (content file) ps) as [p|], (firstMatch (content file) ps') as [q|];
    simpl in *; try done.
  injection Hm as Hm. unfold violationMessage, forbiddenMessage. simpl. by rewrite Hm.
Qed.

(** On fresh patterns the loops of [executeCode] find what the
    specification describes. *)
Lemma securityCheck_spec files patterns :
  Forall fresh patterns →
  violationMessage (securityCheck files patterns).1
  = violationMessage (firstViolation files patterns).
Proof.
  revert patterns. induction files as [|file files IH]; intros patterns Hf; simpl; [done|].
  destruct (testPatterns_spec (content file) patterns Hf) as [Ht Hn].
  pose proof (testPatterns_same (content file) patterns) as Hs.
  destruct (testPatterns (content file) patterns) as [[hit|] ps']; simpl in *.
  - destruct (firstMatch (content file) patterns) as [p|]; [|done].
    injection Ht as Ht. unfold violationMessage, forbiddenMessage. simpl. by rewrite Ht.
  - destruct (firstMatch (content file) patterns) as [p|]; [done|].
    rewrite (IH ps' (Hn eq_refl)). symmetry. by apply firstViolation_same.
Qed.

(** With fresh patterns, a violation is reported as the specification says,
    whatever the parser would do, and the transformer is left untouched. *)
Lemma executeCode_forbidden parse stack code deps patterns auto react sw st file p :
  Forall fresh patterns →
  firstViolation (codeFilesOf code) patterns = Some (file, p) →
  let r := executeCode parse stack code deps patterns false auto react sw st in
  result r = {| Component := None; error := Some (forbiddenMessage file p);
                forbiddenPatterns := true |} ∧
  utils_after r = st.
Proof.
  intros Hf Hv r. subst r. unfold executeCode.
  pose proof (securityCheck_spec (codeFilesOf code) patterns Hf) as Hs.
  rewrite Hv in Hs.
  unfold violationMessage in Hs.
  destruct (securityCheck (codeFilesOf code) patterns) as [[[file' hit]|] ps];
    cbn [option_map fst snd] in Hs; [|done].
  apply (inj Some) in Hs. cbn [result utils_after]. by rewrite Hs.
Qed.

(** C2, at a failing input.  The caller's pattern [/eval\(/g] matches the
    text; the first run reports it and leaves [lastIndex] at 5 on the
    pattern object; the second run, on the same text and the same pattern
    object, tests from index 5, finds nothing, and goes on to transform and
    run the code. *)
Theorem stale_lastIndex_lets_forbidden_code_through :
  let run patterns st :=
    executeCode evalParse 64 (Source evalSource) [] patterns false true hostReact None st in
  let first := run [evalGlobal] emptyUtils in
  let second := run (patterns_after first) (utils_after first) in
  matchesPattern evalGlobal evalSource = true ∧
  forbiddenPatterns (result first) = true ∧
  map lastIndex (patterns_after first) = [5] ∧
  forbiddenPatterns (result second) = false ∧
  is_some (Component (result second)) = true.
Proof. vm_compute. split_and!; reflexivity. Qed.

(** ** Sanitized dependency names *)

Lemma redeclared_None bound names :
  redeclared bound names = None → NoDup names ∧ ∀ x, x ∈ names → x ∉ bound.
Proof.
  revert bound. induction names as [|x names IH]; intros bound; simpl.
  - intros _. split; [constructor|]. intros x Hx. by apply elem_of_nil in Hx.
  - destruct (existsb (String.eqb x) bound) eqn:Hb; [done|]. intros Hr.
    destruct (IH _ Hr) as [Hnd Hnb]. split.
    + constructor; [|done]. intros Hx. apply (Hnb x Hx). apply list_elem_of_here.
    + intros y Hy. apply elem_of_cons in Hy as [->|Hy].
      * intros Hin. assert (existsb (String.eqb x) bound = true); [|congruence].
        apply existsb_exists. exists x. split; [by apply list_elem_of_In|apply String.eqb_refl].
      * intros Hin. apply (Hnb y Hy). by apply list_elem_of_further.
Qed.

Lemma NoDup_fmap_eq {A B} (f : A → B) (l : list A) x y :
  NoDup (map f l) → x ∈ l → y ∈ l → f x = f y → x = y.
Proof.
  induction l as [|a l IH]; simpl; intros Hnd Hx Hy Hf; [by apply elem_of_nil in Hx|].
  apply NoDup_cons in Hnd as [Ha Hnd].
  apply elem_of_cons in Hx as [->|Hx]; apply elem_of_cons in Hy as [->|Hy]; try done.
  - exfalso. apply Ha. rewrite Hf. apply list_elem_of_In, in_map, list_elem_of_In, Hy.
  - exfalso. apply Ha. rewrite <- Hf. apply list_elem_of_In, in_map, list_elem_of_In, Hx.
  - by apply IH.
Qed.

Lemma redeclared_elem bound names x : redeclared bound names = Some x → x ∈ names.
Proof.
  revert bound. induction names as [|y names IH]; intros bound; simpl; [done|].
  destruct (existsb (String.eqb y) bound).
  - intros [= ->]. apply list_elem_of_here.
  - intros H. apply list_elem_of_further. by eapply IH.
Qed.

Lemma declarationError_None bound names :
  declarationError bound names = None →
  redeclared bound names = None ∧ Forall (λ x, bindingName x = true) names.
Proof.
  revert bound. induction names as [|x names IH]; intros bound; simpl; [done|].
  destruct (bindingName x) eqn:Hb; simpl; [|done].
  destruct (existsb (String.eqb x) bound); [done|]. intros H.
  destruct (IH _ H) as [Hr Hf]. split; [done|]. by constructor.
Qed.

Lemma declarationError_binding bound names :
  Forall (λ x, bindingName x = true) names →
  declarationError bound names = option_map alreadyDeclared (redeclared bound names).
Proof.
  intros H. revert bound. induction H as [|x names Hx _ IH]; intros bound; simpl; [done|].
  rewrite Hx. simpl. by destruct (existsb (String.eqb x) bound).
Qed.

Lemma declarationError_app bound l1 l2 message :
  declarationError bound l1 = Some message →
  declarationError bound (l1 ++ l2) = Some message.
Proof.
  revert bound. induction l1 as [|x l1 IH]; intros bound; simpl; [done|].
  destruct (negb (bindingName x)); [done|].
  destruct (existsb (String.eqb x) bound); [done|]. apply IH.
Qed.

(** Two keys with one sanitized name: some declaration of the factory body
    is an error. *)
Lemma declarationError_collision bound deps d1 d2 :
  d1 ≠ d2 → d1 ∈ keys deps → d2 ∈ keys deps → safeName d1 = safeName d2 →
  ∃ message, declarationError bound (map safeName (keys deps)) = Some message.
Proof.
  intros Hne H1 H2 Hs.
  destruct (declarationError bound (map safeName (keys deps))) as [m|] eqn:Hd; [by eexists|].
  exfalso. apply declarationError_None in Hd as [Hr _].
  apply redeclared_None in Hr as [Hnd _].
  by apply Hne, (NoDup_fmap_eq safeName (keys deps)).
Qed.

Lemma dependencyVarsOf_names deps : map fst (dependencyVarsOf deps) = map safeName (keys deps).
Proof. unfold dependencyVarsOf. rewrite map_map. done. Qed.

Lemma FunctionConstructor_declarationError realm src deps message :
  dependencyVars src = dependencyVarsOf deps →
  declarationError ["React"; "dependencies"] (map safeName (keys deps)) = Some message →
  FunctionConstructor realm src = Throw (thrownIn realm (syntaxError message)).
Proof.
  intros Hv Hd. unfold FunctionConstructor.
  rewrite Hv, dependencyVarsOf_names.
  by rewrite (declarationError_app _ _ _ _ Hd).
Qed.

Lemma transformMultipleFiles_dependencyVars parse files deps auto st src :
  (transformMultipleFiles parse files deps auto st).1 = Normal src →
  dependencyVars src = dependencyVarsOf deps.
Proof.
  unfold transformMultipleFiles.
  destruct (secondPass _ _ _ _ _ _ _) as [[[]|e] st']; [|done].
  destruct (findEntry files) as [entryFile|]; [|done].
  destruct (assoc _ _); [|done]. by intros [= <-].
Qed.

(** C10, as the code has it.  When two distinct keys of one dependency map
    have the same sanitized name, the generated factory declares one [const]
    twice.  Some declaration at the start of its body is then an error, so
    the construction of the factory throws; when the keys can be quoted and
    their sanitized names are names that can be declared, it is the error
    for the first name declared twice.  [executeCode] returns no
    component: once the security check is passed and the transformation
    has returned, its error is the message of that syntax error when the
    factory is built by the host's [Function], and the fixed text for an
    unknown error when it is built by the [Function] of a sandbox window.
    No binding shadows another. *)
Theorem colliding_names_fail_construction
    (parse : string → completion Parsed) (stack : nat) (code : Code)
    (deps : Dependencies) (patterns : list RegExp) (bypass auto : bool) (react : value)
    (sw : option Window) (st : UtilsState) (d1 d2 : string) :
  d1 ≠ d2 → d1 ∈ keys deps → d2 ∈ keys deps → safeName d1 = safeName d2 →
  let names := map safeName (keys deps) in
  let r := result (executeCode parse stack code deps patterns bypass auto react sw st) in
  (∃ message,
     declarationError ["React"; "dependencies"] names = Some message ∧
     (Forall (λ dep, plainKey dep && bindingName (safeName dep) = true) (keys deps) →
      ∃ x, redeclared ["React"; "dependencies"] names = Some x ∧ x ∈ names ∧
           message = alreadyDeclared x) ∧
     (∀ src, (transformMultipleFiles parse (codeFilesOf code) deps auto st).1 = Normal src →
        FunctionConstructor sw src = Throw (thrownIn sw (syntaxError message)) ∧
        (passesSecurity (codeFilesOf code) patterns bypass →
         r = {| Component := None;
                error := Some (if sandboxRealm sw then "An unknown error occurred"
                               else message);
                forbiddenPatterns := false |}))) ∧
  Component r = None.
Proof.
  intros Hne H1 H2 Hs names r.
  destruct (declarationError_collision ["React"; "dependencies"] deps d1 d2 Hne H1 H2 Hs)
    as [message Hd].
  assert (Hc : ∀ src,
    (transformMultipleFiles parse (codeFilesOf code) deps auto st).1 = Normal src →
    FunctionConstructor sw src = Throw (thrownIn sw (syntaxError message))).
  { intros src Ht. apply (FunctionConstructor_declarationError _ _ deps); [|done].
    by eapply transformMultipleFiles_dependencyVars. }
  split.
  - exists message. split_and!; [done| |].
    + intros Hf. fold names in Hd.
      rewrite declarationError_binding in Hd.
      * destruct (redeclared _ names) as [x|] eqn:Hr; [|done].
        exists x. split_and!; [done|by eapply redeclared_elem|]. by injection Hd as <-.
      * subst names. apply Forall_forall. intros x Hx.
        apply list_elem_of_fmap in Hx as (dep & -> & Hdep).
        rewrite Forall_forall in Hf. specialize (Hf dep Hdep).
        by apply andb_true_iff in Hf as [_ Hf].
    + intros src Ht. split; [by apply Hc|]. intros Hp. subst r.
      rewrite (executeCode_passed _ _ _ _ _ _ _ _ _ _ Hp). unfold compileAndRun.
      destruct (transformMultipleFiles parse (codeFilesOf code) deps auto st)
        as [[src0|e] st']; [|done]. cbn [fst] in Ht, Hc. injection Ht as ->.
      cbn [fst bindC]. rewrite (Hc src eq_refl). cbn [bindC].
      apply errorResult_thrownIn.
  - subst r. unfold executeCode.
    destruct (if bypass then _ else _) as [[[file pattern]|] ps]; [done|].
    unfold compileAndRun.
    destruct (transformMultipleFiles parse (codeFilesOf code) deps auto st) as [[src|e] st'];
      simpl; [|done].
    by rewrite (Hc src eq_refl).
Qed.

(** C10 at [foo-bar] and [foo.bar], whose sanitized names coincide. *)
Lemma colliding_names_fail_construction_witness :
  safeName "foo-bar" = safeName "foo.bar" ∧
  Component (result (executeCode helloParse 64 (Source helloSource) collidingDependencies
                       defaultSecurityPatterns false true hostReact None emptyUtils)) = None.
Proof.
  split; [vm_compute; reflexivity|].
  apply (colliding_names_fail_construction helloParse 64 (Source helloSource)
           collidingDependencies defaultSecurityPatterns false true hostReact None emptyUtils
           "foo-bar" "foo.bar").
  - discriminate.
  - apply list_elem_of_here.
  - apply list_elem_of_further, list_elem_of_here.
  - vm_compute. reflexivity.
Defined.

(** C10: with [foo-bar] and [foo.bar] in one map the factory is not built.
    [executeCode] reports the syntax error when the host's [Function]
    builds it, and an unknown error when the [Function] of a sandbox window
    does, where with [foo-bar] alone it returns a component. *)
Lemma colliding_names_are_a_syntax_error :
  let run deps sw :=
    result (executeCode helloParse 64 (Source helloSource) deps
              defaultSecurityPatterns false true hostReact sw emptyUtils) in
  Component (run collidingDependencies None) = None ∧
  error (run collidingDependencies None)
  = Some "Identifier 'foo_bar' has already been declared" ∧
  Component (run collidingDependencies (Some (Frame 0))) = None ∧
  error (run collidingDependencies (Some (Frame 0))) = Some "An unknown error occurred" ∧
  is_some (Component (run [("foo-bar", VObject [])] None)) = true.
Proof. vm_compute. split_and!; reflexivity. Qed.

(** ** Insertion-ordered maps *)

Section Assoc.
Context {A : Type}.
Implicit Types (l : list (string * A)) (k : string) (a : A).

Lemma assoc_set_eq k a l : assoc k (assoc_set k a l) = Some a.
Proof.
  induction l as [|[k' a'] l IH]; simpl; [by rewrite String.eqb_refl|].
  destruct (String.eqb_spec k k') as [->|Hne]; simpl.
  - by rewrite String.eqb_refl.
  - by rewrite (eqb_false_ne _ _ Hne).
Qed.

Lemma assoc_set_ne k k' a l : k ≠ k' → assoc k (assoc_set k' a l) = assoc k l.
Proof.
  intros Hne. induction l as [|[k2 a2] l IH]; simpl.
  - by rewrite (eqb_false_ne _ _ Hne).
  - destruct (String.eqb_spec k' k2) as [->|Hne2]; simpl.
    + by rewrite (eqb_false_ne _ _ Hne).
    + by rewrite IH.
Qed.

Lemma assoc_set_keys k a l x :
  x ∈ map fst (assoc_set k a l) → x = k ∨ x ∈ map fst l.
Proof.
  induction l as [|[k2 a2] l IH]; simpl.
  - intros H. apply elem_of_cons in H as [->|H]; [by left|by apply elem_of_nil in H].
  - destruct (String.eqb_spec k k2) as [->|Hne]; simpl; intros H.
    + apply elem_of_cons in H as [->|H]; [by left|]. right. by apply list_elem_of_further.
    + apply elem_of_cons in H as [->|H]; [right; apply list_elem_of_here|].
      destruct (IH H) as [->|Hx]; [by left|right; by apply list_elem_of_further].
Qed.

Lemma assoc_set_NoDup k a l : NoDup (map fst l) → NoDup (map fst (assoc_set k a l)).
Proof.
  induction l as [|[k2 a2] l IH]; simpl; intros Hnd.
  - constructor; [apply not_elem_of_nil|constructor].
  - apply NoDup_cons in Hnd as [Hn Hnd].
    destruct (String.eqb_spec k k2) as [->|Hne]; simpl.
    + by constructor.
    + constructor; [|by apply IH]. intros Hin.
      apply assoc_set_keys in Hin as [->|Hin]; done.
Qed.

Lemma assoc_Some_elem k a l : assoc k l = Some a → (k, a) ∈ l.
Proof.
  induction l as [|[k2 a2] l IH]; simpl; [done|].
  destruct (String.eqb_spec k k2) as [->|Hne].
  - intros [= ->]. apply list_elem_of_here.
  - intros H. by apply list_elem_of_further, IH.
Qed.

End Assoc.

(** A map built by one [set] per element of a list. *)
Section Build.
Context {X A : Type} (key : X → string) (val : X → A).

Lemma build_other l acc k :
  k ∉ map key l → assoc k (build_from key val l acc) = assoc k acc.
Proof.
  revert acc. induction l as [|x l IH]; intros acc Hk; simpl; [done|].
  simpl in Hk. apply not_elem_of_cons in Hk as [Hne Hk].
  rewrite IH by done. by apply assoc_set_ne.
Qed.

Lemma build_member l acc x :
  NoDup (map key l) → x ∈ l → assoc (key x) (build_from key val l acc) = Some (val x).
Proof.
  revert acc. induction l as [|y l IH]; intros acc Hnd Hx; [by apply elem_of_nil in Hx|].
  simpl in *. apply NoDup_cons in Hnd as [Hn Hnd].
  apply elem_of_cons in Hx as [->|Hx].
  - rewrite build_other by done. apply assoc_set_eq.
  - by apply IH.
Qed.

End Build.


Lemma firstPass_build files :
  firstPass files = build_from name scanExports files [].
Proof. done. Qed.

Lemma normalizedModulePaths_build files :
  normalizedModulePaths files
  = build_from (λ f, normalizeFilename (name f)) name files [].
Proof. done. Qed.

(** ** The two passes *)

Lemma existsb_eqb_true (x : string) (l : list string) :
  existsb (String.eqb x) l = true ↔ x ∈ l.
Proof.
  induction l as [|y l IH]; simpl; [split; [done|by intros ?%elem_of_nil]|].
  rewrite orb_true_iff, IH, elem_of_cons. by rewrite String.eqb_eq.
Qed.


Section TwoPasses.
Variable parse : string → completion Parsed.



Lemma secondPass_other files deps ei auto todo st st' k :
  secondPass parse files deps ei auto todo st = (Normal tt, st') →
  k ∉ map name todo → assoc k (moduleCache st') = assoc k (moduleCache st).
Proof.
  revert st. induction todo as [|g todo IH]; intros st; simpl.
  - by intros [= <-].
  - destruct (transformFile parse files deps ei auto g) as [[m w]|e]; [|done].
    intros Hs Hk. apply not_elem_of_cons in Hk as [Hne Hk].
    rewrite (IH _ Hs Hk). simpl. by apply assoc_set_ne.
Qed.

Lemma secondPass_member files deps ei auto todo st st' f :
  secondPass parse files deps ei auto todo st = (Normal tt, st') →
  NoDup (map name todo) → f ∈ todo →
  ∃ m w, transformFile parse files deps ei auto f = Normal (m, w) ∧
         assoc (name f) (moduleCache st') = Some m.
Proof.
  revert st. induction todo as [|g todo IH]; intros st Hs Hnd Hf;
    [by apply elem_of_nil in Hf|].
  simpl in *. apply NoDup_cons in Hnd as [Hn Hnd].
  destruct (transformFile parse files deps ei auto g) as [[m w]|e] eqn:Ht; [|done].
  apply elem_of_cons in Hf as [->|Hf].
  - exists m, w. split; [done|].
    rewrite (secondPass_other _ _ _ _ _ _ _ _ Hs Hn). simpl. apply assoc_set_eq.
  - by eapply IH.
Qed.



Lemma transformMultipleFiles_Normal files deps auto st src st' :
  transformMultipleFiles parse files deps auto st = (Normal src, st') →
  secondPass parse files deps (firstPass files) auto files
    {| moduleCache := []; console := console st |} = (Normal tt, st') ∧
  ∃ entryFile, findEntry files = Some entryFile ∧
    src = {| dependencyVars := dependencyVarsOf deps;
             moduleDefinitions := map (moduleDefinitionOf files) (moduleCache st');
             entryModuleName := normalizeFilename (name entryFile) |}.
Proof.
  unfold transformMultipleFiles.
  destruct (secondPass _ _ _ _ _ _ _) as [[[]|e] st0]; [|done].
  destruct (findEntry files) as [entryFile|]; [|done].
  destruct (assoc _ _); [|done]. intros [= <- <-]. split; [done|]. by exists entryFile.
Qed.




End TwoPasses.


(** ** The entry module and the factory *)



Lemma definitionsMap_build src :
  definitionsMap src = build_from normalizedName id (moduleDefinitions src) [].
Proof. done. Qed.


Section Entry.
Variable parse : string → completion Parsed.

End Entry.

Lemma runFactory_spec stack src React deps :
  React ≠ VUndefined → React ≠ VNull →
  let entryModule :=
    (getModule stack (definitionsMap src) (readOuter (factoryScope src React deps))
       (entryModuleName src) []).1 in
  runFactory stack src React deps
  = Normal (match componentOf entryModule with
            | Normal C => C
            | Throw err => VErrorComponent err
            end).
Proof.
  intros H1 H2 entryModule. unfold runFactory, resolveEntry. fold entryModule.
  assert (∃ v, get_prop React "useState" = Normal v) as [v ->].
  { destruct React; simpl; try done; by eexists. }
  simpl. unfold componentOf. by destruct (bindC _ _).
Qed.



Lemma FunctionConstructor_Normal realm src factory :
  FunctionConstructor realm src = Normal factory → factory = src.
Proof.
  unfold FunctionConstructor. destruct (declarationError _ _); [done|].
  destruct (existsb _ (moduleDefinitions src)); [done|].
  destruct (existsb _ _); [done|]. by intros [= <-].
Qed.

(** Once the text is transformed and parsed, [executeCode] always has a
    component to return, and no error beside it. *)
Lemma executeCode_component parse stack code deps patterns bypass auto react sw st src :
  passesSecurity (codeFilesOf code) patterns bypass →
  (transformMultipleFiles parse (codeFilesOf code) deps auto st).1 = Normal src →
  FunctionConstructor sw src = Normal src →
  react ≠ VUndefined → react ≠ VNull →
  ∃ C, result (executeCode parse stack code deps patterns bypass auto react sw st)
       = {| Component := Some C; error := None; forbiddenPatterns := false |} ∧
       is_function C = true.
Proof.
  intros Hp Ht Hf H1 H2. rewrite (executeCode_passed _ _ _ _ _ _ _ _ _ _ Hp).
  unfold compileAndRun.
  destruct (transformMultipleFiles parse (codeFilesOf code) deps auto st) as [c st'].
  simpl in Ht. subst c. simpl. rewrite Hf. simpl.
  rewrite (runFactory_spec stack src react deps H1 H2). simpl.
  eexists. split; [done|].
  unfold componentOf. destruct (getModule _ _ _ _ _).1 as [instance|err]; simpl; [|done].
  destruct (get_prop instance "default") as [d|err]; simpl; [|done].
  by destruct (is_function (js_or d instance)) eqn:Hd.
Qed.


(** ** The resolver: clearing, failures, the request log *)

Lemma fetchSequence_primary net n pkg tw :
  ∃ rest, (fetchSequence net n pkg tw).2
          = {| req_realm := realmOf tw; req_url := cdnUrl pkg |} :: rest.
Proof.
  unfold fetchSequence. destruct (importOutcome net n (cdnUrl pkg) tw); [by eexists|].
  destruct (importOutcome net (S n) (fallbackUrl pkg) tw); by eexists.
Qed.

Lemma cacheOf_clear st realm : cacheOf (clearCDNCache st) realm = ∅.
Proof. destruct realm; simpl; [done|]. by rewrite lookup_empty. Qed.

(** X1.  [clearCDNCache] forgets every package in every realm: the caches are
    empty, the promises handed out stay as they were, and the next request
    for any package issues the esm.sh request again. *)
Theorem clear_forgets_every_package (net : Network) (st : CdnState) (pkg : string)
    (tw : option Window) :
  (∀ realm, cacheOf (clearCDNCache st) realm = ∅) ∧
  promises (clearCDNCache st) = promises st ∧
  let r := resolvePackageFromCDN net pkg tw (clearCDNCache st) in
  ∃ rest, requests r.2
          = requests st ++ {| req_realm := realmOf tw; req_url := cdnUrl pkg |} :: rest.
Proof.
  split; [apply cacheOf_clear|]. split; [done|]. intros r.
  destruct (resolve_miss net pkg tw (clearCDNCache st)) as (_ & _ & Hreq & _).
  - by rewrite cacheOf_clear.
  - destruct (fetchSequence_primary net (length (requests (clearCDNCache st))) pkg tw)
      as [rest Hrest].
    exists rest. subst r. by rewrite Hreq, Hrest.
Qed.

Lemma settled_adopted st c k tw o :
  promises st !! c = Some (Resolution k tw o) →
  settled {| GLOBAL_CDN_CACHE := GLOBAL_CDN_CACHE st; SANDBOX_CDN_CACHE := SANDBOX_CDN_CACHE st;
             promises := promises st ++ [Adopted c]; requests := requests st |}
    (length (promises st)) = Some o.
Proof.
  intros Hc. unfold settled. simpl.
  rewrite lookup_app_r by lia. rewrite Nat.sub_diag. simpl.
  by rewrite (lookup_app_l_Some _ _ _ _ Hc).
Qed.

Lemma resolve_miss_settled net pkg tw st :
  cacheOf st (realmOf tw) !! pkg = None →
  let r := resolvePackageFromCDN net pkg tw st in
  settled r.2 r.1 = Some (fetchSequence net (length (requests st)) pkg tw).1.
Proof.
  intros Hnone r. destruct (resolve_miss net pkg tw st Hnone) as (Hid & Hp & _ & _).
  fold r in Hid, Hp. unfold settled. rewrite Hid, Hp.
  rewrite lookup_app_r by lia.
  replace (S (length (promises st)) - length (promises st)) with 1 by lia. simpl.
  rewrite lookup_app_r by lia. by rewrite Nat.sub_diag.
Qed.

Lemma resolve_hit_settled net pkg tw st c k tw' o :
  cacheOf st (realmOf tw) !! pkg = Some c →
  promises st !! c = Some (Resolution k tw' o) →
  let r := resolvePackageFromCDN net pkg tw st in
  settled r.2 r.1 = Some o ∧ requests r.2 = requests st.
Proof.
  intros Hc Hp r. destruct (resolve_hit net pkg tw st c Hc) as (Hid & Hps & Hreq & _).
  fold r in Hid, Hps, Hreq. split; [|done].
  unfold settled. rewrite Hid, Hps.
  rewrite lookup_app_r by lia. rewrite Nat.sub_diag. simpl.
  by rewrite (lookup_app_l_Some _ _ _ _ Hp).
Qed.

(** X2.  A failed resolution stays in the cache.  When both registries fail
    for a package, the next request for it in the same realm gets the same
    composite error and issues no request, whatever the network would answer
    by then. *)
Theorem failed_resolution_is_not_retried (net net' : Network) (pkg : string)
    (tw : option Window) (st : CdnState) (e1 e2 : value) :
  cacheOf st (realmOf tw) !! pkg = None →
  importOutcome net (length (requests st)) (cdnUrl pkg) tw = Throw e1 →
  importOutcome net (S (length (requests st))) (fallbackUrl pkg) tw = Throw e2 →
  let r1 := resolvePackageFromCDN net pkg tw st in
  let r2 := resolvePackageFromCDN net' pkg tw r1.2 in
  settled r1.2 r1.1 = Some (Throw (compositeError pkg e1 e2)) ∧
  settled r2.2 r2.1 = Some (Throw (compositeError pkg e1 e2)) ∧
  requests r2.2 = requests r1.2.
Proof.
  intros Hnone H1 H2 r1 r2.
  pose proof (resolve_miss_settled net pkg tw st Hnone) as Hs. fold r1 in Hs.
  destruct (resolve_miss net pkg tw st Hnone) as (_ & Hp & _ & Hc). fold r1 in Hp, Hc.
  assert (Hfs : (fetchSequence net (length (requests st)) pkg tw).1
                = Throw (compositeError pkg e1 e2)).
  { unfold fetchSequence. by rewrite H1, H2. }
  rewrite Hfs in Hs, Hp. split; [done|].
  apply (resolve_hit_settled net' pkg tw r1.2 (length (promises st)) pkg tw).
  - rewrite Hc. rewrite decide_True by done. by rewrite lookup_insert_eq.
  - rewrite Hp. rewrite lookup_app_r by lia. by rewrite Nat.sub_diag.
Qed.

(** X2 on a network that is down for the first request and up for the second. *)
Lemma failed_resolution_is_not_retried_witness :
  let r1 := resolvePackageFromCDN offline "left-pad" None emptyCdn in
  let r2 := resolvePackageFromCDN online "left-pad" None r1.2 in
  (∃ e, settled r2.2 r2.1 = Some (Throw e)) ∧ length (requests r2.2) = 2.
Proof.
  intros r1 r2.
  destruct (failed_resolution_is_not_retried offline online "left-pad" None emptyCdn
              (VError ("Failed to fetch dynamically imported module: " +:+ cdnUrl "left-pad"))
              (VError ("Failed to fetch dynamically imported module: " +:+ fallbackUrl "left-pad")))
    as (_ & H2 & H3); [reflexivity..|].
  split; [eexists; exact H2|]. fold r1 r2 in H3. rewrite H3. reflexivity.
Defined.

(** *** The promise store *)

Lemma promises_sound_empty net : promises_sound net emptyCdn.
Proof. split; intros p; simpl; intros; by rewrite lookup_nil in *. Qed.

Lemma promises_sound_extend net st st' (new : list Promise) :
  promises st' = promises st ++ new →
  promises_sound net st →
  (∀ i P, new !! i = Some P →
     match P with
     | Resolution k tw o => ∃ n, o = (fetchSequence net n k tw).1
     | Adopted q => ∃ k tw o, promises st' !! q = Some (Resolution k tw o)
     | Pending _ _ _ => False
     end) →
  promises_sound net st'.
Proof.
  intros Hp [Hs1 Hs2] Hnew. split.
  - intros p k tw o. rewrite Hp. intros [H|[_ H]]%lookup_app_Some; [by eapply Hs1|].
    exact (Hnew _ _ H).
  - intros p q. rewrite Hp. intros [H|[_ H]]%lookup_app_Some.
    + destruct (Hs2 _ _ H) as (k & tw & o & Hq). exists k, tw, o.
      by apply lookup_app_l_Some.
    + rewrite <- Hp. exact (Hnew _ _ H).
Qed.

Lemma promises_sound_resolve net pkg tw st :
  cache_sound st → promises_sound net st →
  promises_sound net (resolvePackageFromCDN net pkg tw st).2.
Proof.
  intros Hc Hs.
  destruct (cacheOf st (realmOf tw) !! pkg) as [c|] eqn:E.
  - destruct (resolve_hit net pkg tw st c E) as (_ & Hp & _ & _).
    eapply promises_sound_extend; [exact Hp|done|].
    intros [|i] P HP; simplify_eq/=.
    destruct (Hc _ _ _ E) as (tw' & o & Hres & _).
    exists pkg, tw', o. rewrite Hp. by apply lookup_app_l_Some.
  - destruct (resolve_miss net pkg tw st E) as (_ & Hp & _ & _).
    eapply promises_sound_extend; [exact Hp|done|].
    intros [|[|i]] P HP; simplify_eq/=.
    + by eexists.
    + eexists pkg, tw, _. rewrite Hp.
      rewrite lookup_app_r by lia. by rewrite Nat.sub_diag.
Qed.

Lemma cdn_run_snoc net calls c :
  cdn_run net (calls ++ [c]) = cdn_step net (cdn_run net calls) c.
Proof. unfold cdn_run. by rewrite fold_left_app. Qed.

Lemma promises_sound_run net calls : promises_sound net (cdn_run net calls).
Proof.
  induction calls as [|c calls IH] using rev_ind; [apply promises_sound_empty|].
  rewrite cdn_run_snoc. destruct c as [pkg tw|]; simpl.
  - apply promises_sound_resolve; [apply cache_sound_run|done].
  - exact IH.
Qed.

Lemma settled_fetch net calls p o :
  settled (cdn_run net calls) p = Some o →
  ∃ k tw n, o = (fetchSequence net n k tw).1.
Proof.
  destruct (promises_sound_run net calls) as [H1 H2]. unfold settled.
  destruct (promises (cdn_run net calls) !! p) as [[k tw o'|q|k tw o']|] eqn:E; [| |done|done].
  - intros [= <-]. destruct (H1 _ _ _ _ E) as [n ->]. by exists k, tw, n.
  - destruct (H2 _ _ E) as (k & tw & o' & Hq). rewrite Hq. intros [= <-].
    destruct (H1 _ _ _ _ Hq) as [n ->]. by exists k, tw, n.
Qed.

Lemma fetchSequence_Throw net n k tw e :
  (fetchSequence net n k tw).1 = Throw e →
  ∃ e1 e2, e = compositeError k e1 e2 ∧
    importOutcome net n (cdnUrl k) tw = Throw e1 ∧
    importOutcome net (S n) (fallbackUrl k) tw = Throw e2.
Proof.
  unfold fetchSequence.
  destruct (importOutcome net n (cdnUrl k) tw) as [|e1]; [done|].
  destruct (importOutcome net (S n) (fallbackUrl k) tw) as [|e2]; [done|].
  simpl. intros [= <-]. by exists e1, e2.
Qed.

Lemma fetchSequence_Normal net n k tw m :
  (fetchSequence net n k tw).1 = Normal m →
  importOutcome net n (cdnUrl k) tw = Normal m ∨
  ∃ e1, importOutcome net n (cdnUrl k) tw = Throw e1 ∧
        importOutcome net (S n) (fallbackUrl k) tw = Normal m.
Proof.
  unfold fetchSequence.
  destruct (importOutcome net n (cdnUrl k) tw) as [m1|e1]; [simpl; intros [= <-]; by left|].
  destruct (importOutcome net (S n) (fallbackUrl k) tw) as [m2|e2]; [|done].
  simpl. intros [= <-]. right. by exists e1.
Qed.

(** X3.  Whatever calls were made, a promise of the resolver that is rejected
    is rejected with an [Error] made by [resolvePackageFromCDN] itself: its
    message names the package and carries the messages of the two failed
    imports, the esm.sh one and the jsDelivr one that followed it. *)
Theorem rejection_is_composite (net : Network) (calls : list CdnCall) (p : PromiseId)
    (e : value) :
  settled (cdn_run net calls) p = Some (Throw e) →
  instanceofError e = true ∧
  ∃ pkg tw n e1 e2,
    e = compositeError pkg e1 e2 ∧
    importOutcome net n (cdnUrl pkg) tw = Throw e1 ∧
    importOutcome net (S n) (fallbackUrl pkg) tw = Throw e2 ∧
    includes (error_text e) pkg = true ∧
    includes (error_text e) (error_text e1) = true ∧
    includes (error_text e) (error_text e2) = true.
Proof.
  intros Hs.
  destruct (settled_fetch net calls p _ Hs) as (k & tw & n & Hfs).
  symmetry in Hfs. apply fetchSequence_Throw in Hfs as (e1 & e2 & -> & H1 & H2).
  split; [done|]. exists k, tw, n, e1, e2. split_and!; try done.
  - unfold compositeError. cbn [error_text]. apply includes_app_r. apply includes_app_l.
  - apply compositeError_names.
  - apply compositeError_names.
Qed.

(** X3 at the rejection of [left-pad] on a network that is down. *)
Lemma rejection_is_composite_witness :
  instanceofError
    (compositeError "left-pad"
       (VError ("Failed to fetch dynamically imported module: " +:+ cdnUrl "left-pad"))
       (VError ("Failed to fetch dynamically imported module: " +:+ fallbackUrl "left-pad")))
  = true.
Proof.
  exact (proj1 (rejection_is_composite offline [CallResolve "left-pad" None] 1 _ eq_refl)).
Defined.

(** X4.  A promise of the resolver that is fulfilled carries what one of the
    two registries answered for its package, the jsDelivr answer only after
    the esm.sh import had failed. *)
Theorem fulfilment_is_a_registry_answer (net : Network) (calls : list CdnCall)
    (p : PromiseId) (m : value) :
  settled (cdn_run net calls) p = Some (Normal m) →
  ∃ pkg tw n,
    importOutcome net n (cdnUrl pkg) tw = Normal m ∨
    ∃ e1, importOutcome net n (cdnUrl pkg) tw = Throw e1 ∧
          importOutcome net (S n) (fallbackUrl pkg) tw = Normal m.
Proof.
  intros Hs.
  destruct (settled_fetch net calls p _ Hs) as (k & tw & n & Hfs).
  exists k, tw, n. symmetry in Hfs. by apply fetchSequence_Normal.
Qed.

(** *** The request log *)

Lemma sequenced_fetch net l pkg tw :
  sequenced net l → sequenced net (l ++ (fetchSequence net (length l) pkg tw).2).
Proof.
  intros Hl. unfold fetchSequence.
  destruct (importOutcome net (length l) (cdnUrl pkg) tw) as [m|e1] eqn:E1.
  - by eapply sequenced_primary.
  - destruct (importOutcome net (S (length l)) (fallbackUrl pkg) tw);
      by eapply sequenced_fallback.
Qed.

Lemma sequenced_resolve net pkg tw st :
  sequenced net (requests st) →
  sequenced net (requests (resolvePackageFromCDN net pkg tw st).2).
Proof.
  intros Hs. destruct (cacheOf st (realmOf tw) !! pkg) as [c|] eqn:E.
  - destruct (resolve_hit net pkg tw st c E) as (_ & _ & -> & _). done.
  - destruct (resolve_miss net pkg tw st E) as (_ & _ & -> & _).
    by apply sequenced_fetch.
Qed.

Lemma sequenced_run net calls : sequenced net (requests (cdn_run net calls)).
Proof.
  induction calls as [|c calls IH] using rev_ind; [constructor|].
  rewrite cdn_run_snoc. destruct c as [pkg tw|]; simpl; [|done].
  by apply sequenced_resolve.
Qed.

Lemma cdn_trace_snoc net events ev :
  cdn_trace net (events ++ [ev]) = cdn_react net (cdn_trace net events) ev.
Proof. unfold cdn_trace. by rewrite fold_left_app. Qed.

Lemma accounted_primary net log tw pkg :
  accounted net log → accounted net (log ++ [primaryRequest tw pkg]).
Proof.
  intros H i r [Hi|[_ Hi]]%lookup_app_Some.
  - destruct (H i r Hi) as [Hp|(k & tw' & j & e & Hj & Hl & Ho & ->)]; [by left|right].
    exists k, tw', j, e. split_and!; try done. by apply lookup_app_l_Some.
  - left. exists pkg, tw. destruct (i - length log) as [|n]; simpl in Hi; [|done].
    by injection Hi as <-.
Qed.

Lemma accounted_fallback net log tw pkg j e :
  accounted net log →
  log !! j = Some (primaryRequest tw pkg) →
  importOutcome net j (cdnUrl pkg) tw = Throw e →
  accounted net (log ++ [fallbackRequest tw pkg]).
Proof.
  intros H Hj He i r [Hi|[Hlen Hi]]%lookup_app_Some.
  - destruct (H i r Hi) as [Hp|(k & tw' & j' & e' & Hj' & Hl & Ho & ->)]; [by left|right].
    exists k, tw', j', e'. split_and!; try done. by apply lookup_app_l_Some.
  - right. exists pkg, tw, j, e.
    destruct (i - length log) as [|n] eqn:En; simpl in Hi; [|done]. injection Hi as <-.
    apply lookup_lt_Some in Hj as Hlt. split_and!; [lia| |done|done].
    by apply lookup_app_l_Some.
Qed.

(** However the calls and the answers interleave, the log is accounted
    for, and so is every closure that waits. *)
Lemma trace_accounted net events :
  accounted net (requests (cdn_trace net events)) ∧ pending_sound net (cdn_trace net events).
Proof.
  induction events as [|ev events [Ha Hp]] using rev_ind.
  - split; [intros i r Hi|intros p pkg tw o Hp]; unfold cdn_trace in *; simpl in *;
      by rewrite lookup_nil in *.
  - rewrite cdn_trace_snoc. set (st := cdn_trace net events) in *.
    destruct ev as [pkg tw|p|]; simpl.
    + destruct (cacheOf st (realmOf tw) !! pkg) as [c|] eqn:E.
      * destruct (start_hit_spec net pkg tw st c E) as (_ & Hprom & Hreq & _).
        rewrite Hreq. split; [done|].
        intros p k tw' o. rewrite Hprom, Hreq.
        intros [Hl|[_ Hl]]%lookup_app_Some; [by eapply Hp|].
        by destruct (p - length (promises st)) as [|[|n]].
      * destruct (start_miss net pkg tw st E) as (_ & Hprom & Hreq & _).
        rewrite Hreq. split; [by apply accounted_primary|].
        intros p k tw' o. rewrite Hprom, Hreq.
        intros [Hl|[_ Hl]]%lookup_app_Some.
        -- destruct (Hp _ _ _ _ Hl) as (j & Hj & Ho). exists j.
           split; [by apply lookup_app_l_Some|done].
        -- destruct (p - length (promises st)) as [|[|n]]; simpl in Hl; [|done|done].
           injection Hl as <- <- <-. exists (length (requests st)).
           split; [|done]. rewrite lookup_app_r by lia. by rewrite Nat.sub_diag.
    + destruct (promises st !! p) as [[k tw o|q|k tw o]|] eqn:E;
        try (rewrite resume_idle by (intros ???; congruence); by split).
      destruct (resume_pending net p st k tw o E) as ([o' Hprom] & Hreq & _).
      destruct (Hp _ _ _ _ E) as (j & Hj & Ho).
      split.
      * rewrite Hreq. unfold fallbacksOf. cbn [flat_map snd]. rewrite E.
        destruct o as [m|e]; [by rewrite !app_nil_r|].
        cbn [app]. by eapply accounted_fallback.
      * intros p' k' tw' o''. rewrite Hprom.
        destruct (decide (p = p')) as [<-|Hne].
        -- rewrite list_lookup_insert_eq by (by eapply lookup_lt_Some). done.
        -- rewrite list_lookup_insert_ne by done. intros Hl.
           destruct (Hp _ _ _ _ Hl) as (j' & Hj' & Ho'). exists j'.
           split; [|done]. rewrite Hreq. by apply lookup_app_l_Some.
    + done.
Qed.

(** Calls that are awaited one by one are one of the interleavings. *)
Lemma run_is_trace net calls : ∃ events, cdn_run net calls = cdn_trace net events.
Proof.
  induction calls as [|c calls [events IH]] using rev_ind; [by exists []|].
  rewrite cdn_run_snoc, IH. destruct c as [pkg tw|]; simpl.
  - destruct (cacheOf (cdn_trace net events) (realmOf tw) !! pkg) as [c|] eqn:E.
    + exists (events ++ [Called pkg tw]). rewrite cdn_trace_snoc. simpl.
      by rewrite (start_hit _ _ _ _ _ E).
    + exists ((events ++ [Called pkg tw])
               ++ [Answered (length (promises (cdn_trace net events)))]).
      rewrite !cdn_trace_snoc. simpl.
      by rewrite (resolve_start_resume _ _ _ _ E).
  - exists (events ++ [Cleared]). by rewrite cdn_trace_snoc.
Qed.

(** X5.  The shape of the import log.  When every call is awaited before the
    next, the log is a sequence of blocks: the esm.sh URL of a package
    alone when that import succeeded, or followed at once by the jsDelivr
    URL of the same package for the same window when it failed.  When calls
    overlap, as those of one run of the component do, the blocks
    interleave: every import asked for is still the esm.sh import of a
    package, or the jsDelivr import of a package whose esm.sh import was
    asked for before and failed, but the second need not follow the first
    at once.  Two packages asked for together on a network that is down
    give the two esm.sh imports and then the two jsDelivr ones. *)
Theorem import_log_shape (net : Network) :
  (∀ calls, sequenced net (requests (cdn_run net calls)) ∧
            ∃ events, cdn_run net calls = cdn_trace net events) ∧
  (∀ events, accounted net (requests (cdn_trace net events))) ∧
  requests (cdn_trace offline [Called "a" None; Called "b" None; Answered 0; Answered 2])
  = [primaryRequest None "a"; primaryRequest None "b";
     fallbackRequest None "a"; fallbackRequest None "b"].
Proof.
  split_and!.
  - intros calls. split; [apply sequenced_run|apply run_is_trace].
  - intros events. apply trace_accounted.
  - vm_compute. reflexivity.
Qed.

(** *** [preloadPackage] *)

(** X6.  [preloadPackage] returns when the resolution has settled, and throws
    what it was rejected with; the next [resolvePackageFromCDN] of the
    package in the same realm settles the same way without a request. *)
Theorem preload_then_resolve (net : Network) (calls : list CdnCall) (pkg : string)
    (tw : option Window) :
  let st := cdn_run net calls in
  let pre := preloadPackage net pkg tw st in
  let r := resolvePackageFromCDN net pkg tw pre.2 in
  ∃ o, settled r.2 r.1 = Some o ∧
       pre.1 = Some (_ ← o;;; Normal tt) ∧
       requests r.2 = requests pre.2.
Proof.
  intros st pre r.
  pose proof (cache_sound_run net calls) as Hsound. fold st in Hsound.
  assert (Hpre2 : pre.2 = (resolvePackageFromCDN net pkg tw st).2).
  { subst pre. unfold preloadPackage. by destruct (resolvePackageFromCDN net pkg tw st). }
  destruct (resolve_returns net pkg tw st Hsound) as (c & tw' & o & Hp & Hc & Hres & _).
  rewrite <- Hpre2 in Hc, Hres.
  destruct (resolve_hit_settled net pkg tw pre.2 c pkg tw' o Hc Hres) as [Hs Hreq].
  fold r in Hs, Hreq. exists o. split_and!; [done| |done].
  subst pre. unfold preloadPackage.
  destruct (resolvePackageFromCDN net pkg tw st) as [p st1] eqn:E. simpl in *.
  unfold settled. rewrite Hp. rewrite Hpre2 in Hres. simpl in Hres. rewrite Hres.
  by destruct o.
Qed.

(** X4 at the resolution of [left-pad] on a network that answers. *)
Lemma fulfilment_is_a_registry_answer_witness :
  ∃ pkg tw n,
    importOutcome online n (cdnUrl pkg) tw
    = Normal (VObject [("default", VFunction (cdnUrl "left-pad") [])]) ∨
    ∃ e1, importOutcome online n (cdnUrl pkg) tw = Throw e1 ∧
          importOutcome online (S n) (fallbackUrl pkg) tw
          = Normal (VObject [("default", VFunction (cdnUrl "left-pad") [])]).
Proof.
  exact (fulfilment_is_a_registry_answer online [CallResolve "left-pad" None] 1 _ eq_refl).
Defined.

(** ** The module registry of the factory *)

Lemma cache_le_refl c : cache_le c c.
Proof. by intros k v. Qed.

Lemma cache_le_trans c1 c2 c3 : cache_le c1 c2 → cache_le c2 c3 → cache_le c1 c3.
Proof. intros H1 H2 k v Hk. by apply H2, H1. Qed.

Lemma runProg_cache_le {A} gm outer (p : prog A) :
  (∀ n c, cache_le c (gm n c).2) →
  ∀ c, cache_le c (runProg gm outer p c).2.
Proof.
  intros Hgm. induction p as [a|e|n k IH|x k IH]; intros c; simpl.
  - apply cache_le_refl.
  - apply cache_le_refl.
  - specialize (Hgm n c). destruct (gm n c) as [r c'] eqn:E. simpl in Hgm.
    eapply cache_le_trans; [exact Hgm|apply IH].
  - apply IH.
Qed.

Lemma getModule_cache_le depth defs outer :
  ∀ name0 c, cache_le c (getModule depth defs outer name0 c).2.
Proof.
  induction depth as [|depth IH]; intros name0 c; simpl.
  - destruct (assoc name0 c); [apply cache_le_refl|].
    destruct (assoc name0 defs); apply cache_le_refl.
  - destruct (assoc name0 c) eqn:Ec; [apply cache_le_refl|].
    destruct (assoc name0 defs) as [d|]; [|apply cache_le_refl].
    pose proof (runProg_cache_le (getModule depth defs outer) outer (moduleFactory d) IH c) as Hle.
    destruct (runProg (getModule depth defs outer) outer (moduleFactory d) c) as [[m|e] c'];
      simpl in *; [|done].
    destruct (has_exports_type m); simpl; [|done].
    intros k v Hk. rewrite assoc_set_ne; [by apply Hle|].
    intros ->. congruence.
Qed.

Lemma getModule_cached depth defs outer name0 c v :
  assoc name0 c = Some v → getModule depth defs outer name0 c = (Normal v, c).
Proof. intros H. destruct depth; simpl; by rewrite H. Qed.

(** X7.  [getModule] instantiates a module at most once.  When it returns an
    instance, the registry holds that instance under the name, every later
    call with that name returns it without running any module code, and the
    instances that were in the registry before the call are all still there
    unchanged, also when the call throws. *)
Theorem getModule_memoizes (depth : nat) (definitions : list (string * ModuleDefinition))
    (outer : string → completion value) (name0 : string) (cache : list (string * value)) :
  let r := getModule depth definitions outer name0 cache in
  (∀ k v, assoc k cache = Some v → assoc k r.2 = Some v) ∧
  (∀ exports, r.1 = Normal exports →
     assoc name0 r.2 = Some exports ∧
     ∀ depth' definitions' outer',
       getModule depth' definitions' outer' name0 r.2 = (Normal exports, r.2)).
Proof.
  intros r. split; [apply getModule_cache_le|].
  intros exports Hr.
  assert (Hin : assoc name0 r.2 = Some exports).
  { subst r. destruct depth as [|depth]; simpl in *.
    - destruct (assoc name0 cache) eqn:Ec; [by simplify_eq/=|].
      by destruct (assoc name0 definitions).
    - destruct (assoc name0 cache) eqn:Ec; [by simplify_eq/=|].
      destruct (assoc name0 definitions) as [d|]; [|done].
      destruct (runProg (getModule depth definitions outer) outer (moduleFactory d) cache)
        as [[m|e] c']; [|done].
      destruct (has_exports_type m); [|done]. simpl in *. simplify_eq.
      apply assoc_set_eq. }
  split; [done|]. intros. by apply getModule_cached.
Qed.

(** ** The epilogue of a module definition *)

Lemma runProg_bindP {A B} gm outer (p : prog A) (f : A → prog B) c :
  runProg gm outer (bindP p f) c
  = match runProg gm outer p c with
    | (Normal a, c') => runProg gm outer (f a) c'
    | (Throw e, c') => (Throw e, c')
    end.
Proof.
  revert c. induction p as [a|e|n k IH|x k IH]; intros c; simpl; try done.
  destruct (gm n c) as [r c']. apply IH.
Qed.

Lemma runProg_typeofIdentifier gm outer x sc c :
  runProg gm outer (typeofIdentifier x sc) c = (Normal (typeofOperand outer x sc), c).
Proof.
  unfold typeofIdentifier, typeofOperand. destruct (assoc x (bindings sc)); [done|].
  simpl. by destruct (outer x).
Qed.

Lemma runProg_ExportNamed gm outer x sc c :
  runProg gm outer (execSetup (ExportNamed x) sc) c
  = (Normal (match typeofOperand outer x sc with
             | VUndefined => sc
             | v => assign_export x v sc
             end), c).
Proof.
  unfold execSetup. rewrite runProg_bindP, runProg_typeofIdentifier.
  by destruct (typeofOperand outer x sc).
Qed.

Lemma runProg_named gm outer named : ∀ sc c,
  ∃ sc', runProg gm outer (execSetups (map ExportNamed named) sc) c = (Normal sc', c) ∧
    bindings sc' = bindings sc ∧ reassigned sc' = reassigned sc ∧
    ∀ y v, assoc y (bindings sc) = Some v → v ≠ VUndefined →
      y ∈ named ∨ assoc y (exportsObject sc) = Some v →
      assoc y (exportsObject sc') = Some v.
Proof.
  induction named as [|x named IH]; intros sc c.
  - exists sc. split_and!; try done. intros y v _ _ [H|H]; [|done]. by apply elem_of_nil in H.
  - cbn [map execSetups]. rewrite runProg_bindP, runProg_ExportNamed.
    set (sc1 := match typeofOperand outer x sc with
                | VUndefined => sc | v => assign_export x v sc end).
    assert (Hb : bindings sc1 = bindings sc) by (subst sc1; by destruct (typeofOperand outer x sc)).
    assert (Hr : reassigned sc1 = reassigned sc) by (subst sc1; by destruct (typeofOperand outer x sc)).
    destruct (IH sc1 c) as (sc' & Hrun & Hb' & Hr' & Hexp).
    exists sc'. split_and!; [done|congruence|congruence|].
    intros y v Hy Hv Hor. apply Hexp; [by rewrite Hb|done|].
    destruct (decide (y = x)) as [->|Hne].
    + right. subst sc1. unfold typeofOperand. rewrite Hy.
      destruct v; try done; simpl; apply assoc_set_eq.
    + destruct Hor as [Hin|Heo].
      { left. apply elem_of_cons in Hin as [?|?]; done. }
      right.
      subst sc1. destruct (typeofOperand outer x sc); try done; simpl;
        by rewrite assoc_set_ne.
Qed.

Lemma Object_assign_other a k v y :
  y ≠ k → y ∉ map fst (own_props a) →
  get_prop (Object_assign a (VObject [(k, v)])) y = Normal VUndefined.
Proof.
  intros Hne Hnot. unfold Object_assign, get_prop. f_equal.
  change (fold_left _ ?l []) with (build_from (A:=value) fst snd l []).
  rewrite build_other; [done|]. cbn [own_props]. rewrite map_app.
  apply not_elem_of_app. split; [done|]. simpl.
  apply not_elem_of_cons. split; [done|apply not_elem_of_nil].
Qed.

Lemma Object_assign_last a k v :
  get_prop (Object_assign a (VObject [(k, v)])) k = Normal v.
Proof.
  unfold Object_assign, get_prop. cbn [own_props]. rewrite fold_left_app. simpl.
  by rewrite assoc_set_eq.
Qed.

(** X8.  A module with a default export that is a function loses its named
    exports.  The epilogue replaces [module.exports] by a copy that has
    [default], and assigns the named exports to the object [exports] still
    points to; the instance the definition returns is the copy, so a name
    that was not on [module.exports] before the epilogue reads [undefined]
    on it, exported or not. *)
Theorem default_export_hides_named_exports
    (gm : string → list (string * value) → completion value * list (string * value))
    (outer : string → completion value) (d : ModuleDefinition)
    (cache cache' : list (string * value)) (sc : ModuleScope) (x : string) (f : value)
    (named : list string) :
  runProg gm outer (execStatements (def_code d) emptyScope) cache = (Normal sc, cache') →
  exportsSetup d = ExportDefault x :: map ExportNamed named →
  assoc x (bindings sc) = Some f →
  is_function f = true →
  ∃ instance,
    runProg gm outer (moduleFactory d) cache = (Normal instance, cache') ∧
    get_prop instance "default" = Normal f ∧
    ∀ y, y ≠ "default" → y ∉ map fst (own_props (module_exports sc)) →
         get_prop instance y = Normal VUndefined.
Proof.
  intros Hcode Hsetup Hx Hf. unfold moduleFactory.
  rewrite runProg_bindP, Hcode, runProg_bindP, Hsetup.
  cbn [execSetups]. rewrite runProg_bindP.
  unfold execSetup at 1. unfold lookupIdentifier. rewrite Hx. cbn [bindP runProg].
  rewrite Hf.
  set (sc1 := assign_module_exports _ _).
  destruct (runProg_named gm outer named sc1 cache') as (sc' & -> & _ & Hr & _).
  eexists. split; [reflexivity|].
  unfold module_exports at 1 3. rewrite Hr. subst sc1. cbn [assign_module_exports reassigned default].
  split; [apply Object_assign_last|].
  intros y Hy Hnot. apply Object_assign_other; [done|].
  unfold module_exports in *. cbn [assign_export reassigned exportsObject].
  destruct (reassigned sc); [done|]. cbn [default own_props] in *.
  intros Hin. apply assoc_set_keys in Hin as [?|?]; done.
Qed.

(** X9.  Without a default export the named exports are on the instance: when
    the module code left [module.exports] alone, every exported name bound
    to a value other than [undefined] reads that value. *)
Theorem named_exports_are_on_the_instance
    (gm : string → list (string * value) → completion value * list (string * value))
    (outer : string → completion value) (d : ModuleDefinition)
    (cache cache' : list (string * value)) (sc : ModuleScope) (named : list string)
    (y : string) (v : value) :
  runProg gm outer (execStatements (def_code d) emptyScope) cache = (Normal sc, cache') →
  exportsSetup d = map ExportNamed named →
  reassigned sc = None →
  y ∈ named → assoc y (bindings sc) = Some v → v ≠ VUndefined →
  ∃ instance,
    runProg gm outer (moduleFactory d) cache = (Normal instance, cache') ∧
    get_prop instance y = Normal v.
Proof.
  intros Hcode Hsetup Hr Hy Hv Hne. unfold moduleFactory.
  rewrite runProg_bindP, Hcode, runProg_bindP, Hsetup.
  destruct (runProg_named gm outer named sc cache') as (sc' & -> & _ & Hr' & Hexp).
  eexists. split; [reflexivity|].
  unfold module_exports. rewrite Hr', Hr. simpl.
  by rewrite (Hexp y v Hv Hne (or_introl Hy)).
Qed.

(** X8 at a file with a default export and the named export [helper]. *)
Lemma default_export_hides_named_exports_witness :
  exportsSetup (firstDefinition mixedParse mixedFiles) = [ExportDefault "App"; ExportNamed "helper"] ∧
  ∃ instance,
    runProg noModules (readOuter []) (moduleFactory (firstDefinition mixedParse mixedFiles)) []
    = (Normal instance, []) ∧
    get_prop instance "default" = Normal (VFunction "App" []) ∧
    get_prop instance "helper" = Normal VUndefined.
Proof.
  split; [vm_compute; reflexivity|].
  destruct (default_export_hides_named_exports noModules (readOuter [])
              (firstDefinition mixedParse mixedFiles) [] []
              {| bindings := [("helper", VFunction "helper" []); ("App", VFunction "App" [])];
                 exportsObject := []; reassigned := None |}
              "App" (VFunction "App" []) ["helper"])
    as (instance & Hrun & Hdefault & Hother); [vm_compute; reflexivity..|].
  exists instance. split_and!; [done..|].
  apply Hother; [done|]. simpl. apply not_elem_of_nil.
Defined.

(** X9 at a file with the named export [helper] only. *)
Lemma named_exports_are_on_the_instance_witness :
  ∃ instance,
    runProg noModules (readOuter []) (moduleFactory (firstDefinition namedParse namedFiles)) []
    = (Normal instance, []) ∧
    get_prop instance "helper" = Normal (VFunction "helper" []).
Proof.
  apply (named_exports_are_on_the_instance noModules (readOuter [])
           (firstDefinition namedParse namedFiles) [] []
           {| bindings := [("helper", VFunction "helper" [])];
              exportsObject := []; reassigned := None |} ["helper"]);
    [vm_compute; reflexivity..| | |].
  - apply list_elem_of_here.
  - reflexivity.
  - discriminate.
Defined.

(** ** Sanitized names *)

Lemma search_unsafe pos s :
  search false unsafeCharRegex pos s
  = match s with
    | EmptyString => None
    | String a s' =>
        if safe_char a then search false unsafeCharRegex (S pos) s'
        else Some {| m_start := pos; m_end := S pos; m_caps := [] |}
    end.
Proof.
  destruct s as [|a s']; [done|]. cbn [search]. unfold unsafeCharRegex at 1.
  cbn [rmatch]. unfold safe_char. by destruct (in_ranges false a alnum_).
Qed.

Lemma search_unsafe_bounds s : ∀ pos m,
  search false unsafeCharRegex pos s = Some m →
  pos ≤ m_start m ∧ m_end m = S (m_start m).
Proof.
  induction s as [|a s IH]; intros pos m; rewrite search_unsafe; [done|].
  destruct (safe_char a).
  - intros H. apply IH in H. lia.
  - intros [= <-]. simpl. lia.
Qed.

Lemma take_str_S n c s : take_str (S n) (String c s) = String c (take_str n s).
Proof. done. Qed.

Lemma replace_unsafe_cons fuel pos a s :
  safe_char a = true →
  replace_from (S fuel) unsafeCharRegex [Lit "_"] pos (String a s)
  = String a (replace_from (S fuel) unsafeCharRegex [Lit "_"] (S pos) s).
Proof.
  intros Ha. cbn [replace_from]. rewrite (search_unsafe pos (String a s)), Ha.
  destruct (search false unsafeCharRegex (S pos) s) as [m|] eqn:E; [|done].
  destruct (search_unsafe_bounds _ _ _ E) as [Hle Hend].
  rewrite Hend.
  replace (m_start m - pos) with (S (m_start m - S pos)) by lia.
  replace (S (m_start m) - pos) with (S (S (m_start m) - S pos)) by lia.
  destruct (S (m_start m) <=? m_start m) eqn:Hcmp; [apply Nat.leb_le in Hcmp; lia|].
  done.
Qed.

Lemma replace_unsafe s : ∀ fuel pos,
  String.length s < fuel →
  replace_from fuel unsafeCharRegex [Lit "_"] pos s = map_chars sanitize s.
Proof.
  induction s as [|a s IH]; intros fuel pos Hlen.
  - destruct fuel; [simpl in Hlen; lia|done].
  - destruct fuel as [|fuel]; [simpl in Hlen; lia|]. simpl in Hlen.
    cbn [map_chars]. unfold sanitize at 1. destruct (safe_char a) eqn:Ha.
    + rewrite replace_unsafe_cons by done. f_equal. apply IH. simpl. lia.
    + cbn [replace_from]. rewrite (search_unsafe pos (String a s)), Ha.
      cbn [m_start m_end]. rewrite (proj2 (Nat.leb_gt _ _)) by lia.
      rewrite Nat.sub_diag. replace (S pos - pos) with 1 by lia.
      cbn [take_str drop_str expand fold_right].
      change (String "_" (replace_from fuel unsafeCharRegex [Lit "_"] (S pos) s)
              = String "_" (map_chars sanitize s)).
      f_equal. apply IH. lia.
Qed.

Lemma safeName_map s : safeName s = map_chars sanitize s.
Proof. apply replace_unsafe. lia. Qed.

Lemma map_chars_length f s : String.length (map_chars f s) = String.length s.
Proof. induction s; simpl; congruence. Qed.

Lemma safe_char_sanitize c : safe_char (sanitize c) = true.
Proof. unfold sanitize. by destruct (safe_char c) eqn:E. Qed.

Lemma sanitize_safe c : safe_char c = true → sanitize c = c.
Proof. unfold sanitize. by intros ->. Qed.

Lemma map_sanitize_fixed s : map_chars sanitize s = s ↔ all_chars safe_char s = true.
Proof.
  induction s as [|c s IH]; simpl; [done|]. split.
  - intros [= Hc Hs]. apply andb_true_iff. split; [|by apply IH].
    rewrite <- Hc. apply safe_char_sanitize.
  - intros [Hc Hs]%andb_true_iff. f_equal; [by apply sanitize_safe|by apply IH].
Qed.

Lemma all_safe_map s : all_chars safe_char (map_chars sanitize s) = true.
Proof. induction s as [|c s IH]; simpl; [done|]. by rewrite safe_char_sanitize. Qed.

Lemma safeName_length s : String.length (safeName s) = String.length s.
Proof. rewrite safeName_map. apply map_chars_length. Qed.

Lemma safeName_empty s : safeName s = "" → s = "".
Proof.
  intros H. pose proof (safeName_length s) as Hl. rewrite H in Hl.
  destruct s; [done|simpl in Hl; lia].
Qed.

(** X10.  [safeName] works character by character: a letter, a digit or an
    underscore is kept and any other character becomes an underscore.  So
    the result has the length of the name, consists of letters, digits and
    underscores only, is left alone by a second sanitization, and equals the
    name exactly when the name had no other character. *)
Theorem safeName_by_character (dep : string) :
  safeName dep = map_chars sanitize dep ∧
  String.length (safeName dep) = String.length dep ∧
  all_chars safe_char (safeName dep) = true ∧
  safeName (safeName dep) = safeName dep ∧
  (safeName dep = dep ↔ all_chars safe_char dep = true).
Proof.
  split_and!.
  - apply safeName_map.
  - apply safeName_length.
  - rewrite safeName_map. apply all_safe_map.
  - rewrite (safeName_map (safeName dep)). apply map_sanitize_fixed.
    rewrite safeName_map. apply all_safe_map.
  - rewrite safeName_map. apply map_sanitize_fixed.
Qed.

(** ** Literals of the matcher *)

Lemma rmatch_lit ci w : ∀ p s caps k,
  rmatch ci (lit w) p s caps k
  = if prefix_ci ci w s then k (String.length w + p) (drop_str (String.length w) s) caps
    else None.
Proof.
  induction w as [|c w IH]; intros p s caps k; [done|].
  destruct w as [|c' w].
  - destruct s as [|a s]; [done|]. simpl. rewrite andb_true_r. by destruct (chr_eq ci a c).
  - change (lit (String c (String c' w))) with (Seq (Chr c) (lit (String c' w))).
    cbn [rmatch]. destruct s as [|a s]; [done|].
    change (prefix_ci ci (String c (String c' w)) (String a s))
      with (chr_eq ci a c && prefix_ci ci (String c' w) s).
    destruct (chr_eq ci a c); [|done].
    rewrite IH. cbn [andb]. destruct (prefix_ci ci (String c' w) s); [|done].
    cbn [String.length drop_str]. by rewrite Nat.add_succ_r.
Qed.

Lemma search_lit ci w s : ∀ pos, is_some (search ci (lit w) pos s) = contains ci s w.
Proof.
  induction s as [|a s IH]; intros pos; cbn [search contains]; rewrite rmatch_lit.
  - by destruct (prefix_ci ci w "").
  - destruct (prefix_ci ci w (String a s)); [done|]. apply IH.
Qed.

Lemma prefix_ci_prefixb w : ∀ s, prefix_ci false w s = prefixb w s.
Proof.
  induction w as [|c w IH]; intros [|a s]; simpl; try done.
  rewrite IH. unfold chr_eq. rewrite (Ascii.eqb_sym a c). by destruct (Ascii.eqb c a).
Qed.

Lemma prefix_ci_drop w : ∀ s,
  prefix_ci false w s = true → drop_str (String.length w) s = "" → s = w.
Proof.
  induction w as [|c w IH]; intros [|a s]; simpl; try done.
  intros [Hc Hw]%andb_true_iff Hd. apply Ascii.eqb_eq in Hc as ->. f_equal. by apply IH.
Qed.

(** ** [normalizeFilename] *)

Lemma app_cons c s t : String c s +:+ t = String c (s +:+ t).
Proof. done. Qed.

Lemma app_empty_r s : s +:+ "" = s.
Proof. induction s as [|c s IH]; [done|]. by rewrite app_cons, IH. Qed.

Lemma take_str_app s t : take_str (String.length s) (s +:+ t) = s.
Proof. induction s as [|c s IH]; [by destruct t|]. rewrite app_cons. simpl. by rewrite IH. Qed.

Lemma drop_str_app s t n : drop_str (String.length s + n) (s +:+ t) = drop_str n t.
Proof. induction s as [|c s IH]; [done|]. rewrite app_cons. simpl. by rewrite IH. Qed.

Lemma all_chars_app P s t : all_chars P (s +:+ t) = all_chars P s && all_chars P t.
Proof.
  induction s as [|c s IH]; [done|]. rewrite app_cons. simpl. rewrite IH.
  by rewrite andb_assoc.
Qed.

Lemma extension_no_dot e : existsb (String.eqb e) extensions = true → all_chars not_dot e = true.
Proof.
  unfold extensions. cbn [existsb]. rewrite !orb_true_iff.
  intros [H|[H|[H|[H|H]]]]; [apply String.eqb_eq in H as ->; done..|done].
Qed.

Lemma dotted_no_extension s e : existsb (String.eqb (s +:+ "." +:+ e)) extensions = false.
Proof.
  destruct (existsb _ _) eqn:E; [|done]. apply extension_no_dot in E.
  rewrite all_chars_app, app_cons in E. cbn in E. by rewrite andb_false_r in E.
Qed.

Lemma extension_alternative w r (v y : nat * captures) :
  (if prefix_ci false w r
   then match drop_str (String.length w) r with "" => Some v | String _ _ => None end
   else None) = Some y →
  String.eqb r w = true.
Proof.
  destruct (prefix_ci false w r) eqn:Hp; [|done].
  destruct (drop_str (String.length w) r) eqn:Hd; [|done].
  intros _. apply String.eqb_eq. by apply prefix_ci_drop.
Qed.

Lemma rmatch_extension p c r x :
  rmatch false extensionRegex p (String c r) [] (λ e _ caps, Some (e, caps)) = Some x →
  Ascii.eqb c "." = true ∧ existsb (String.eqb r) extensions = true.
Proof.
  unfold extensionRegex, seqs, alts, extensions.
  cbn [fold_right fold_left rmatch existsb]. unfold chr_eq.
  destruct (Ascii.eqb c "."); [|done]. rewrite !rmatch_lit. intros H. split; [done|].
  repeat match type of H with
  | context [if prefix_ci false ?w r then ?a else ?b] =>
      let E := fresh "E" in
      destruct (if prefix_ci false w r then a else b) eqn:E;
      [apply extension_alternative in E; rewrite E; by rewrite ?orb_true_r|]
  end.
  done.
Qed.

Lemma search_no_extension s : ∀ p,
  hasExtension s = false → search false extensionRegex p s = None.
Proof.
  induction s as [|c r IH]; intros p; [done|].
  cbn [hasExtension]. intros [Hc Hr]%orb_false_iff.
  cbn [search].
  destruct (rmatch false extensionRegex p (String c r) [] (λ e _ caps, Some (e, caps)))
    as [x|] eqn:E.
  - apply rmatch_extension in E as [E1 E2]. by rewrite E1, E2 in Hc.
  - by apply IH.
Qed.

Lemma search_extension_here e p :
  e ∈ extensions →
  ∃ caps, search false extensionRegex p (String "." e)
          = Some {| m_start := p; m_end := p + S (String.length e); m_caps := caps |}.
Proof.
  unfold extensions. rewrite !elem_of_cons, elem_of_nil.
  intros [->|[->|[->|[->|[]]]]]; simpl String.length; rewrite Nat.add_comm;
    eexists; reflexivity.
Qed.

Lemma search_extension e s : ∀ p,
  e ∈ extensions →
  ∃ caps, search false extensionRegex p (s +:+ String "." e)
          = Some {| m_start := p + String.length s;
                    m_end := p + String.length s + S (String.length e);
                    m_caps := caps |}.
Proof.
  induction s as [|c s IH]; intros p He.
  - destruct (search_extension_here e p He) as [caps Hs]. exists caps.
    change ("" +:+ String "." e) with (String "." e). rewrite Hs. simpl.
    by rewrite Nat.add_0_r.
  - rewrite app_cons. cbn [search].
    destruct (rmatch false extensionRegex p (String c (s +:+ String "." e)) []
                (λ e _ caps, Some (e, caps))) as [x|] eqn:E.
    + apply rmatch_extension in E as [_ E].
      change (String "." e) with ("." +:+ e) in E. by rewrite dotted_no_extension in E.
    + destruct (IH (S p) He) as [caps Hs]. exists caps. rewrite Hs. simpl.
      by rewrite !Nat.add_succ_r.
Qed.

Lemma replace_extension e s :
  e ∈ extensions → replace_first extensionRegex [] (s +:+ String "." e) = s.
Proof.
  intros He. unfold replace_first.
  destruct (search_extension e s 0 He) as [caps ->]. cbn [m_start m_end expand fold_right].
  rewrite !Nat.add_0_l. rewrite take_str_app, drop_str_app.
  replace (drop_str (S (String.length e)) (String "." e)) with "".
  - change (s +:+ "" +:+ "" = s). by rewrite !app_empty_r.
  - clear -e. simpl. induction e as [|c e IH]; [done|]. simpl.
    destruct e; [done|]. simpl in IH. done.
Qed.

Lemma search_dotSlash_later s : ∀ p, search false dotSlashRegex (S p) s = None.
Proof. induction s as [|c s IH]; intros p; [done|]. cbn [search]. apply IH. Qed.

Lemma replace_dotSlash s : replace_first dotSlashRegex [] s = dropDotSlash s.
Proof.
  unfold replace_first, dropDotSlash, startsWith. rewrite <- prefix_ci_prefixb.
  assert (Hs : search false dotSlashRegex 0 s
               = if prefix_ci false "./" s
                 then Some {| m_start := 0; m_end := 2; m_caps := [] |} else None).
  { destruct s as [|c s]; [done|]. cbn [search]. unfold dotSlashRegex, seqs.
    cbn [fold_right rmatch Nat.eqb]. rewrite rmatch_lit.
    destruct (prefix_ci false "./" (String c s)); [done|].
    apply (search_dotSlash_later s 0). }
  rewrite Hs. by destruct (prefix_ci false "./" s).
Qed.

(** X11.  [normalizeFilename] removes one extension and then one leading dot
    and slash.  A name that ends in a dot and [js], [jsx], [ts] or [tsx]
    loses exactly that ending, whatever precedes it; a name without such an
    ending keeps its end; and of what is left a leading [./] is dropped
    once.  So the import path [./x] and the file names [x.ts] and [x.tsx]
    all get the key [x]. *)
Theorem normalizeFilename_strips (s : string) :
  (∀ e, e ∈ extensions → normalizeFilename (s +:+ String "." e) = dropDotSlash s) ∧
  (hasExtension s = false → normalizeFilename s = dropDotSlash s) ∧
  dropDotSlash ("./" +:+ s) = s.
Proof.
  split_and!.
  - intros e He. unfold normalizeFilename. by rewrite replace_extension, replace_dotSlash.
  - intros Hs. unfold normalizeFilename, replace_first at 2.
    by rewrite search_no_extension, replace_dotSlash.
  - done.
Qed.

(** ** The import rewriter *)

Section BuildMore.
Context {X A : Type} (key : X → string) (val : X → A).

Lemma build_inv l : ∀ acc k v,
  assoc k (build_from key val l acc) = Some v →
  (∃ x, x ∈ l ∧ key x = k ∧ v = val x) ∨ assoc k acc = Some v.
Proof.
  induction l as [|x l IH]; intros acc k v; [by right|].
  unfold build_from. cbn [fold_left]. intros H. apply IH in H as [(y & Hy & Hk & Hv)|H].
  - left. exists y. split; [by apply list_elem_of_further|done].
  - destruct (decide (k = key x)) as [->|Hne].
    + rewrite assoc_set_eq in H. left. exists x. split; [apply list_elem_of_here|].
      split; congruence.
    + rewrite assoc_set_ne in H by done. by right.
Qed.

Lemma build_acc_some l : ∀ acc k,
  is_some (assoc k acc) = true → is_some (assoc k (build_from key val l acc)) = true.
Proof.
  induction l as [|x l IH]; intros acc k H; [done|].
  unfold build_from. cbn [fold_left]. apply IH.
  destruct (decide (k = key x)) as [->|Hne]; [by rewrite assoc_set_eq|].
  by rewrite assoc_set_ne.
Qed.

Lemma build_some l : ∀ acc x,
  x ∈ l → is_some (assoc (key x) (build_from key val l acc)) = true.
Proof.
  induction l as [|y l IH]; intros acc x Hx; [by apply elem_of_nil in Hx|].
  unfold build_from. cbn [fold_left]. apply elem_of_cons in Hx as [->|Hx].
  - apply build_acc_some. by rewrite assoc_set_eq.
  - by apply IH.
Qed.

End BuildMore.

Lemma initial_canonical deps : canonical (initialDependencyVarMap deps).
Proof.
  intros k v H. unfold initialDependencyVarMap in H.
  change (assoc k (build_from id safeName (keys deps) []) = Some v) in H.
  apply build_inv in H as [(x & _ & <- & ->)|H]; done.
Qed.

Lemma initial_covers deps k :
  k ∈ keys deps → is_some (assoc k (initialDependencyVarMap deps)) = true.
Proof.
  intros H. unfold initialDependencyVarMap.
  change (is_some (assoc (id k) (build_from id safeName (keys deps) [])) = true).
  by apply build_some.
Qed.

Lemma canonical_set dvm k : canonical dvm → canonical (assoc_set k (safeName k) dvm).
Proof.
  intros Hc k' v. destruct (decide (k' = k)) as [->|Hne].
  - rewrite assoc_set_eq. by intros [= <-].
  - rewrite assoc_set_ne by done. apply Hc.
Qed.

Lemma canonical_name dvm source v :
  canonical dvm → assoc source dvm = Some v →
  (if String.eqb v "" then source else v) = safeName source.
Proof.
  intros Hc H. apply Hc in H as ->.
  destruct (String.eqb_spec (safeName source) "") as [E|_]; [|done].
  rewrite E. by apply safeName_empty in E.
Qed.

(** What the visitor returns for an import it treats as external, when it
    does not throw. *)
Lemma visit_external allowed files ei auto source specifiers dvm v :
  canonical dvm → (∀ k, k ∈ allowed → is_some (assoc k dvm) = true) →
  visitImportDeclaration allowed files ei auto source specifiers dvm = Normal v →
  specifiers ≠ [] → source ≠ "react" →
  assoc (normalizeFilename source) (normalizedModulePaths files) = None →
  newNodes v = externalBindings (safeName source) specifiers ∧
  (varMap v = dvm ∨ varMap v = assoc_set source (safeName source) dvm).
Proof.
  intros Hc Hcov Hv Hs Hr Hl. unfold visitImportDeclaration in Hv.
  destruct specifiers as [|sp0 specifiers]; [done|].
  rewrite (eqb_false_ne _ _ Hr), Hl in Hv. cbn [is_some negb andb] in Hv.
  destruct (existsb (String.eqb source) allowed) eqn:Ha; cbn [negb andb] in Hv.
  - apply existsb_eqb_true in Ha. specialize (Hcov _ Ha).
    destruct (assoc source dvm) as [w|] eqn:Ew; [|done].
    rewrite (canonical_name dvm source w Hc Ew) in Hv. simplify_eq. split; [done|by left].
  - destruct auto; [|done]. cbn [negb] in Hv.
    rewrite assoc_set_eq in Hv.
    rewrite (canonical_name (assoc_set source (safeName source) dvm) source (safeName source))
      in Hv; [|by apply canonical_set|by rewrite assoc_set_eq].
    simplify_eq. split; [done|by right].
Qed.

Lemma covers_set (allowed : list string) dvm k v :
  (∀ x, x ∈ allowed → is_some (assoc x dvm) = true) →
  ∀ x, x ∈ allowed → is_some (assoc x (assoc_set (A:=string) k v dvm)) = true.
Proof.
  intros H x Hx. destruct (decide (x = k)) as [->|Hne]; [by rewrite assoc_set_eq|].
  rewrite assoc_set_ne by done. by apply H.
Qed.

(** The visitor, when it returns. *)
Lemma visit_shape allowed files ei auto source specifiers dvm v :
  canonical dvm → (∀ k, k ∈ allowed → is_some (assoc k dvm) = true) →
  visitImportDeclaration allowed files ei auto source specifiers dvm = Normal v →
  newNodes v = rewrittenImport files source specifiers ∧
  canonical (varMap v) ∧ (∀ k, k ∈ allowed → is_some (assoc k (varMap v)) = true).
Proof.
  intros Hc Hcov Hv. unfold rewrittenImport.
  destruct specifiers as [|sp0 specifiers].
  { simpl in Hv. by simplify_eq. }
  destruct (String.eqb_spec source "react") as [->|Hr].
  { simpl in Hv. by simplify_eq. }
  destruct (assoc (normalizeFilename source) (normalizedModulePaths files)) as [orig|] eqn:El.
  - unfold visitImportDeclaration in Hv.
    rewrite (eqb_false_ne _ _ Hr), El in Hv. cbn [is_some negb andb] in Hv.
    by simplify_eq.
  - destruct (visit_external allowed files ei auto source (sp0 :: specifiers) dvm v)
      as [Hn Hm]; try done.
    cbn [is_some]. split; [done|].
    destruct Hm as [->| ->]; [done|]. split; [by apply canonical_set|by apply covers_set].
Qed.

(** With automatic resolution the visitor returns for every import. *)
Lemma visit_auto_returns allowed files ei source specifiers dvm :
  ∃ v, visitImportDeclaration allowed files ei true source specifiers dvm = Normal v.
Proof.
  unfold visitImportDeclaration. destruct specifiers as [|sp0 specifiers]; [by eexists|].
  destruct (String.eqb source "react"); [by eexists|].
  rewrite andb_false_r. cbn [negb].
  destruct (is_some (assoc (normalizeFilename source) (normalizedModulePaths files)));
    by eexists.
Qed.

Lemma visit_no_specifiers allowed files ei auto source dvm :
  visitImportDeclaration allowed files ei auto source [] dvm
  = Normal {| newNodes := [ImportDeclaration source []]; varMap := dvm; warnings := [] |}.
Proof. done. Qed.

Section Rewriting.
Variable parse : string → completion Parsed.
Variables (files : list CodeFile) (deps : Dependencies) (ei : list (string * ExportInfo)).

Lemma traverse_shape auto program : ∀ dvm out w,
  canonical dvm → (∀ k, k ∈ keys deps → is_some (assoc k dvm) = true) →
  traverse (visitImportDeclaration (keys deps) files ei auto) program dvm = Normal (out, w) →
  out = rewriteProgram files program.
Proof.
  induction program as [|s program IH]; intros dvm out w Hc Hcov Ht.
  - simpl in Ht. by simplify_eq.
  - destruct s as [source specifiers|local init|run]; cbn [traverse] in Ht.
    + destruct (visitImportDeclaration (keys deps) files ei auto source specifiers dvm)
        as [v|e] eqn:Ev; [|done]. cbn [bindC] in Ht.
      destruct (visit_shape _ _ _ _ _ _ _ _ Hc Hcov Ev) as (Hn & Hc' & Hcov').
      destruct (traverse _ program (varMap v)) as [[out' w']|e] eqn:Et; [|done].
      cbn [bindC] in Ht. simplify_eq/=. rewrite Hn. f_equal. by eapply IH.
    + destruct (traverse _ program dvm) as [[out' w']|e] eqn:Et; [|done].
      cbn [bindC] in Ht. simplify_eq/=. f_equal. by eapply IH.
    + destruct (traverse _ program dvm) as [[out' w']|e] eqn:Et; [|done].
      cbn [bindC] in Ht. simplify_eq/=. f_equal. by eapply IH.
Qed.

Lemma traverse_auto_returns program : ∀ dvm,
  ∃ r, traverse (visitImportDeclaration (keys deps) files ei true) program dvm = Normal r.
Proof.
  induction program as [|s program IH]; intros dvm; [by eexists|].
  destruct s as [source specifiers|local init|run]; cbn [traverse].
  - destruct (visit_auto_returns (keys deps) files ei source specifiers dvm) as [v ->].
    cbn [bindC]. destruct (IH (varMap v)) as [r ->]. by eexists.
  - destruct (IH dvm) as [r ->]. by eexists.
  - destruct (IH dvm) as [r ->]. by eexists.
Qed.

Lemma traverse_throws auto program : ∀ dvm e,
  traverse (visitImportDeclaration (keys deps) files ei auto) program dvm = Throw e →
  auto = false ∧ ∃ source, e = moduleNotFound source.
Proof.
  intros dvm e Ht. destruct auto.
  - destruct (traverse_auto_returns program dvm) as [r Hr]. congruence.
  - split; [done|]. apply traverse_throw_inv in Ht as (source & -> & _). by exists source.
Qed.

Lemma traverse_throws_at program : ∀ dvm e,
  traverse (visitImportDeclaration (keys deps) files ei false) program dvm = Throw e →
  ∃ source specifiers,
    ImportDeclaration source specifiers ∈ program ∧ specifiers ≠ [] ∧
    unresolvedImport files deps source ∧ e = moduleNotFound source.
Proof.
  induction program as [|s program IH]; intros dvm e; [done|].
  assert (Hrest : ∀ dvm', traverse (visitImportDeclaration (keys deps) files ei false)
                            program dvm' = Throw e →
          ∃ source specifiers,
            ImportDeclaration source specifiers ∈ s :: program ∧ specifiers ≠ [] ∧
            unresolvedImport files deps source ∧ e = moduleNotFound source).
  { intros dvm' Ht. destruct (IH dvm' e Ht) as (source & specifiers & Hin & Hrest).
    exists source, specifiers. split; [by apply list_elem_of_further|done]. }
  destruct s as [source specifiers|local init|run]; cbn [traverse].
  - destruct (visitImportDeclaration (keys deps) files ei false source specifiers dvm)
      as [v|e'] eqn:Ev; cbn [bindC].
    + destruct (traverse _ program (varMap v)) as [r|e'] eqn:Et; cbn [bindC]; [done|].
      intros [= <-]. by eapply Hrest.
    + intros [= <-]. exists source, specifiers.
      destruct (visit_throw_inv _ _ _ _ _ _ _ Ev) as [-> Hu].
      split_and!; try done; [apply list_elem_of_here|].
      intros ->. by rewrite visit_no_specifiers in Ev.
  - destruct (traverse _ program dvm) as [r|e'] eqn:Et; cbn [bindC]; [done|].
    intros [= <-]. by eapply Hrest.
  - destruct (traverse _ program dvm) as [r|e'] eqn:Et; cbn [bindC]; [done|].
    intros [= <-]. by eapply Hrest.
Qed.

(** What the preset left of a declaration with specifiers comes from a
    declaration of the text with a name that is used as a value. *)
Lemma elideImports_elem parsed source kept :
  ImportDeclaration source kept ∈ elideImports parsed → kept ≠ [] →
  ∃ specifiers, ImportDeclaration source specifiers ∈ body parsed ∧
                kept = List.filter (referenced parsed) specifiers ∧
                existsb (referenced parsed) specifiers = true.
Proof.
  intros Hin Hk. unfold elideImports in Hin.
  apply list_elem_of_In, in_flat_map in Hin as (s & Hs & Hin).
  destruct s as [source' specifiers|local init|run]; try (by destruct Hin as [[=]|[]]).
  destruct specifiers as [|sp specifiers]; [destruct Hin as [[=]|[]]; by subst|].
  destruct (List.filter (referenced parsed) (sp :: specifiers)) as [|k l] eqn:Ef;
    [by destruct Hin|].
  destruct Hin as [[= <- <-]|[]].
  exists (sp :: specifiers). split_and!; [by apply list_elem_of_In|done|].
  apply existsb_exists. exists k.
  assert (Hkin : In k (List.filter (referenced parsed) (sp :: specifiers)))
    by (rewrite Ef; apply in_eq).
  by apply filter_In in Hkin.
Qed.

(** X12.  The import rewriter is a map over the statements of a file that
    depends on the file set only.  When [transformFile] returns, its code is
    the program as the TypeScript preset left it (an import declaration
    none of whose names is used as a value is gone, and of the others the
    names that are not) with every import declaration replaced by the
    bindings for its source: property reads of [React], of
    [getModule(name)] for a file of the set, or of the variable named by the
    sanitized source otherwise; the dependency map has no influence on it.
    When it throws, either Babel's parser threw, or automatic resolution is
    off and the text has an import, with a name that is used as a value,
    from a source that is neither the framework, nor a file of the set, nor
    a key of the dependency map; the error is the one for that source as
    Babel hands it on. *)
Theorem rewriter_is_a_statement_map (auto : bool) (f : CodeFile) :
  match transformFile parse files deps ei auto f with
  | Normal (m, _) =>
      ∃ parsed, parse (processedInput f) = Normal parsed ∧
                code m = rewriteProgram files (elideImports parsed)
  | Throw e =>
      parse (processedInput f) = Throw e ∨
      (auto = false ∧
       ∃ parsed source specifiers,
         parse (processedInput f) = Normal parsed ∧
         ImportDeclaration source specifiers ∈ body parsed ∧
         existsb (referenced parsed) specifiers = true ∧
         unresolvedImport files deps source ∧
         e = unresolvedDependency source)
  end.
Proof.
  unfold transformFile, transform.
  destruct (parse (processedInput f)) as [parsed|e] eqn:Ep; cbn [bindC]; [|by left].
  destruct (traverse _ (elideImports parsed) (initialDependencyVarMap deps))
    as [[out w]|e] eqn:Et; cbn [bindC].
  - exists parsed. split; [done|]. cbn [code fst].
    eapply traverse_shape; [apply initial_canonical| |exact Et].
    intros k Hk. by apply initial_covers.
  - right. destruct (traverse_throws _ _ _ _ Et) as [-> _]. split; [done|].
    destruct (traverse_throws_at _ _ _ Et) as (source & kept & Hin & Hk & Hu & ->).
    destruct (elideImports_elem _ _ _ Hin Hk) as (specifiers & Hs & _ & Hr).
    by exists parsed, source, specifiers.
Qed.

End Rewriting.

Lemma assoc_set_elem {A} k (a : A) l x : x ∈ assoc_set k a l → x = (k, a) ∨ x ∈ l.
Proof.
  induction l as [|[k' a'] l IH]; simpl.
  - intros ->%list_elem_of_singleton. by left.
  - destruct (String.eqb k k').
    + intros [->|H]%elem_of_cons; [by left|right; by apply list_elem_of_further].
    + intros [->|H]%elem_of_cons; [right; apply list_elem_of_here|].
      apply IH in H as [->|H]; [by left|right; by apply list_elem_of_further].
Qed.

Lemma assoc_set_keys_mono {A} k (a : A) l x :
  x ∈ map fst l → x ∈ map fst (assoc_set k a l).
Proof.
  induction l as [|[k' a'] l IH]; simpl; [by intros ?%elem_of_nil|].
  destruct (String.eqb_spec k k') as [->|Hne]; simpl; [done|].
  intros [->|H]%elem_of_cons; [apply list_elem_of_here|].
  apply list_elem_of_further. by apply IH.
Qed.

Lemma assoc_set_key {A} k (a : A) l : k ∈ map fst (assoc_set k a l).
Proof.
  induction l as [|[k' a'] l IH]; simpl; [apply list_elem_of_here|].
  destruct (String.eqb_spec k k') as [->|Hne]; simpl; [apply list_elem_of_here|].
  by apply list_elem_of_further.
Qed.

Lemma rewrittenImport_arguments files source specifiers n :
  n ∈ flat_map getModuleArguments (rewrittenImport files source specifiers) →
  is_some (assoc n (normalizedModulePaths files)) = true.
Proof.
  unfold rewrittenImport. destruct specifiers as [|sp0 specifiers].
  { simpl. by intros ?%elem_of_nil. }
  destruct (String.eqb source "react").
  { generalize (sp0 :: specifiers). intros l. induction l as [|[?|??|?] l IH]; simpl; try done.
    by intros ?%elem_of_nil. }
  destruct (is_some (assoc (normalizeFilename source) (normalizedModulePaths files))) eqn:E.
  - generalize (sp0 :: specifiers). intros l.
    induction l as [|[?|??|?] l IH]; simpl; try done.
    + by intros ?%elem_of_nil.
    + intros [->|H]%elem_of_cons; [done|by apply IH].
    + intros [->|H]%elem_of_cons; [done|by apply IH].
  - generalize (sp0 :: specifiers). intros l. induction l as [|[?|??|?] l IH]; simpl; try done.
    by intros ?%elem_of_nil.
Qed.

Lemma rewriteProgram_arguments files program n :
  n ∈ flat_map getModuleArguments (rewriteProgram files program) →
  is_some (assoc n (normalizedModulePaths files)) = true ∨
  n ∈ flat_map getModuleArguments program.
Proof.
  induction program as [|s program IH]; [by intros ?%elem_of_nil|].
  unfold rewriteProgram. cbn [flat_map]. rewrite flat_map_app.
  intros [H|H]%elem_of_app.
  - destruct s as [source specifiers|local init|run].
    + left. by eapply rewrittenImport_arguments.
    + right. simpl in *. rewrite app_nil_r in H. apply elem_of_app. by left.
    + simpl in H. by apply elem_of_nil in H.
  - apply IH in H as [H|H]; [by left|]. right. apply elem_of_app. by right.
Qed.

Lemma rewrittenImport_user files source specifiers :
  List.filter is_user (rewrittenImport files source specifiers) = [] ∧
  List.filter is_import (rewrittenImport files source specifiers)
  = List.filter is_bare_import [ImportDeclaration source specifiers].
Proof.
  unfold rewrittenImport. destruct specifiers as [|sp0 specifiers]; [done|].
  cbn [List.filter is_bare_import].
  destruct (String.eqb source "react");
    [|destruct (is_some (assoc (normalizeFilename source) (normalizedModulePaths files)))];
    generalize (sp0 :: specifiers); intros l;
    induction l as [|[?|??|?] l IH]; simpl; done.
Qed.

Lemma rewriteProgram_user files program :
  List.filter is_user (rewriteProgram files program) = List.filter is_user program ∧
  List.filter is_import (rewriteProgram files program) = List.filter is_bare_import program.
Proof.
  induction program as [|s program [IH1 IH2]]; [done|].
  unfold rewriteProgram. cbn [flat_map]. rewrite !List.filter_app.
  fold (rewriteProgram files program). rewrite IH1, IH2.
  destruct s as [source specifiers|local init|run]; try done.
  destruct (rewrittenImport_user files source specifiers) as [-> ->].
  split; [done|]. by destruct specifiers.
Qed.

(** The preset touches import declarations with specifiers only. *)
Lemma elideImports_user parsed :
  List.filter is_user (elideImports parsed) = List.filter is_user (body parsed) ∧
  List.filter is_bare_import (elideImports parsed)
  = List.filter is_bare_import (body parsed) ∧
  flat_map getModuleArguments (elideImports parsed)
  = flat_map getModuleArguments (body parsed).
Proof.
  unfold elideImports. induction (body parsed) as [|s l (IH1 & IH2 & IH3)]; [done|].
  cbn [flat_map]. rewrite !List.filter_app, flat_map_app, IH1, IH2, IH3.
  destruct s as [source specifiers|local init|run]; try done.
  - destruct specifiers as [|sp specifiers]; [done|].
    by destruct (List.filter (referenced parsed) (sp :: specifiers)).
  - simpl. by rewrite app_nil_r.
Qed.

Section Linking.
Variable parse : string → completion Parsed.
Variables (files : list CodeFile) (deps : Dependencies).

Lemma transformFile_code ei auto f m w :
  transformFile parse files deps ei auto f = Normal (m, w) →
  ∃ parsed, parse (processedInput f) = Normal parsed ∧
            code m = rewriteProgram files (elideImports parsed).
Proof.
  unfold transformFile, transform.
  destruct (parse (processedInput f)) as [parsed|e] eqn:Ep; cbn [bindC]; [|done].
  destruct (traverse _ (elideImports parsed) (initialDependencyVarMap deps))
    as [[out w']|e] eqn:Et; cbn [bindC]; [|done].
  intros [= <- <-]. exists parsed. split; [done|]. cbn [code fst].
  eapply traverse_shape; [apply initial_canonical| |exact Et].
  intros k Hk. by apply initial_covers.
Qed.

Lemma secondPass_entries ei auto todo : ∀ st st' x,
  secondPass parse files deps ei auto todo st = (Normal tt, st') →
  x ∈ moduleCache st' →
  x ∈ moduleCache st ∨
  ∃ f w, f ∈ todo ∧ name f = x.1 ∧ transformFile parse files deps ei auto f = Normal (x.2, w).
Proof.
  induction todo as [|f todo IH]; intros st st' x Hs Hx.
  - simpl in Hs. simplify_eq. by left.
  - cbn [secondPass] in Hs.
    destruct (transformFile parse files deps ei auto f) as [[m w]|e] eqn:Ef;
      [|by simplify_eq].
    destruct (IH _ _ x Hs Hx) as [H|(g & w' & Hg & Hn & Ht)].
    + cbn [moduleCache] in H. apply assoc_set_elem in H as [->|H]; [|by left].
      right. exists f, w. split; [apply list_elem_of_here|done].
    + right. exists g, w'. split; [by apply list_elem_of_further|done].
Qed.

Lemma secondPass_keys_mono ei auto todo : ∀ st r st' k,
  secondPass parse files deps ei auto todo st = (r, st') →
  k ∈ map fst (moduleCache st) → k ∈ map fst (moduleCache st').
Proof.
  induction todo as [|f todo IH]; intros st r st' k Hs Hk.
  - simpl in Hs. by simplify_eq.
  - cbn [secondPass] in Hs.
    destruct (transformFile parse files deps ei auto f) as [[m w]|e] eqn:Ef;
      [|by simplify_eq].
    eapply IH; [exact Hs|]. cbn [moduleCache]. by apply assoc_set_keys_mono.
Qed.

Lemma secondPass_covers ei auto todo : ∀ st st' f,
  secondPass parse files deps ei auto todo st = (Normal tt, st') →
  f ∈ todo → name f ∈ map fst (moduleCache st').
Proof.
  induction todo as [|g todo IH]; intros st st' f Hs Hf; [by apply elem_of_nil in Hf|].
  cbn [secondPass] in Hs.
  destruct (transformFile parse files deps ei auto g) as [[m w]|e] eqn:Eg;
    [|by simplify_eq].
  apply elem_of_cons in Hf as [->|Hf].
  - eapply secondPass_keys_mono; [exact Hs|]. cbn [moduleCache]. apply assoc_set_key.
  - by eapply IH.
Qed.

Lemma secondPass_keys_any ei auto todo : ∀ st r st' k,
  secondPass parse files deps ei auto todo st = (r, st') →
  k ∈ map fst (moduleCache st') → k ∈ map fst (moduleCache st) ∨ k ∈ map name todo.
Proof.
  induction todo as [|f todo IH]; intros st r st' k Hs Hk.
  - simpl in Hs. simplify_eq. by left.
  - cbn [secondPass] in Hs.
    destruct (transformFile parse files deps ei auto f) as [[m w]|e] eqn:Ef.
    + destruct (IH _ _ _ k Hs Hk) as [H|H].
      * cbn [moduleCache] in H. apply assoc_set_keys in H as [->|H]; [|by left].
        right. apply list_elem_of_here.
      * right. by apply list_elem_of_further.
    + simplify_eq. by left.
Qed.

(** X13.  Every [getModule] call the rewriter adds names a module the factory
    defines.  After a transformation that returned, each name the rewriter
    treats as a file of the set has a module definition, and a [getModule]
    argument in the code of a module definition is such a name unless the
    parser delivered the call itself. *)
Theorem rewritten_imports_are_linked (auto : bool) (st st' : UtilsState)
    (src : FactorySource) :
  transformMultipleFiles parse files deps auto st = (Normal src, st') →
  (∀ n, is_some (assoc n (normalizedModulePaths files)) = true →
        is_some (assoc n (definitionsMap src)) = true) ∧
  (∀ d n, d ∈ moduleDefinitions src → n ∈ flat_map getModuleArguments (def_code d) →
     is_some (assoc n (definitionsMap src)) = true ∨
     ∃ f program, f ∈ files ∧ parse (processedInput f) = Normal program ∧
                  n ∈ flat_map getModuleArguments (body program)).
Proof.
  intros Ht. apply transformMultipleFiles_Normal in Ht as (Hs & entryFile & _ & ->).
  assert (Hlinked : ∀ n, is_some (assoc n (normalizedModulePaths files)) = true →
    is_some (assoc n (definitionsMap
      {| dependencyVars := dependencyVarsOf deps;
         moduleDefinitions := map (moduleDefinitionOf files) (moduleCache st');
         entryModuleName := normalizeFilename (name entryFile) |})) = true).
  { intros n Hn. rewrite normalizedModulePaths_build in Hn.
    destruct (assoc n _) as [orig|] eqn:E; [|done].
    apply build_inv in E as [(f & Hf & <- & _)|E]; [|done].
    pose proof (secondPass_covers _ _ _ _ _ f Hs Hf) as Hk.
    apply list_elem_of_fmap in Hk as ([k m] & Hk & Hin). simpl in Hk. subst k.
    rewrite definitionsMap_build. cbn [moduleDefinitions].
    change (normalizeFilename (name f))
      with (normalizedName (moduleDefinitionOf files (name f, m))).
    apply (build_some normalizedName id). apply list_elem_of_fmap. by exists (name f, m). }
  split; [exact Hlinked|].
  intros d n Hd Hn. cbn [moduleDefinitions] in Hd.
  apply list_elem_of_fmap in Hd as ([k m] & -> & Hin).
  destruct (secondPass_entries _ _ _ _ _ _ Hs Hin) as [Hin'|(f & w & Hf & _ & Hm)];
    [by apply elem_of_nil in Hin'|].
  cbn [snd] in Hm. apply transformFile_code in Hm as (program & Hp & Hcode).
  assert (Hdc : def_code (moduleDefinitionOf files (k, m)) = code m) by done.
  rewrite Hdc, Hcode in Hn. apply rewriteProgram_arguments in Hn as [Hn|Hn].
  - left. by apply Hlinked.
  - right. exists f, program. split_and!; [done|done|].
    by rewrite <- (proj2 (proj2 (elideImports_user program))).
Qed.

(** X14.  The rewriter leaves user code alone.  When [transformFile] returns,
    the statements of its code that are not bindings are the user
    statements of the parsed program, all of them and in their order, and
    the import declarations left in it are the ones without specifiers. *)
Theorem rewriter_keeps_user_code (ei : list (string * ExportInfo)) (auto : bool)
    (f : CodeFile) (m : ModuleRecord) (w : list string) :
  transformFile parse files deps ei auto f = Normal (m, w) →
  ∃ program, parse (processedInput f) = Normal program ∧
    List.filter is_user (code m) = List.filter is_user (body program) ∧
    List.filter is_import (code m) = List.filter is_bare_import (body program).
Proof.
  intros (program & Hp & ->)%transformFile_code. exists program. split; [done|].
  destruct (rewriteProgram_user files (elideImports program)) as [-> ->].
  destruct (elideImports_user program) as (-> & -> & _). done.
Qed.

End Linking.

(** X13 at scenario B. *)
Lemma rewritten_imports_are_linked_witness :
  is_some (assoc "Greeting" (definitionsMap greetingFactory)) = true.
Proof.
  refine (proj1 (rewritten_imports_are_linked greetingParse greetingFiles [] true emptyUtils
                   greetingTransformed.2 greetingFactory _) "Greeting" _).
  - vm_compute; reflexivity.
  - vm_compute; reflexivity.
Defined.

(** X14 at the entry file of scenario B. *)
Lemma rewriter_keeps_user_code_witness :
  ∃ m w,
    transformFile greetingParse greetingFiles [] (firstPass greetingFiles) true
      {| name := "App.tsx";
         content := "import { Greeting } from './Greeting'; export default function App() { return <Greeting />; }";
         isEntry := Some true |} = Normal (m, w) ∧
    List.filter is_user (code m) = [bindsFunction "App"].
Proof.
  destruct (transformFile greetingParse greetingFiles [] (firstPass greetingFiles) true _)
    as [[m w]|e] eqn:E; [|by vm_compute in E].
  exists m, w. split; [reflexivity|].
  destruct (rewriter_keeps_user_code greetingParse greetingFiles [] _ true _ m w E)
    as (program & Hp & Hu & _).
  rewrite Hu.
  assert (Hp' : greetingParse (processedInput
                  {| name := "App.tsx";
                     content := "import { Greeting } from './Greeting'; export default function App() { return <Greeting />; }";
                     isEntry := Some true |})
                = Normal {| body := [ImportDeclaration "./Greeting"
                                       [ImportSpecifier "Greeting" "Greeting"];
                                     bindsFunction "App"];
                            valueReferences := ["Greeting"] |})
    by (vm_compute; reflexivity).
  rewrite Hp' in Hp. injection Hp as <-. reflexivity.
Defined.

(** ** Supplied dependencies at run time *)


Lemma FunctionConstructor_names realm src src' :
  FunctionConstructor realm src = Normal src' →
  NoDup (map fst (dependencyVars src)) ∧
  (∀ x, x ∈ map fst (dependencyVars src) → x ≠ "React" ∧ x ≠ "dependencies") ∧
  ∀ d, d ∈ moduleDefinitions src → existsb is_import (def_code d) = false.
Proof.
  unfold FunctionConstructor. destruct (declarationError _ _) as [x|] eqn:Hr; [done|].
  destruct (existsb _ (moduleDefinitions src)) eqn:Hi; [done|].
  destruct (existsb (String.eqb "getModule") _); [done|]. intros _.
  apply declarationError_None in Hr as [Hr _].
  apply redeclared_None in Hr as [Hnd Hb]. apply NoDup_app in Hnd as (Hnd & _ & _).
  split; [done|]. split.
  - intros x Hx. specialize (Hb x (proj2 (elem_of_app _ _ _) (or_introl Hx))).
    split; intros ->; apply Hb.
    + apply list_elem_of_here.
    + apply list_elem_of_further, list_elem_of_here.
  - intros d Hd. destruct (existsb is_import (def_code d)) eqn:E; [|done].
    assert (existsb (λ d, existsb is_import (def_code d)) (moduleDefinitions src) = true);
      [|congruence].
    apply existsb_exists. exists d. split; [by apply list_elem_of_In|done].
Qed.




(** ** Imports that bind nothing *)

Lemma rewriteProgram_bare files program source :
  ImportDeclaration source [] ∈ program →
  ImportDeclaration source [] ∈ rewriteProgram files program.
Proof.
  induction program as [|s program IH]; [by intros ?%elem_of_nil|].
  unfold rewriteProgram. cbn [flat_map]. intros [<-|H]%elem_of_cons.
  - apply elem_of_app. left. apply list_elem_of_here.
  - apply elem_of_app. right. by apply IH.
Qed.

Lemma elideImports_bare parsed source :
  ImportDeclaration source [] ∈ body parsed →
  ImportDeclaration source [] ∈ elideImports parsed.
Proof.
  intros Hin. unfold elideImports.
  apply list_elem_of_In, in_flat_map. exists (ImportDeclaration source []).
  split; [by apply list_elem_of_In|]. by left.
Qed.

Lemma FunctionConstructor_import realm src d s :
  d ∈ moduleDefinitions src → s ∈ def_code d → is_import s = true →
  ∃ e, FunctionConstructor realm src = Throw e.
Proof.
  intros Hd Hs Hi. destruct (FunctionConstructor realm src) as [src'|e] eqn:E; [|by eexists].
  apply FunctionConstructor_names in E as (_ & _ & Hno). specialize (Hno d Hd).
  assert (existsb is_import (def_code d) = true); [|congruence].
  apply existsb_exists. exists s. split; [by apply list_elem_of_In|done].
Qed.

(** X16.  An import without specifiers, such as the import of a style sheet,
    is left in the module code by the rewriter, and a factory text with an
    import declaration inside cannot be constructed.  So code with such an
    import in any of its files never yields a component. *)
Theorem bare_import_fails_construction
    (parse : string → completion Parsed) (stack : nat) (input : Code)
    (deps : Dependencies) (patterns : list RegExp) (bypass auto : bool) (react : value)
    (sw : option Window) (st : UtilsState) (f : CodeFile) (program : Parsed)
    (source : string) :
  NoDup (map name (codeFilesOf input)) →
  f ∈ codeFilesOf input →
  parse (processedInput f) = Normal program →
  ImportDeclaration source [] ∈ body program →
  (∀ src, (transformMultipleFiles parse (codeFilesOf input) deps auto st).1 = Normal src →
          ∃ e, FunctionConstructor sw src = Throw e) ∧
  Component (result (executeCode parse stack input deps patterns bypass auto react sw st))
  = None.
Proof.
  intros Hnd Hf Hp Hi.
  assert (∀ src, (transformMultipleFiles parse (codeFilesOf input) deps auto st).1 = Normal src →
                 ∃ e, FunctionConstructor sw src = Throw e) as Hc.
  { intros src Ht.
    destruct (transformMultipleFiles parse (codeFilesOf input) deps auto st) as [r st'] eqn:E.
    simpl in Ht. subst r.
    apply transformMultipleFiles_Normal in E as (Hs & entryFile & _ & ->).
    destruct (secondPass_member _ _ _ _ _ _ _ _ f Hs Hnd Hf) as (m & w & Hm & Hin).
    apply transformFile_code in Hm as (program' & Hp' & Hcode).
    rewrite Hp in Hp'. simplify_eq.
    apply assoc_Some_elem in Hin.
    apply (FunctionConstructor_import _ _ (moduleDefinitionOf (codeFilesOf input) (name f, m))
             (ImportDeclaration source [])); [| |done].
    2:{ change (def_code (moduleDefinitionOf (codeFilesOf input) (name f, m))) with (code m).
        rewrite Hcode. by apply rewriteProgram_bare, elideImports_bare. }
    cbn [moduleDefinitions]. apply list_elem_of_fmap. by exists (name f, m). }
  split; [done|]. unfold executeCode.
  destruct (if bypass then _ else _) as [[[file pattern]|] ps]; [done|].
  unfold compileAndRun.
  destruct (transformMultipleFiles parse (codeFilesOf input) deps auto st) as [[src|e] st'];
    simpl; [|done].
  destruct (Hc src eq_refl) as [e ->]. done.
Qed.

(** X16 at the import of a style sheet. *)
Lemma bare_import_fails_construction_witness :
  error (result (executeCode stylesParse 64 (Source stylesSource) [] defaultSecurityPatterns
                   false true hostReact None emptyUtils))
  = Some "Cannot use import statement outside a module" ∧
  Component (result (executeCode stylesParse 64 (Source stylesSource) [] defaultSecurityPatterns
                       false true hostReact None emptyUtils)) = None.
Proof.
  split; [vm_compute; reflexivity|].
  apply (bare_import_fails_construction stylesParse 64 (Source stylesSource) []
           defaultSecurityPatterns false true hostReact None emptyUtils
           {| name := "index.tsx"; content := stylesSource; isEntry := Some true |}
           {| body := [ImportDeclaration "./styles.css" []; bindsFunction "App"];
              valueReferences := [] |} "./styles.css").
  - apply NoDup_cons. split; [apply not_elem_of_nil|apply NoDup_nil_2].
  - apply list_elem_of_here.
  - vm_compute; reflexivity.
  - apply list_elem_of_here.
Defined.

(** ** The module-level cache of the transformer *)

Lemma secondPass_NoDup_any parse files deps ei auto todo : ∀ st r st',
  secondPass parse files deps ei auto todo st = (r, st') →
  NoDup (map fst (moduleCache st)) → NoDup (map fst (moduleCache st')).
Proof.
  induction todo as [|f todo IH]; intros st r st' Hs Hnd; simpl in Hs; [by simplify_eq|].
  destruct (transformFile parse files deps ei auto f) as [[m w]|e]; [|by simplify_eq].
  eapply IH; [exact Hs|]. cbn [moduleCache]. by apply assoc_set_NoDup.
Qed.

Lemma secondPass_console parse files deps ei auto todo : ∀ mc co1 co2,
  let r1 := secondPass parse files deps ei auto todo {| moduleCache := mc; console := co1 |} in
  let r2 := secondPass parse files deps ei auto todo {| moduleCache := mc; console := co2 |} in
  r1.1 = r2.1 ∧ moduleCache r1.2 = moduleCache r2.2.
Proof.
  induction todo as [|f todo IH]; intros mc co1 co2; [done|].
  cbn [secondPass].
  destruct (transformFile parse files deps ei auto f) as [[m w]|e]; [|done].
  cbn [moduleCache console]. apply IH.
Qed.

Lemma transformMultipleFiles_earlier parse files deps auto st1 st2 :
  (transformMultipleFiles parse files deps auto st1).1
  = (transformMultipleFiles parse files deps auto st2).1 ∧
  moduleCache (transformMultipleFiles parse files deps auto st1).2
  = moduleCache (transformMultipleFiles parse files deps auto st2).2.
Proof.
  unfold transformMultipleFiles.
  destruct (secondPass_console parse files deps (firstPass files) auto files []
              (console st1) (console st2)) as [H1 H2].
  destruct (secondPass parse files deps (firstPass files) auto files
              {| moduleCache := []; console := console st1 |}) as [r1 s1].
  destruct (secondPass parse files deps (firstPass files) auto files
              {| moduleCache := []; console := console st2 |}) as [r2 s2].
  cbn [fst snd] in H1, H2. subst r2. destruct r1 as [[]|e]; [|done].
  destruct (findEntry files) as [entryFile|]; [|done]. rewrite H2.
  by destruct (assoc (name entryFile) (moduleCache s2)).
Qed.

(** X17.  [transformMultipleFiles] starts from an empty module cache.  However
    it ends, the cache it leaves holds entries of the files of this call
    only, each name once, and when it returns every file of the call has
    its entry; what it returns and the cache it leaves do not depend on the
    state an earlier call left behind. *)
Theorem module_cache_is_rebuilt (parse : string → completion Parsed)
    (files : list CodeFile) (deps : Dependencies) (auto : bool) (st : UtilsState) :
  let r := transformMultipleFiles parse files deps auto st in
  (∀ k, k ∈ map fst (moduleCache r.2) → k ∈ map name files) ∧
  NoDup (map fst (moduleCache r.2)) ∧
  (∀ src f, r.1 = Normal src → f ∈ files → name f ∈ map fst (moduleCache r.2)) ∧
  (∀ earlier, let r' := transformMultipleFiles parse files deps auto earlier in
              r'.1 = r.1 ∧ moduleCache r'.2 = moduleCache r.2).
Proof.
  intros r. split_and!; [| | |intros earlier; apply transformMultipleFiles_earlier].
  all: subst r; unfold transformMultipleFiles;
    destruct (secondPass parse files deps (firstPass files) auto files
                {| moduleCache := []; console := console st |}) as [res st'] eqn:Hs.
  - assert (Hkeys : ∀ k, k ∈ map fst (moduleCache st') → k ∈ map name files).
    { intros k Hk. destruct (secondPass_keys_any _ _ _ _ _ _ _ _ _ k Hs Hk) as [H|H]; [|done].
      by apply elem_of_nil in H. }
    destruct res as [[]|e]; [|done]. destruct (findEntry files) as [entryFile|]; [|done].
    by destruct (assoc (name entryFile) (moduleCache st')).
  - assert (Hnd : NoDup (map fst (moduleCache st'))).
    { eapply secondPass_NoDup_any; [exact Hs|]. apply NoDup_nil_2. }
    destruct res as [[]|e]; [|done]. destruct (findEntry files) as [entryFile|]; [|done].
    by destruct (assoc (name entryFile) (moduleCache st')).
  - destruct res as [[]|e]; [|done].
    assert (Hall : ∀ f, f ∈ files → name f ∈ map fst (moduleCache st')).
    { intros f Hf. by eapply secondPass_covers. }
    destruct (findEntry files) as [entryFile|]; [|done].
    destruct (assoc (name entryFile) (moduleCache st')); [|done].
    intros src f _. apply Hall.
Qed.

(** X18.  An empty file array is an error, not a component: the security check
    has nothing to test and leaves the patterns alone, the transformer finds
    no entry file, and [executeCode] returns the message of the [TypeError]
    raised by reading [name] of [undefined]. *)
Theorem empty_file_list_is_an_error (parse : string → completion Parsed)
    (stack : nat) (deps : Dependencies) (patterns : list RegExp) (bypass auto : bool)
    (react : value) (sw : option Window) (st : UtilsState) :
  let r := executeCode parse stack (Files []) deps patterns bypass auto react sw st in
  result r = {| Component := None;
                error := Some "Cannot read properties of undefined (reading 'name')";
                forbiddenPatterns := false |} ∧
  patterns_after r = patterns ∧
  moduleCache (utils_after r) = [].
Proof. intros r. subst r. by destruct bypass. Qed.

(** ** Missing dependencies *)

Lemma set_add_elem x y s : y ∈ set_add x s ↔ y ∈ s ∨ y = x.
Proof.
  unfold set_add. destruct (existsb (String.eqb x) s) eqn:E.
  - apply existsb_eqb_true in E. split; [by left|]. by intros [?| ->].
  - rewrite elem_of_app, list_elem_of_singleton. done.
Qed.

Lemma set_add_NoDup x s : NoDup s → NoDup (set_add x s).
Proof.
  intros Hnd. unfold set_add. destruct (existsb (String.eqb x) s) eqn:E; [done|].
  apply NoDup_app. split_and!; [done| |apply NoDup_singleton].
  intros y Hy ->%list_elem_of_singleton.
  apply existsb_eqb_true in Hy. congruence.
Qed.

Lemma missing_fold deps (found : list found) : ∀ acc,
  fold_left (λ acc m,
    let importPath := default "" (group 1 (m_caps m)) in
    if negb (String.eqb importPath "react") && negb (startsWith importPath ".")
       && negb (startsWith importPath "/")
       && negb (suppliedDependency deps importPath)
    then set_add importPath acc else acc) found acc
  = fold_left (λ acc p, if isMissing deps p then set_add p acc else acc)
      (map (λ m, default "" (group 1 (m_caps m))) found) acc.
Proof. induction found as [|m found IH]; intros acc; [done|]. simpl. apply IH. Qed.

Lemma missingDependencies_fold files deps :
  missingDependencies files deps
  = fold_left (λ acc p, if isMissing deps p then set_add p acc else acc)
      (flat_map (λ f, importPaths (content f)) files) [].
Proof.
  unfold missingDependencies. generalize (@nil string).
  induction files as [|f files IH]; intros acc; [done|].
  cbn [fold_left flat_map]. rewrite fold_left_app, IH. f_equal. apply missing_fold.
Qed.

Lemma filtered_fold (P : string → bool) (l : list string) : ∀ acc,
  NoDup acc →
  NoDup (fold_left (λ acc p, if P p then set_add p acc else acc) l acc) ∧
  ∀ x, x ∈ fold_left (λ acc p, if P p then set_add p acc else acc) l acc ↔
       x ∈ acc ∨ (x ∈ l ∧ P x = true).
Proof.
  induction l as [|p l IH]; intros acc Hnd.
  - split; [done|]. intros x. split; [by left|]. intros [?|[?%elem_of_nil _]]; done.
  - cbn [fold_left]. destruct (P p) eqn:Hp.
    + destruct (IH (set_add p acc) (set_add_NoDup p acc Hnd)) as [H1 H2].
      split; [done|]. intros x. rewrite H2, set_add_elem, elem_of_cons.
      split.
      * intros [[?| ->]|[? ?]]; [by left|right; split; [by left|done]|right; split; [by right|done]].
      * intros [?|[[->|?] ?]]; [by left; left|by left; right|by right].
    + destruct (IH acc Hnd) as [H1 H2]. split; [done|]. intros x.
      rewrite H2, elem_of_cons. split.
      * intros [?|[? ?]]; [by left|right; split; [by right|done]].
      * intros [?|[[->|?] ?]]; [by left|congruence|by right].
Qed.

Lemma missingDependencies_elem files deps x :
  x ∈ missingDependencies files deps ↔
  (∃ f, f ∈ files ∧ x ∈ importPaths (content f)) ∧ isMissing deps x = true.
Proof.
  rewrite missingDependencies_fold.
  destruct (filtered_fold (isMissing deps) (flat_map (λ f, importPaths (content f)) files) []
              NoDup_nil_2) as [_ H].
  rewrite H. split.
  - intros [?%elem_of_nil|[Hin Hm]]; [done|]. split; [|done].
    apply list_elem_of_In, in_flat_map in Hin as (f & Hf & Hx).
    exists f. split; by apply list_elem_of_In.
  - intros [(f & Hf & Hx) Hm]. right. split; [|done].
    apply list_elem_of_In, in_flat_map. exists f. split; by apply list_elem_of_In.
Qed.

Lemma missing_dependencies_nodup files deps : NoDup (missingDependencies files deps).
Proof. rewrite missingDependencies_fold. by apply filtered_fold, NoDup_nil_2. Qed.

(** ** One run of the resolutions *)

Lemma startAll_awaited net tw missing : ∀ c,
  map fst (startAll net missing tw c).1.1 = missing.
Proof.
  induction missing as [|dep rest IH]; intros c; [done|]. cbn [startAll].
  destruct (startResolution net dep tw c) as [p c'].
  specialize (IH c'). destruct (startAll net rest tw c') as [[awaited waiting] c''].
  simpl in *. by rewrite IH.
Qed.

Lemma startAll_numbers net tw missing : ∀ c,
  NoDup missing →
  map fst (startAll net missing tw c).1.2
  = seq (length (requests c))
      (length (List.filter (λ dep, negb (is_some (cacheOf c (realmOf tw) !! dep))) missing)).
Proof.
  induction missing as [|dep rest IH]; intros c Hnd; [done|].
  apply NoDup_cons in Hnd as [Hdep Hnd]. cbn [startAll].
  destruct (start_spec net dep tw c) as (q & _ & _ & _ & Hother & _ & Hcase).
  unfold startedClosure.
  destruct (startResolution net dep tw c) as [p c'] eqn:Es. cbn [fst snd] in *.
  specialize (IH c' Hnd).
  destruct (startAll net rest tw c') as [[awaited waiting] c''] eqn:Ea. cbn [fst snd] in *.
  assert (Hfilt :
    List.filter (λ k, negb (is_some (cacheOf c' (realmOf tw) !! k))) rest
    = List.filter (λ k, negb (is_some (cacheOf c (realmOf tw) !! k))) rest).
  { apply filter_ext_in. intros k Hk. rewrite Hother; [done|].
    intros ->. by apply Hdep, list_elem_of_In. }
  rewrite Hfilt in IH.
  destruct (cacheOf c (realmOf tw) !! dep) as [q0|] eqn:E;
    cbn [List.filter]; rewrite ?E; cbn [is_some negb app].
  - destruct Hcase as [_ Hreq]. by rewrite Hreq in IH.
  - destruct Hcase as (_ & Hreq & _). rewrite Hreq, length_app in IH. cbn [length] in *.
    cbn [map fst seq]. f_equal. rewrite IH. f_equal. lia.
Qed.

Lemma fallbacksOf_started net tw c : ∀ started waiting n,
  Forall2 (λ dep nq,
     promises c !! nq.2
     = Some (Pending dep tw (importOutcome net nq.1 (cdnUrl dep) tw))) started waiting →
  map fst waiting = seq n (length started) →
  fallbacksOf c waiting = map (fallbackRequest tw) (failedPrimary net tw n started).
Proof.
  intros started waiting n H. revert n.
  induction H as [|dep [m q] started waiting Hq _ IH]; intros n Hn; [done|].
  cbn [map fst seq length] in Hn. injection Hn as -> Hn.
  rewrite fallbacksOf_cons, (IH (S n) Hn). unfold fallbacksOf at 1.
  cbn [flat_map snd fst] in *. rewrite Hq. cbn [failedPrimary].
  by destruct (importOutcome net n (cdnUrl dep) tw).
Qed.

Lemma failedPrimary_sub net tw : ∀ started n x,
  x ∈ failedPrimary net tw n started → x ∈ started.
Proof.
  induction started as [|dep rest IH]; intros n x; [done|]. cbn [failedPrimary].
  destruct (importOutcome net n (cdnUrl dep) tw).
  - intros H. apply list_elem_of_further. by eapply IH.
  - intros [->|H]%elem_of_cons; [apply list_elem_of_here|].
    apply list_elem_of_further. by eapply IH.
Qed.

Lemma failedPrimary_NoDup net tw : ∀ started n,
  NoDup started → NoDup (failedPrimary net tw n started).
Proof.
  induction started as [|dep rest IH]; intros n Hnd; [done|].
  apply NoDup_cons in Hnd as [Hdep Hnd]. cbn [failedPrimary].
  destruct (importOutcome net n (cdnUrl dep) tw); [by apply IH|].
  apply NoDup_cons. split; [|by apply IH]. intros H. by apply Hdep, (failedPrimary_sub net tw rest (S n)).
Qed.

(** What one run of the resolutions does to the resolver. *)
Lemma resolveAll_spec net missing tw nd c :
  NoDup missing →
  let r := resolveAll net missing tw nd c in
  let started :=
    List.filter (λ dep, negb (is_some (cacheOf c (realmOf tw) !! dep))) missing in
  ∃ awaited fallbacks,
    map fst awaited = missing ∧
    r.1 = addResolved r.2 awaited nd ∧
    requests r.2 = requests c ++ map (primaryRequest tw) started ++ fallbacks ∧
    fallbacks ≡ₚ map (fallbackRequest tw)
                   (failedPrimary net tw (length (requests c)) started) ∧
    (∀ q P, (∀ pkg tw' o, P ≠ Pending pkg tw' o) →
            promises c !! q = Some P → promises r.2 !! q = Some P) ∧
    (∀ k, k ∉ missing → ∀ realm, cacheOf r.2 realm !! k = cacheOf c realm !! k) ∧
    (∀ dep p, (dep, p) ∈ awaited →
       ∃ q, promises r.2 !! p = Some (Adopted q) ∧
            cacheOf r.2 (realmOf tw) !! dep = Some q ∧
            (cacheOf c (realmOf tw) !! dep = Some q ∨
             ∃ o, promises r.2 !! q = Some (Resolution dep tw o))).
Proof.
  intros Hnd r started. subst r. unfold resolveAll.
  pose proof (startAll_spec net tw missing c Hnd) as (S1 & S2 & S3 & S4 & S5 & S6 & S7 & S8).
  pose proof (startAll_numbers net tw missing c Hnd) as Hnum.
  destruct (startAll net missing tw c) as [[awaited waiting] c1] eqn:Ea. cbn [fst snd] in *.
  destruct (resumeAll_spec net waiting c1 S5) as (R1 & R2 & R3 & R4 & R5).
  fold started in S2, S3, Hnum.
  exists awaited, (fallbacksOf c1 (answerOrder net waiting)). split_and!.
  - done.
  - done.
  - rewrite R1, S2. by rewrite <- app_assoc.
  - rewrite (fallbacksOf_perm c1 _ _ (answerOrder_perm net waiting)).
    rewrite (fallbacksOf_started net tw c1 started waiting (length (requests c))); [done| |done].
    eapply Forall2_impl; [exact S3|]. by intros x y (? & _).
  - intros q P HP Hq. apply R4; [done|]. by apply S4.
  - intros k Hk realm. rewrite R2. by apply S7.
  - intros dep p Hin. destruct (S6 dep p Hin) as (q & H1 & H2 & H3). exists q.
    split_and!.
    + by apply R4.
    + by rewrite R2.
    + destruct H3 as [H3|(H3 & o & H3')]; [by left|right].
      destruct (R5 q dep tw o H3 H3') as [o' Ho']. by exists o'.
Qed.

Lemma addResolved_other c awaited : ∀ nd k,
  k ∉ map fst awaited → assoc k (addResolved c awaited nd) = assoc k nd.
Proof.
  unfold addResolved.
  induction awaited as [|[dep p] awaited IH]; intros nd k Hk; [done|].
  cbn [map fst] in Hk. apply not_elem_of_cons in Hk as [Hne Hk]. cbn [fold_left fst snd].
  rewrite IH by done.
  destruct (settled c p) as [[[]|e]|]; try done; by rewrite assoc_set_ne.
Qed.

Lemma addResolved_added c awaited : ∀ nd k v,
  assoc k (addResolved c awaited nd) = Some v →
  assoc k nd = Some v ∨ k ∈ map fst awaited.
Proof.
  unfold addResolved.
  induction awaited as [|[dep p] awaited IH]; intros nd k v H; [by left|].
  cbn [fold_left fst snd] in H. cbn [map fst].
  destruct (decide (k = dep)) as [->|Hne]; [right; apply list_elem_of_here|].
  apply IH in H as [H|H]; [|right; by apply list_elem_of_further].
  left. destruct (settled c p) as [[[]|e]|]; try done; by rewrite assoc_set_ne in H.
Qed.

Lemma addResolved_elem c awaited : ∀ nd dep p,
  NoDup (map fst awaited) → (dep, p) ∈ awaited →
  assoc dep (addResolved c awaited nd)
  = match settled c p with
    | Some (Normal VNull) => assoc dep nd
    | Some (Normal resolved) => Some resolved
    | _ => assoc dep nd
    end.
Proof.
  induction awaited as [|[dep' p'] awaited IH]; intros nd dep p Hnd Hin;
    [by apply elem_of_nil in Hin|].
  cbn [map fst] in Hnd. apply NoDup_cons in Hnd as [Hdep Hnd].
  apply elem_of_cons in Hin as [[= -> ->]|Hin].
  - change (addResolved c ((dep', p') :: awaited) nd)
      with (addResolved c awaited
              match settled c p' with
              | Some (Normal VNull) => nd
              | Some (Normal resolved) => assoc_set dep' resolved nd
              | _ => nd
              end).
    rewrite addResolved_other by done.
    destruct (settled c p') as [[[]|e]|]; try done; by rewrite assoc_set_eq.
  - change (addResolved c ((dep', p') :: awaited) nd)
      with (addResolved c awaited
              match settled c p' with
              | Some (Normal VNull) => nd
              | Some (Normal resolved) => assoc_set dep' resolved nd
              | _ => nd
              end).
    rewrite (IH _ dep p Hnd Hin).
    assert (Hne : dep ≠ dep').
    { intros ->. apply Hdep. apply list_elem_of_fmap. by exists (dep', p). }
    destruct (settled c p') as [[[]|e]|]; try done;
      destruct (settled c p) as [[[]|e']|]; try done; by rewrite assoc_set_ne.
Qed.

Lemma resolveAll_awaited net missing tw nd c :
  ∃ awaited c', map fst awaited = missing ∧
    (resolveAll net missing tw nd c).1 = addResolved c' awaited nd.
Proof.
  unfold resolveAll. pose proof (startAll_awaited net tw missing c) as H.
  destruct (startAll net missing tw c) as [[awaited waiting] c1]. cbn [fst snd] in *.
  by exists awaited, (resumeAll net waiting c1).
Qed.

Lemma resolveAll_other net missing tw nd c k :
  k ∉ missing → assoc k (resolveAll net missing tw nd c).1 = assoc k nd.
Proof.
  intros Hk. destruct (resolveAll_awaited net missing tw nd c) as (awaited & c' & <- & ->).
  by apply addResolved_other.
Qed.

Lemma resolveAll_added net missing tw nd c k v :
  assoc k (resolveAll net missing tw nd c).1 = Some v →
  assoc k nd = Some v ∨ k ∈ missing.
Proof.
  destruct (resolveAll_awaited net missing tw nd c) as (awaited & c' & <- & ->).
  apply addResolved_added.
Qed.



(** ** What the resolution effect writes *)

(** X20.  Resolution adds to the supplied dependencies and never overrides a
    usable one.  Whenever the resolution effect writes the resolved
    dependencies, every supplied entry with a truthy value is in them
    unchanged, and every entry in them is a supplied entry or belongs to a
    package the effect found missing. *)
Theorem resolution_keeps_supplied (net : Network) (cfg : Config) (code : Code)
    (hasChanges cancelled : bool) (s : ExecutorState) :
  let s' := resolveEffect net cfg code hasChanges cancelled s in
  resolvedDependencies s' = resolvedDependencies s ∨
  ((∀ k v, assoc k (dependencies cfg) = Some v → truthy v = true →
           assoc k (resolvedDependencies s') = Some v) ∧
   (∀ k v, assoc k (resolvedDependencies s') = Some v →
           assoc k (dependencies cfg) = Some v ∨
           k ∈ missingDependencies (codeFilesOf code) (dependencies cfg))).
Proof.
  intros s'. subst s'. unfold resolveEffect.
  destruct (negb hasChanges); [by left|].
  destruct (negb (autoResolvePackage cfg)); [right; split; [done|by left]|].
  destruct (missingDependencies (codeFilesOf code) (dependencies cfg)) as [|d0 rest] eqn:Em;
    [right; split; [done|by left]|].
  destruct (sandbox cfg && _); [by left|].
  rewrite <- Em.
  destruct (resolveAll net _ _ (dependencies cfg) (cdn s)) as [newDeps c] eqn:Er.
  destruct cancelled; [by left|]. right. cbn [resolvedDependencies set_loading set_resolved].
  assert (Hnew : newDeps = (resolveAll net (missingDependencies (codeFilesOf code)
    (dependencies cfg)) (if sandbox cfg then iframeWindow s else None)
    (dependencies cfg) (cdn s)).1) by by rewrite Er.
  split.
  - intros k v Hk Hv. rewrite Hnew, resolveAll_other; [done|].
    intros Hin. apply missingDependencies_elem in Hin as [_ Hm].
    unfold isMissing, suppliedDependency in Hm. rewrite Hk, Hv in Hm.
    by rewrite andb_false_r in Hm.
  - intros k v Hk. rewrite Hnew in Hk. by apply resolveAll_added in Hk.
Qed.

(** X21.  In sandbox mode nothing is fetched or executed before the iframe is
    ready and has a window: a run of the two effects leaves the execution
    result, the request log, the transformer state, the patterns and the
    sandbox root as they were. *)
Theorem sandbox_waits_for_the_iframe (parse : string → completion Parsed)
    (stack : nat) (net : Network) (React : value) (cfg : Config) (code : Code)
    (hasChanges cancelled : bool) (s : ExecutorState) :
  sandbox cfg = true →
  iframeReady s = false ∨ iframeWindow s = None →
  let s' := executeEffect parse stack React cfg code hasChanges
              (resolveEffect net cfg code hasChanges cancelled s) in
  executionResult s' = executionResult s ∧
  requests (cdn s') = requests (cdn s) ∧
  utils s' = utils s ∧
  securityPatterns s' = securityPatterns s ∧
  sandboxRoot s' = sandboxRoot s ∧
  prevCodeRef s' = prevCodeRef s.
Proof.
  intros Hsb Hwait s'. subst s'.
  set (s1 := resolveEffect net cfg code hasChanges cancelled s).
  assert (H1 : executionResult s1 = executionResult s ∧ requests (cdn s1) = requests (cdn s) ∧
               utils s1 = utils s ∧ securityPatterns s1 = securityPatterns s ∧
               sandboxRoot s1 = sandboxRoot s ∧ prevCodeRef s1 = prevCodeRef s ∧
               iframeReady s1 = iframeReady s ∧ iframeWindow s1 = iframeWindow s).
  { subst s1. unfold resolveEffect. destruct (negb hasChanges); [done|].
    destruct (negb (autoResolvePackage cfg)); [done|].
    destruct (missingDependencies _ _); [done|].
    rewrite Hsb. cbn [andb].
    assert (negb (iframeReady s) || negb (is_some (iframeWindow s)) = true) as ->.
    { destruct Hwait as [-> | ->]; [done|]. by rewrite orb_true_r. }
    done. }
  destruct H1 as (E1 & E2 & E3 & E4 & E5 & E6 & E7 & E8).
  assert (Hsame : executeEffect parse stack React cfg code hasChanges s1 = s1).
  { unfold executeEffect. destruct (negb hasChanges || isLoading s1); [done|].
    rewrite Hsb, E7, E8. destruct Hwait as [-> | ->]; [done|]. by destruct (iframeReady s). }
  rewrite Hsame. done.
Qed.

(** X21 at the initial state of a sandboxed executor. *)
Lemma sandbox_waits_for_the_iframe_witness :
  let cfg := {| dependencies := []; onError := true; autoResolvePackage := true;
                sandbox := true |} in
  let s := initialState cfg defaultSecurityPatterns in
  executionResult
    (executeEffect leftPadParse 64 hostReact cfg (Source leftPadSource) true
       (resolveEffect offline cfg (Source leftPadSource) true false s))
  = initialExecutionResult.
Proof.
  intros cfg s.
  apply (sandbox_waits_for_the_iframe leftPadParse 64 offline hostReact cfg
           (Source leftPadSource) true false s); [reflexivity|left; reflexivity].
Defined.

(** ** [isCodeDifferent] *)

Lemma fileDiffers_false a b : fileDiffers a b = false ↔ a = b.
Proof.
  unfold fileDiffers. rewrite !orb_false_iff, !negb_false_iff, !String.eqb_eq.
  rewrite bool_decide_eq_true. destruct a, b; simpl. split.
  - by intros [[-> ->] ->].
  - by intros [= -> -> ->].
Qed.

Lemma files_differ_false prev : ∀ new,
  length prev = length new →
  existsb (λ pair, fileDiffers pair.1 pair.2) (combine prev new) = false ↔ prev = new.
Proof.
  induction prev as [|a prev IH]; intros [|b new] Hlen; simpl in *; try done.
  rewrite orb_false_iff, fileDiffers_false, IH by lia. split.
  - by intros [-> ->].
  - by intros [= -> ->].
Qed.

Lemma isCodeDifferent_false_iff (prevCode : option Code) (newCode : Code) :
  isCodeDifferent prevCode newCode = false ↔
  prevCode = Some newCode ∧ newCode ≠ Source "".
Proof.
  destruct prevCode as [[prev|prev]|]; cbn [isCodeDifferent].
  - destruct prev as [|c prev].
    + split; [done|]. by intros [[= <-] H].
    + destruct newCode as [new|new].
      * rewrite negb_false_iff, String.eqb_eq. split.
        -- intros <-. done.
        -- by intros [[= ->] _].
      * split; [done|]. by intros [[=] _].
  - destruct newCode as [new|new].
    + split; [done|]. by intros [[=] _].
    + destruct (Nat.eqb_spec (length prev) (length new)) as [Hlen|Hlen]; cbn [negb].
      * rewrite files_differ_false by done. split.
        -- by intros ->.
        -- by intros [[= ->] _].
      * split; [done|]. intros [[= ->] _]. done.
  - split; [done|]. by intros [[=] _].
Qed.

(** X22.  [isCodeDifferent] reports no change exactly when the previous code is
    the new code, field by field, with one exception: a previous code that
    is the empty string always counts as changed, as does an absent one; the
    empty file array does not. *)
Theorem isCodeDifferent_characterised (prevCode : option Code) (newCode : Code) :
  isCodeDifferent prevCode newCode = false ↔
  prevCode = Some newCode ∧ newCode ≠ Source "".
Proof. apply isCodeDifferent_false_iff. Qed.

(** ** The security check on patterns without the [g] and [y] flags *)

Lemma RegExp_test_nonglobal p text :
  stateful p = false → RegExp_test p text = (matchesPattern p text, p).
Proof.
  unfold stateful. intros [Hg Hy]%orb_false_iff.
  unfold RegExp_test, matchesPattern. rewrite Hg, Hy. cbn [orb].
  by destruct (search (re_ignoreCase p) (re_ast p) 0 text).
Qed.

Lemma testPatterns_nonglobal text patterns :
  Forall (λ p, stateful p = false) patterns →
  testPatterns text patterns = (firstMatch text patterns, patterns).
Proof.
  induction 1 as [|p patterns Hp _ IH]; [done|].
  cbn [testPatterns]. rewrite (RegExp_test_nonglobal p text Hp).
  unfold firstMatch in *. cbn [find].
  destruct (matchesPattern p text); [done|]. by rewrite IH.
Qed.

Lemma securityCheck_nonglobal files patterns :
  Forall (λ p, stateful p = false) patterns →
  securityCheck files patterns = (firstViolation files patterns, patterns).
Proof.
  intros Hg. induction files as [|file files IH]; [done|].
  cbn [securityCheck firstViolation]. rewrite (testPatterns_nonglobal _ _ Hg).
  by destruct (firstMatch (content file) patterns).
Qed.

Lemma firstViolation_some files patterns :
  is_some (firstViolation files patterns)
  = existsb (λ f, existsb (λ p, matchesPattern p (content f)) patterns) files.
Proof.
  induction files as [|file files IH]; [done|]. cbn [firstViolation existsb].
  unfold firstMatch.
  assert (Hfind : ∀ ps, is_some (find (λ p, matchesPattern p (content file)) ps)
                        = existsb (λ p, matchesPattern p (content file)) ps).
  { induction ps as [|p ps IHp]; [done|]. simpl.
    by destruct (matchesPattern p (content file)). }
  rewrite <- Hfind. destruct (find _ patterns); [done|]. exact IH.
Qed.

(** X23.  Patterns with neither the [g] nor the [y] flag are never changed by
    the security check, and its verdict is the first violation in file order
    and then pattern order: a run with such patterns reports that violation
    and leaves the transformer untouched, or reports none; in both cases the
    pattern objects are as before, so a later run decides the same. *)
Theorem security_check_without_g_flag (parse : string → completion Parsed)
    (stack : nat) (input : Code) (deps : Dependencies) (patterns : list RegExp)
    (auto : bool) (react : value) (sw : option Window) (st : UtilsState) :
  Forall (λ p, stateful p = false) patterns →
  let r := executeCode parse stack input deps patterns false auto react sw st in
  patterns_after r = patterns ∧
  match firstViolation (codeFilesOf input) patterns with
  | Some (file, p) =>
      result r = {| Component := None; error := Some (forbiddenMessage file p);
                    forbiddenPatterns := true |} ∧
      utils_after r = st
  | None => forbiddenPatterns (result r) = false
  end.
Proof.
  intros Hg r. subst r. unfold executeCode. rewrite (securityCheck_nonglobal _ _ Hg).
  destruct (firstViolation (codeFilesOf input) patterns) as [[file p]|]; [done|].
  by destruct (compileAndRun _ _ _ _ _ _ _ _) as [[C|e] st'].
Qed.

Lemma default_patterns_nonglobal : Forall (λ p, stateful p = false) defaultSecurityPatterns.
Proof. repeat constructor. Qed.

(** X23 at the default patterns and a text that calls [eval]. *)
Lemma security_check_without_g_flag_witness :
  let r := executeCode evalParse 64 (Source evalSource) [] defaultSecurityPatterns false true
             hostReact None emptyUtils in
  patterns_after r = defaultSecurityPatterns ∧
  error (result r) = Some "Forbidden code pattern detected in index.tsx: /eval\(/i".
Proof.
  intros r.
  destruct (security_check_without_g_flag evalParse 64 (Source evalSource) []
              defaultSecurityPatterns true hostReact None emptyUtils)
    as [Hp Hv]; [repeat constructor|].
  fold r in Hp, Hv. split; [exact Hp|].
  assert (Hfv : firstViolation (codeFilesOf (Source evalSource)) defaultSecurityPatterns
                = Some ({| name := "index.tsx"; content := evalSource; isEntry := Some true |},
                        mkPattern "/eval\(/i" (lit "eval("))) by (vm_compute; reflexivity).
  rewrite Hfv in Hv. destruct Hv as [Hr _]. rewrite Hr. reflexivity.
Defined.

Lemma matches_default t w text :
  matchesPattern (mkPattern t (lit w)) text = contains true text w.
Proof. unfold matchesPattern, mkPattern. cbn [re_ignoreCase re_ast]. apply search_lit. Qed.

(** X24.  With the default patterns the security check is a search for six
    phrases that ignores letter case: [executeCode] reports forbidden
    patterns exactly when the content of some file contains one of them,
    and the default pattern objects are never changed. *)
Theorem default_security_gate (parse : string → completion Parsed)
    (stack : nat) (input : Code) (deps : Dependencies) (auto : bool) (react : value)
    (sw : option Window) (st : UtilsState) :
  let r := executeCode parse stack input deps defaultSecurityPatterns false auto react sw st in
  forbiddenPatterns (result r)
  = existsb (λ f, existsb (contains true (content f)) forbiddenPhrases) (codeFilesOf input) ∧
  patterns_after r = defaultSecurityPatterns.
Proof.
  intros r. subst r. unfold executeCode.
  rewrite (securityCheck_nonglobal _ _ default_patterns_nonglobal).
  assert (Hex : is_some (firstViolation (codeFilesOf input) defaultSecurityPatterns)
    = existsb (λ f, existsb (contains true (content f)) forbiddenPhrases) (codeFilesOf input)).
  { rewrite firstViolation_some. induction (codeFilesOf input) as [|f l IH]; [done|].
    cbn [existsb]. rewrite IH. f_equal.
    unfold defaultSecurityPatterns, forbiddenPhrases. cbn [existsb].
    by rewrite !matches_default. }
  rewrite <- Hex.
  destruct (firstViolation (codeFilesOf input) defaultSecurityPatterns) as [[file p]|]; [done|].
  by destruct (compileAndRun _ _ _ _ _ _ _ _) as [[C|e] st'].
Qed.

(** ** Files without an export *)

Lemma contains_includes s w : contains false s w = includes s w.
Proof.
  induction s as [|c s IH]; cbn [contains includes]; rewrite prefix_ci_prefixb; [done|].
  by rewrite IH.
Qed.

Lemma search_needs_prefix w r s : ∀ pos,
  includes s w = false → search false (Seq (lit w) r) pos s = None.
Proof.
  induction s as [|c s IH]; intros pos; cbn [includes search rmatch];
    rewrite rmatch_lit, prefix_ci_prefixb.
  - rewrite orb_false_r. by intros ->.
  - intros [-> Hs]%orb_false_iff. by apply IH.
Qed.

Lemma replace_all_none r t s : search false r 0 s = None → replace_all r t s = s.
Proof. intros H. unfold replace_all. cbn [replace_from]. by rewrite H. Qed.

Lemma exec_all_none r s : search false r 0 s = None → exec_all r s = [].
Proof. intros H. unfold exec_all. cbn [exec_all_from]. by rewrite H. Qed.

Lemma find_name (files : list CodeFile) f :
  NoDup (map name files) → f ∈ files →
  find (λ g, String.eqb (name g) (name f)) files = Some f.
Proof.
  induction files as [|g files IH]; intros Hnd Hf; [by apply elem_of_nil in Hf|].
  apply NoDup_cons in Hnd as [Hg Hnd]. cbn [find].
  apply elem_of_cons in Hf as [->|Hf]; [by rewrite String.eqb_refl|].
  destruct (String.eqb_spec (name g) (name f)) as [E|_]; [|by apply IH].
  exfalso. apply Hg. rewrite E. apply list_elem_of_fmap. by exists f.
Qed.

Lemma no_export_search text r pos :
  includes text "export" = false → search false (Seq (lit "export") r) pos text = None.
Proof. by apply search_needs_prefix. Qed.

Lemma removeDefaultExport_no_export text :
  includes text "export" = false →
  removeDefaultExport text = {| modifiedInput := text; exportedName := None |}.
Proof.
  intros Hno. unfold removeDefaultExport, match_first.
  assert (H1 : search false defaultExportWithDeclarationRegex 0 text = None)
    by by apply no_export_search.
  assert (H2 : search false defaultExportRegex 0 text = None) by by apply no_export_search.
  assert (H3 : replace_all typeExportRegex [] text = text)
    by by apply replace_all_none, no_export_search.
  assert (H4 : replace_all interfaceExportRegex [] text = text)
    by by apply replace_all_none, no_export_search.
  by rewrite H1, H2, H3, H4.
Qed.

Lemma declaredExports_no_export text :
  includes text "export" = false → declaredExports text [] = [].
Proof.
  intros Hno. unfold declaredExports.
  by rewrite (exec_all_none exportRegex text (no_export_search text _ 0 Hno)).
Qed.

Lemma listedExports_no_export text :
  includes text "export" = false → listedExports text [] = [].
Proof.
  intros Hno. unfold listedExports.
  by rewrite (exec_all_none exportBraceRegex text (no_export_search text _ 0 Hno)).
Qed.

Lemma preprocess_no_export text :
  includes text "export" = false →
  preprocess text
  = if includes text "import React from" || includes text "import * as React from"
    then replace_all reactImportRegex [] text else text.
Proof.
  intros Hno. unfold preprocess.
  assert (H1 : replace_all exportRegex [Grp 1; Lit " "; Grp 2] text = text)
    by by apply replace_all_none, no_export_search.
  assert (H2 : replace_all exportBraceStatementRegex [] text = text)
    by by apply replace_all_none, no_export_search.
  assert (H3 : replace_all typeExportRegex [] text = text)
    by by apply replace_all_none, no_export_search.
  assert (H4 : replace_all interfaceExportRegex [] text = text)
    by by apply replace_all_none, no_export_search.
  by rewrite H1, H2, H3, H4.
Qed.

(** X25.  A file whose text does not contain the word [export] exports
    nothing.  Its text is handed to Babel as it is, apart from the removal
    of an import of [React]; pass 1 records no default export and no named
    export; and its module definition has no epilogue, so its instance is
    [module.exports] as the module code left it. *)
Theorem file_without_export (parse : string → completion Parsed)
    (files : list CodeFile) (deps : Dependencies) (auto : bool) (f : CodeFile) :
  includes (content f) "export" = false →
  NoDup (map name files) → f ∈ files →
  removeDefaultExport (content f) = {| modifiedInput := content f; exportedName := None |} ∧
  scanExports f = {| hasDefaultExport := false; namedExports := [];
                     info_exportedName := None |} ∧
  processedInput f
  = (if includes (content f) "import React from"
        || includes (content f) "import * as React from"
     then replace_all reactImportRegex [] (content f) else content f) ∧
  ∀ m w, transformFile parse files deps (firstPass files) auto f = Normal (m, w) →
    let d := moduleDefinitionOf files (name f, m) in
    exportsSetup d = [] ∧
    ∀ gm outer cache,
      runProg gm outer (moduleFactory d) cache
      = match runProg gm outer (execStatements (code m) emptyScope) cache with
        | (Normal sc, cache') => (Normal (module_exports sc), cache')
        | (Throw e, cache') => (Throw e, cache')
        end.
Proof.
  intros Hno Hnd Hf.
  pose proof (removeDefaultExport_no_export _ Hno) as Hr.
  assert (Hscan : scanExports f = {| hasDefaultExport := false; namedExports := [];
                                     info_exportedName := None |}).
  { unfold scanExports. rewrite Hr. cbn [modifiedInput exportedName is_some].
    by rewrite declaredExports_no_export, listedExports_no_export. }
  split_and!; [done|done| |].
  - unfold processedInput. rewrite Hr. by apply preprocess_no_export.
  - intros m w Ht d.
    assert (Hsetup : exportsSetup d = []).
    { unfold transformFile in Ht.
      destruct (transform _ _ _ _) as [t|e]; [|done]. cbn [bindC] in Ht.
      injection Ht as <- _. subst d. unfold moduleDefinitionOf.
      cbn [mod_exportInfo mod_exportedName exportsSetup].
      rewrite firstPass_build, (build_member name scanExports files [] f Hnd Hf).
      rewrite Hscan. cbn [default info_exportedName app].
      rewrite (find_name files f Hnd Hf).
      rewrite (declaredExports_no_export _ Hno).
      rewrite (exec_all_none exportRegex _ (no_export_search _ _ 0 Hno)).
      cbn [map last mbind option_bind app]. by destruct (includes (name f) "use"). }
    split; [done|]. intros gm outer cache. unfold moduleFactory.
    rewrite runProg_bindP. change (def_code d) with (code m).
    destruct (runProg gm outer (execStatements (code m) emptyScope) cache) as [[sc|e] c'];
      [|done].
    by rewrite Hsetup.
Qed.

(** X25 at a text without an export. *)
Lemma file_without_export_witness :
  scanExports {| name := "index.tsx"; content := evalSource; isEntry := Some true |}
  = {| hasDefaultExport := false; namedExports := []; info_exportedName := None |}.
Proof.
  refine (proj1 (proj2 (file_without_export evalParse (codeFilesOf (Source evalSource)) []
                          true _ _ _ _))).
  - vm_compute; reflexivity.
  - apply NoDup_cons. split; [apply not_elem_of_nil|apply NoDup_nil_2].
  - apply list_elem_of_here.
Defined.

(** ** Import cycles *)

Lemma evalExpr_getModule_throws gm outer init k e c' : ∀ sc {A} (f : value → prog A) c,
  getModuleArgument init = [k] →
  gm k c = (Throw e, c') →
  runProg gm outer (bindP (evalExpr init sc) f) c = (Throw e, c').
Proof.
  induction init as [x|object IH property|arg]; intros sc A f c Harg Hgm.
  - done.
  - cbn [evalExpr]. rewrite runProg_bindP.
    specialize (IH sc value (λ v, liftC (get_prop v property)) c Harg Hgm).
    by rewrite IH.
  - simpl in Harg. simplify_eq. cbn [evalExpr bindP runProg]. by rewrite Hgm.
Qed.

(** X26.  An import cycle never yields a module.  When every module of a set
    begins with an import from a module of the set and none of them is in
    the registry, [getModule] on any of them ends with the engine's
    [RangeError] for an exhausted call stack, however deep the stack is,
    and leaves the registry as it was. *)
Theorem import_cycle_overflows (depth : nat) (definitions : list (string * ModuleDefinition))
    (outer : string → completion value) (cycle : list string)
    (cache : list (string * value)) (name0 : string) :
  (∀ k, k ∈ cycle →
     assoc k cache = None ∧
     ∃ d x init rest k',
       assoc k definitions = Some d ∧
       def_code d = VariableDeclaration x init :: rest ∧
       getModuleArgument init = [k'] ∧ k' ∈ cycle) →
  name0 ∈ cycle →
  getModule depth definitions outer name0 cache
  = (Throw (VError "Maximum call stack size exceeded"), cache).
Proof.
  intros Hcycle. revert name0.
  induction depth as [|depth IH]; intros name0 Hin;
    destruct (Hcycle name0 Hin) as (Hc & d & x & init & rest & k' & Hd & Hcode & Harg & Hk');
    cbn [getModule]; rewrite Hc, Hd; [done|].
  unfold moduleFactory. rewrite Hcode. cbn [execStatements execStatement].
  do 2 rewrite runProg_bindP.
  rewrite (evalExpr_getModule_throws _ outer init k' _ cache emptyScope _ cache Harg (IH k' Hk')).
  done.
Qed.

(** X26 at two files that import each other. *)
Lemma import_cycle_overflows_witness :
  getModule 64 (definitionsMap cycleFactory) (readOuter (factoryScope cycleFactory hostReact []))
    "A" []
  = (Throw (VError "Maximum call stack size exceeded"), []).
Proof.
  apply (import_cycle_overflows 64 (definitionsMap cycleFactory) _ ["A"; "B"] [] "A");
    [|apply list_elem_of_here].
  intros k Hk. split; [reflexivity|].
  apply elem_of_cons in Hk as [->|Hk].
  - exists {| normalizedName := "A";
              def_code := [const_member "b" (CallGetModule "B") "b"; bindsFunction "a"];
              exportsSetup := [ExportNamed "a"] |},
           "b", (MemberExpression (CallGetModule "B") "b"), [bindsFunction "a"], "B".
    split_and!; [vm_compute; reflexivity|reflexivity|reflexivity|].
    apply list_elem_of_further, list_elem_of_here.
  - apply list_elem_of_singleton in Hk as ->.
    exists {| normalizedName := "B";
              def_code := [const_member "a" (CallGetModule "A") "a"; bindsFunction "b"];
              exportsSetup := [ExportNamed "b"] |},
           "a", (MemberExpression (CallGetModule "A") "a"), [bindsFunction "b"], "A".
    split_and!; [vm_compute; reflexivity|reflexivity|reflexivity|].
    apply list_elem_of_here.
Defined.

(** ** The bypass *)

Lemma renderInSandbox_fields c s :
  executionResult (renderInSandbox c s) = executionResult s ∧
  securityPatterns (renderInSandbox c s) = securityPatterns s ∧
  prevCodeRef (renderInSandbox c s) = prevCodeRef s ∧
  prevSandboxContextRef (renderInSandbox c s) = prevSandboxContextRef s.
Proof. unfold renderInSandbox. by destruct (iframeWindow s). Qed.

(** X27.  The bypass runs the code without testing any pattern.  After
    [handleBypassSecurity] the pattern objects are as they were, the result
    is never a security violation, the context of the run is recorded, and
    the code is recorded as the previous code: [isCodeDifferent] of the
    recorded code and that code is false exactly when the code is not the
    empty string. *)
Theorem bypass_skips_the_security_check (parse : string → completion Parsed)
    (stack : nat) (React : value) (cfg : Config) (input : Code) (s : ExecutorState) :
  let s' := handleBypassSecurity parse stack React cfg input s in
  securityPatterns s' = securityPatterns s ∧
  forbiddenPatterns (executionResult s') = false ∧
  prevSandboxContextRef s' = Some (sandboxContext cfg) ∧
  (isCodeDifferent (prevCodeRef s') input = false ↔ input ≠ Source "").
Proof.
  intros s'. subst s'. unfold handleBypassSecurity, attempt.
  set (r := executeCode parse stack input (resolvedDependencies s) (securityPatterns s) true
              (autoResolvePackage cfg) React (if sandbox cfg then iframeWindow s else None)
              (utils s)).
  assert (Hr : patterns_after r = securityPatterns s ∧ forbiddenPatterns (result r) = false).
  { subst r. unfold executeCode. cbn iota.
    by destruct (compileAndRun _ _ _ _ _ _ _ _) as [[C|e] st']. }
  destruct Hr as [Hp Hf].
  assert (Hs : ∀ s1, s1 = commit cfg input r s ∨
                     s1 = renderInSandbox (Component (result r)) (commit cfg input r s) →
    securityPatterns s1 = securityPatterns s ∧
    forbiddenPatterns (executionResult s1) = false ∧
    prevSandboxContextRef s1 = Some (sandboxContext cfg) ∧
    (isCodeDifferent (prevCodeRef s1) input = false ↔ input ≠ Source "")).
  { intros s1 Hs1.
    assert (Hsame : executionResult s1 = result r ∧ securityPatterns s1 = patterns_after r ∧
                    prevCodeRef s1 = Some input ∧
                    prevSandboxContextRef s1 = Some (sandboxContext cfg)).
    { destruct Hs1 as [-> | ->]; [done|].
      destruct (renderInSandbox_fields (Component (result r)) (commit cfg input r s))
        as (-> & -> & -> & ->). done. }
    destruct Hsame as (-> & -> & -> & ->). split_and!; try done.
    rewrite isCodeDifferent_false_iff. split; [by intros [_ ?]|done]. }
  destruct (sandbox cfg && is_some (Component (result r))); apply Hs; [by right|by left].
Qed.

(** ** What the resolution effect requests *)

Lemma count_in_zero realm url l :
  {| req_realm := realm; req_url := url |} ∉ l → count_in realm url l = 0.
Proof.
  intros H. unfold count_in.
  destruct (filter (λ r, r = {| req_realm := realm; req_url := url |}) l) as [|y t] eqn:E;
    [done|].
  assert (Hy : y ∈ filter (λ r, r = {| req_realm := realm; req_url := url |}) l)
    by (rewrite E; apply list_elem_of_here).
  apply list_elem_of_filter in Hy as [-> Hy]. done.
Qed.

Lemma count_in_NoDup realm url l : NoDup l → count_in realm url l ≤ 1.
Proof.
  induction 1 as [|x l Hx Hnd IH]; [unfold count_in; simpl; lia|].
  change (x :: l) with ([x] ++ l). rewrite count_in_app.
  destruct (decide (x = {| req_realm := realm; req_url := url |})) as [->|Hne].
  - rewrite (count_in_zero realm url l Hx). unfold count_in. rewrite filter_cons.
    case_decide; simpl; lia.
  - rewrite (count_in_zero realm url [x]); [lia|].
    intros ?%list_elem_of_singleton. done.
Qed.

Lemma NoDup_List_filter {A} (f : A → bool) (l : list A) : NoDup l → NoDup (List.filter f l).
Proof.
  induction 1 as [|x l Hx Hnd IH]; [constructor|]. simpl. destruct (f x); [|done].
  constructor; [|done]. intros Hin. apply Hx.
  apply list_elem_of_In in Hin. apply List.filter_In in Hin. destruct Hin as [Hin _].
  by apply list_elem_of_In.
Qed.

Lemma resolveAll_requests net missing tw nd c :
  NoDup missing →
  ∃ new, requests (resolveAll net missing tw nd c).2 = requests c ++ new ∧
    (∀ r, r ∈ new →
       req_realm r = realmOf tw ∧
       ∃ pkg, pkg ∈ missing ∧ (req_url r = cdnUrl pkg ∨ req_url r = fallbackUrl pkg)) ∧
    ∀ realm k, count_in realm (cdnUrl k) new ≤ 1 ∧ count_in realm (fallbackUrl k) new ≤ 1.
Proof.
  intros Hnd.
  destruct (resolveAll_spec net missing tw nd c Hnd)
    as (awaited & fallbacks & _ & _ & Hreq & Hperm & _).
  set (started := List.filter (λ dep, negb (is_some (cacheOf c (realmOf tw) !! dep))) missing)
    in *.
  assert (Hsub : ∀ x, x ∈ started → x ∈ missing).
  { intros x Hx. apply list_elem_of_In in Hx. apply List.filter_In in Hx. destruct Hx as [Hx _].
    by apply list_elem_of_In. }
  assert (Hst : NoDup started) by by apply NoDup_List_filter.
  assert (Hfb : ∀ r, r ∈ fallbacks → ∃ pkg, pkg ∈ missing ∧ r = fallbackRequest tw pkg).
  { intros r Hr. rewrite Hperm in Hr. apply list_elem_of_fmap in Hr as (pkg & -> & Hp).
    exists pkg. split; [|done]. by eapply Hsub, failedPrimary_sub. }
  assert (Hpr : ∀ r, r ∈ map (primaryRequest tw) started →
                     ∃ pkg, pkg ∈ missing ∧ r = primaryRequest tw pkg).
  { intros r (pkg & -> & Hp)%list_elem_of_fmap. exists pkg. split; [by apply Hsub|done]. }
  exists (map (primaryRequest tw) started ++ fallbacks). split; [done|]. split.
  - intros r [Hr|Hr]%elem_of_app.
    + destruct (Hpr r Hr) as (pkg & Hp & ->). split; [done|]. exists pkg. split; [done|by left].
    + destruct (Hfb r Hr) as (pkg & Hp & ->). split; [done|]. exists pkg. split; [done|by right].
  - intros realm k. rewrite !count_in_app. split.
    + rewrite (count_in_zero realm (cdnUrl k) fallbacks).
      * pose proof (count_in_NoDup realm (cdnUrl k) (map (primaryRequest tw) started)) as H.
        rewrite Nat.add_0_r. apply H. apply NoDup_fmap_2_strong; [|done].
        intros x y _ _ Hu. apply cdnUrl_inj. exact (f_equal req_url Hu).
      * intros Hin. destruct (Hfb _ Hin) as (pkg & _ & Hu).
        apply (f_equal req_url) in Hu. by apply cdnUrl_fallbackUrl in Hu.
    + rewrite (count_in_zero realm (fallbackUrl k) (map (primaryRequest tw) started)).
      * apply count_in_NoDup. rewrite Hperm. apply NoDup_fmap_2_strong.
        -- intros x y _ _ Hu. apply fallbackUrl_inj. exact (f_equal req_url Hu).
        -- by apply failedPrimary_NoDup.
      * intros Hin. destruct (Hpr _ Hin) as (pkg & _ & Hu).
        apply (f_equal req_url) in Hu. symmetry in Hu. by apply cdnUrl_fallbackUrl in Hu.
Qed.

(** X28.  The resolution effect asks the network for missing packages only.
    In one run it adds to the request log nothing but esm.sh and jsDelivr
    URLs of packages it found missing, each of them at most once, and all
    in the realm of the execution: the sandbox window in sandbox mode, the
    host otherwise. *)
Theorem resolution_requests_missing_only (net : Network) (cfg : Config) (input : Code)
    (hasChanges cancelled : bool) (s : ExecutorState) :
  let realm := realmOf (if sandbox cfg then iframeWindow s else None) in
  ∃ new,
    requests (cdn (resolveEffect net cfg input hasChanges cancelled s))
    = requests (cdn s) ++ new ∧
    (∀ r, r ∈ new →
       req_realm r = realm ∧
       ∃ pkg, pkg ∈ missingDependencies (codeFilesOf input) (dependencies cfg) ∧
              (req_url r = cdnUrl pkg ∨ req_url r = fallbackUrl pkg)) ∧
    ∀ pkg, count_in realm (cdnUrl pkg) new ≤ 1 ∧ count_in realm (fallbackUrl pkg) new ≤ 1.
Proof.
  intros realm.
  assert (Hnone : ∀ s', requests (cdn s') = requests (cdn s) →
    ∃ new, requests (cdn s') = requests (cdn s) ++ new ∧
      (∀ r, r ∈ new →
         req_realm r = realm ∧
         ∃ pkg, pkg ∈ missingDependencies (codeFilesOf input) (dependencies cfg) ∧
                (req_url r = cdnUrl pkg ∨ req_url r = fallbackUrl pkg)) ∧
      ∀ pkg, count_in realm (cdnUrl pkg) new ≤ 1 ∧ count_in realm (fallbackUrl pkg) new ≤ 1).
  { intros s' Hs'. exists []. rewrite app_nil_r. split; [done|].
    split; [by intros r ?%elem_of_nil|]. intros pkg. unfold count_in. simpl. lia. }
  unfold resolveEffect. destruct (negb hasChanges); [by apply Hnone|].
  destruct (negb (autoResolvePackage cfg)); [by apply Hnone|].
  destruct (missingDependencies (codeFilesOf input) (dependencies cfg)) as [|d0 rest] eqn:Em;
    [by apply Hnone|].
  destruct (sandbox cfg && _); [by apply Hnone|]. rewrite <- Em in *.
  destruct (resolveAll_requests net (missingDependencies (codeFilesOf input) (dependencies cfg))
              (if sandbox cfg then iframeWindow s else None) (dependencies cfg) (cdn s))
    as (new & Hr & He & Hc).
  { apply missing_dependencies_nodup. }
  destruct (resolveAll net _ _ (dependencies cfg) (cdn s)) as [newDeps c]. cbn [snd] in Hr.
  exists new. split; [by destruct cancelled|]. split; [done|].
  intros pkg. apply Hc.
Qed.

(** ** The packages the resolution effect adds *)

(** X29.  A package the resolution effect resolved is added under its own
    name.  After the effect's resolutions over a list of distinct missing
    packages, each of them has its resolution promise in the cache of the
    realm, and the new dependencies bind the package to what that promise
    was fulfilled with; when it was rejected, or fulfilled with [null], the
    entry for the package is as the caller supplied it. *)
Theorem resolved_packages_are_added (net : Network) (missing : list string)
    (tw : option Window) (supplied : Dependencies) (c : CdnState) :
  cache_sound c → NoDup missing →
  let r := resolveAll net missing tw supplied c in
  ∀ pkg, pkg ∈ missing →
    ∃ p tw' o,
      cacheOf r.2 (realmOf tw) !! pkg = Some p ∧
      promises r.2 !! p = Some (Resolution pkg tw' o) ∧
      assoc pkg r.1 = match o with
                      | Normal VNull | Throw _ => assoc pkg supplied
                      | Normal resolved => Some resolved
                      end.
Proof.
  intros Hs Hnd r pkg Hin. subst r.
  destruct (resolveAll_spec net missing tw supplied c Hnd)
    as (awaited & fallbacks & Ha & Hr1 & _ & _ & Hkeep & _ & Haw).
  assert (∃ p, (pkg, p) ∈ awaited) as [p Hp].
  { rewrite <- Ha in Hin. apply list_elem_of_fmap in Hin as ([d p] & -> & Hin). by exists p. }
  destruct (Haw pkg p Hp) as (q & H1 & H2 & H3).
  assert (∃ tw' o, promises (resolveAll net missing tw supplied c).2 !! q
                   = Some (Resolution pkg tw' o)) as (tw' & o & Hres).
  { destruct H3 as [H3|[o H3]]; [|by exists tw, o].
    destruct (Hs _ _ _ H3) as (tw' & o & Hl & _). exists tw', o. by apply Hkeep. }
  exists q, tw', o. split_and!; [done|done|].
  rewrite Hr1, (addResolved_elem _ awaited supplied pkg p); [|by rewrite Ha|done].
  unfold settled. rewrite H1, Hres. by destruct o as [[]|].
Qed.

(** X29 at one missing package on a network that answers. *)
Lemma resolved_packages_are_added_witness :
  assoc "left-pad" (resolveAll online ["left-pad"] None [] emptyCdn).1
  = Some (VObject [("default", VFunction (cdnUrl "left-pad") [])]).
Proof.
  destruct (resolved_packages_are_added online ["left-pad"] None [] emptyCdn
              cache_sound_empty (NoDup_singleton _) "left-pad" (list_elem_of_here _ _))
    as (p & tw' & o & H1 & H2 & H3).
  rewrite H3. vm_compute in H1. injection H1 as <-. vm_compute in H2. by injection H2 as <- <-.
Defined.

(** ** The calls of [onError] *)



